(** * Robot firmware: command engine and closed-loop rotation controller

    A shallow embedding of the two Arduino sketches of the repository:

    - [Robot_r.ino]: the gyroscope-driven robot with START/STOP buttons
      ([norm180], [Motor], [shouldStopNow], [smartDelay], [Rotate], [Forw],
      [isrStop], [pollStartButton], [waitForStartAfterStop],
      [detectYawSign] and [loop]); [Robot.ino] holds the same body of
      [Rotate];
    - [Arduino.ino]: the command language, the timed commands, the parser,
      [ProgramRunner], [ProgramController] and the pins of [MotorDriver].

    Modelling conventions.

    - A [float] is an IEEE binary32 number, modelled as the rational it
      denotes; every float operation of the sketches ([targetAngle - z],
      [phi * k], [a -= 360], [a += 360], the constant [1.02], the reading
      of a decimal argument) rounds to the nearest binary32 number, ties to
      even.  Comparisons and [abs] are exact.  The loops of [norm180] are
      run with fuel: on an angle so large that taking 360 off no longer
      changes it they do not exit, and the call does not return.
    - Time is counted in milliseconds and advances only in [delay] and in
      [mpu.update()]; every other statement is instantaneous.
    - [unsigned long] is 32 bits wide on the target; subtraction of two
      clock readings wraps modulo [2^32] and is written out as such.
    - The hardware is a record of pin levels plus a log of the calls made to
      the actuators; the environment (sensor readings, the instant at which
      the STOP interrupt fires, the cost of one sensor refresh) is an
      explicit record; the level of the START pin is a function of time.
    - The static variables of a function are passed in and returned. *)

From Stdlib Require Import ZArith QArith Qabs Qround Lqa Lia List Bool.
From Stdlib Require Import String Ascii.
From Stdlib Require Import DecimalString DecimalN DecimalPos.
Import ListNotations.

Local Open Scope Z_scope.

(** ** Single-precision numbers *)

Module Float32.

Local Open Scope Q_scope.

(** A [float] of the sketch is an IEEE binary32 number.  The finite ones
    are modelled as the rationals they denote, and every arithmetic
    operation rounds its exact result to the nearest of them, ties to the
    even one.  A result of magnitude [2^128] or more, which the hardware
    turns into an infinity, stays a number here; for the angles of the
    sketch the difference cannot be seen, since [norm180] returns neither
    on an infinity nor on a number that large. *)

(** Round to the nearest integer, ties to the even one. *)
Definition rne (y : Q) : Z :=
  let f := Qfloor y in
  let g := Qfloor (2 * y) in
  if (g =? 2 * f)%Z then f
  else if Qeq_bool (2 * y) (inject_Z g) then (if Z.even f then f else (f + 1)%Z)
  else (f + 1)%Z.

(** Floats are counted in units of [2^-149], the smallest positive one. *)
Definition UNIT : Z := (2 ^ 149)%Z.

(** Rounding of a non-negative number of units to 24 significant bits. *)
Definition round_units (y : Q) : Z :=
  let n := Qfloor y in
  if (n <? 2 ^ 24)%Z then rne y
  else
    let s := (Z.log2 n - 23)%Z in
    (rne (y / inject_Z (2 ^ s)) * 2 ^ s)%Z.

(** The binary32 number nearest to [x]. *)
Definition f32 (x : Q) : Q :=
  let y := x * inject_Z UNIT in
  if Qle_bool 0 y then Qred (inject_Z (round_units y) / inject_Z UNIT)
  else Qred (- (inject_Z (round_units (- y)) / inject_Z UNIT)).

(** [x] is a binary32 number: a multiple [M * 2^s] of the smallest one
    with at most 24 significant bits. *)
Definition is_f32 (x : Q) : Prop :=
  exists M s : Z,
    (0 <= s)%Z /\ (Z.abs M <= 2 ^ 24)%Z /\
    x == inject_Z (M * 2 ^ s) / inject_Z UNIT.

(** [a + b], [a - b] and [a * b] on floats. *)
Definition fadd (a b : Q) : Q := f32 (a + b).
Definition fsub (a b : Q) : Q := f32 (a - b).
Definition fmul (a b : Q) : Q := f32 (a * b).

End Float32.

(** ** Angles *)

Module Angle.
Import Float32.

Local Open Scope Q_scope.

(** [x < y] on floats, as a boolean test. *)
Definition Qltb (x y : Q) : bool := negb (Qle_bool y x).

(** [while (a > 180) a -= 360;] *)
Fixpoint wrap_down (fuel : nat) (a : Q) : option Q :=
  match fuel with
  | O => None
  | S f => if Qltb 180 a then wrap_down f (fsub a 360) else Some a
  end.

(** [while (a < -180) a += 360;] *)
Fixpoint wrap_up (fuel : nat) (a : Q) : option Q :=
  match fuel with
  | O => None
  | S f => if Qltb a (-180) then wrap_up f (fadd a 360) else Some a
  end.

(** [float norm180(float a)]: the two loops in sequence; [None] when a
    loop has not exited within [fuel] tests of its guard. *)
Definition norm180 (fuel : nat) (a : Q) : option Q :=
  match wrap_down fuel a with
  | Some a1 => wrap_up fuel a1
  | None => None
  end.

(** [r] is the angle [a] brought into [[-180, 180]] by whole turns; of the
    two ends, which are one turn apart, it is the one on the side of
    [a]. *)
Definition wraps (a r : Q) : Prop :=
  -180 <= r /\ r <= 180 /\
  (exists k : Z, a - r == 360 * inject_Z k) /\
  (r == -180 -> a < 0) /\ (r == 180 -> 0 < a).

End Angle.


(** ** The gyroscope robot ([Robot_r.ino]) *)

Module Gyro.
Import Float32 Angle.

(** Motion commands sent to the shift register. *)
Definition Forward : Z := 106.
Definition Backward : Z := 163.
Definition Stop : Z := 0.
Definition RotateRight : Z := 101.
Definition RotateLeft : Z := 154.

(** [float K_TURN_R = 1.02;]: the float nearest to 1.02. *)
Definition K_TURN_R : Q := f32 (102 # 100).
Definition K_TURN_L : Q := f32 (102 # 100).

Definition ROT_FAST_PWM : Z := 200.
Definition ROT_MID_PWM : Z := 185.
Definition ROT_FINE_PWM : Z := 180.
Definition MIN_ROT_PWM : Z := 175.

Definition ANGLE_TOL : Q := 2.
Definition STABLE_CNT : Z := 10.

Definition EN_ACTIVE_LOW : bool := true.

(** Width of [unsigned long] on the target. *)
Definition ULONG : Z := 2 ^ 32.

Inductive Level := LOW | HIGH.

(** What the sketch does to the outside world, newest first in the log. *)
Inductive Event :=
| EvMotor (Dir Speed : Z)
| EvEnable (en : bool)
| EvSerial (msg : string)
| EvDebugRotate (z target err : Q) (sp cmd : Z).

(** The environment of one run: the reading produced by the n-th call of
    [mpu.update()], the instant (in ms since boot) at which the STOP
    interrupt fires, if it does, and the time one [mpu.update()] takes.
    Time advances only in [delay] and [mpu.update()]; every other
    statement is instantaneous. *)
Record Env := {
  heading : nat -> Q;
  stop_time : option Z;
  update_ms : Z
}.

Record World := {
  clock : Z;          (* ms since boot, not wrapped *)
  stopReq : bool;     (* volatile bool stopReq *)
  updates : nat;      (* calls of mpu.update() so far *)
  angleZ : Q;         (* what mpu.getAngleZ() returns *)
  pwm1 : Z;           (* PWM1_PIN duty *)
  pwm2 : Z;           (* PWM2_PIN duty *)
  latch : Z;          (* byte latched in the 74HCT595 *)
  en_pin : Level;     (* EN_PIN *)
  dbg_last : Z;       (* static [last] of debugRotate *)
  log : list Event
}.

(** State and fuel monad: [None] is a loop that has run out of fuel. *)
Definition M (A : Type) : Type := World -> option (A * World).

Definition ret {A} (a : A) : M A := fun w => Some (a, w).

Definition bind {A B} (c : M A) (k : A -> M B) : M B :=
  fun w => match c w with
           | Some (a, w1) => k a w1
           | None => None
           end.

Definition out_of_fuel {A} : M A := fun _ => None.

Declare Scope rob_scope.
Delimit Scope rob_scope with rob.
Notation "x <- c ;; k" := (bind c (fun x => k))
  (at level 61, c at next level, right associativity) : rob_scope.
Notation "c ;; k" := (bind c (fun _ => k))
  (at level 61, right associativity) : rob_scope.
Local Open Scope rob_scope.

Definition emit (e : Event) : M unit := fun w =>
  Some (tt, {| clock := clock w; stopReq := stopReq w; updates := updates w;
               angleZ := angleZ w; pwm1 := pwm1 w; pwm2 := pwm2 w;
               latch := latch w; en_pin := en_pin w; dbg_last := dbg_last w;
               log := e :: log w |}).

(** [millis()] *)
Definition millis : M Z := fun w => Some (clock w mod ULONG, w).

(** Reading the volatile flag. *)
Definition read_stopReq : M bool := fun w => Some (stopReq w, w).

Definition getAngleZ : M Q := fun w => Some (angleZ w, w).

(** A call of [norm180(a)]: it does not return when one of its loops
    does not exit within [fuel] tests of its guard. *)
Definition call_norm180 (fuel : nat) (a : Q) : M Q := fun w =>
  match norm180 fuel a with
  | Some r => Some (r, w)
  | None => None
  end.

Section WithEnv.

Variable env : Env.

(** Has the STOP interrupt fired in the interval [(t, t + d]]? *)
Definition isr_fires (t d : Z) : bool :=
  match stop_time env with
  | Some ts => (t <? ts) && (ts <=? t + d)
  | None => false
  end.

(** Let [d] ms pass; [isrStop] sets the flag if it fires meanwhile. *)
Definition elapse (d : Z) : M unit := fun w =>
  Some (tt, {| clock := clock w + d;
               stopReq := stopReq w || isr_fires (clock w) d;
               updates := updates w; angleZ := angleZ w;
               pwm1 := pwm1 w; pwm2 := pwm2 w; latch := latch w;
               en_pin := en_pin w; dbg_last := dbg_last w; log := log w |}).

(** [delay(ms)] *)
Definition delay (ms : Z) : M unit := elapse ms.

(** [mpu.update()]: the driver refreshes its angle from the sensor. *)
Definition mpu_update : M unit :=
  elapse (update_ms env) ;;
  fun w =>
    Some (tt, {| clock := clock w; stopReq := stopReq w;
                 updates := S (updates w);
                 angleZ := heading env (updates w);
                 pwm1 := pwm1 w; pwm2 := pwm2 w; latch := latch w;
                 en_pin := en_pin w; dbg_last := dbg_last w; log := log w |}).

(** [digitalWrite(EN_PIN, v)] *)
Definition write_en (v : Level) : M unit := fun w =>
  Some (tt, {| clock := clock w; stopReq := stopReq w; updates := updates w;
               angleZ := angleZ w; pwm1 := pwm1 w; pwm2 := pwm2 w;
               latch := latch w; en_pin := v; dbg_last := dbg_last w;
               log := log w |}).

(** [analogWrite] on both PWM pins followed by the latch sequence. *)
Definition write_drive (speed dir : Z) : M unit := fun w =>
  Some (tt, {| clock := clock w; stopReq := stopReq w; updates := updates w;
               angleZ := angleZ w; pwm1 := speed; pwm2 := speed;
               latch := dir; en_pin := en_pin w; dbg_last := dbg_last w;
               log := log w |}).

Definition enableMotors (en : bool) : M unit :=
  emit (EvEnable en) ;;
  if EN_ACTIVE_LOW then write_en (if en then LOW else HIGH)
  else write_en (if en then HIGH else LOW).

Definition Motor (Dir Speed : Z) : M unit :=
  emit (EvMotor Dir Speed) ;;
  if (Speed <=? 0) || (Dir =? Stop) then
    write_drive 0 Stop ;;
    enableMotors false
  else
    enableMotors true ;;
    write_drive Speed Dir.

Definition shouldStopNow : M bool :=
  s <- read_stopReq ;;
  if s then
    Motor Stop 0 ;;
    enableMotors false ;;
    ret true
  else ret false.

(** The loop of [smartDelay]; one unit of fuel per test of the guard. *)
Fixpoint smartDelay_loop (fuel : nat) (t0 ms : Z) : M bool :=
  match fuel with
  | O => out_of_fuel
  | S f =>
      now <- millis ;;
      if (now - t0) mod ULONG <? ms then
        s <- shouldStopNow ;;
        if s then ret false
        else delay 2 ;; smartDelay_loop f t0 ms
      else ret true
  end.

Definition smartDelay_fuel (fuel : nat) (ms : Z) : M bool :=
  t0 <- millis ;;
  smartDelay_loop fuel t0 ms.

(** Guard tests needed for a wait of [ms]: one per 2 ms slice and the
    final one. *)
Definition slices (ms : Z) : nat := S (Z.to_nat ((ms + 1) / 2)).

(** [bool smartDelay(unsigned long ms)] *)
Definition smartDelay (ms : Z) : M bool := smartDelay_fuel (slices ms) ms.

(** [debugRotate]: one line on the serial port, at most every 50 ms. *)
Definition debugRotate (z target err : Q) (sp cmd : Z) : M unit :=
  now <- millis ;;
  fun w =>
    if 50 <=? (now - dbg_last w) mod ULONG then
      Some (tt, {| clock := clock w; stopReq := stopReq w;
                   updates := updates w; angleZ := angleZ w;
                   pwm1 := pwm1 w; pwm2 := pwm2 w; latch := latch w;
                   en_pin := en_pin w; dbg_last := now;
                   log := EvDebugRotate z target err sp cmd :: log w |})
    else Some (tt, w).

(** *** Rotate *)

(** How one pass through the body of [while (true)] ends. *)
Inductive Flow :=
| Return (b : bool)
| Continue (overshot : bool) (stableCnt : Z) (cmd : Z).

(** [if (!smartDelay(ms)) return false;] followed by [k]. *)
Definition wait_or_abort (ms : Z) (k : M Flow) : M Flow :=
  ok <- smartDelay ms ;;
  if ok then k else ret (Return false).

Definition TIMEOUT_MS : Z := 9000.
Definition OVERSHOOT_DEG : Q := 6.
Definition MIN_PWM : Z := Z.max MIN_ROT_PWM 160.
Definition FAST_PWM : Z := ROT_FAST_PWM.
Definition MID_PWM : Z := ROT_MID_PWM.
Definition FINE_PWM : Z := Z.max ROT_FINE_PWM MIN_PWM.

Definition MICRO_STEPS : nat := 3.
Definition MICRO_KICK_MS : Z := 8.
Definition MICRO_HOLD_MS : Z := 20.
Definition MICRO_PAUSE_MS : Z := 25.
Definition NEAR_KICK_MS : Z := 12.
Definition NEAR_HOLD_MS : Z := 40.
Definition NEAR_PAUSE_MS : Z := 35.

(** [(x >= 0)] on a float. *)
Definition nonneg (x : Q) : bool := Qle_bool 0 x.

(** [(err >= 0) ? +1 : -1] *)
Definition sign_of (err : Q) : Z := if nonneg err then 1 else -1.

Section Session.

(** Fuel given to each call of [norm180]. *)
Variable nf : nat.

(** The variables of one invocation that the loop does not change. *)
Variables (targetAngle : Q) (t0 : Z) (sign0 : Z) (cmdMain cmdOpp : Z).

(** The [for] loop of the micro zone, [n] passes left.  [Some b] is a
    [return b] out of [Rotate]; [None] is leaving the [for] loop, by
    [break] or by its guard. *)
Fixpoint micro_steps (n : nat) (overshot : bool) : M (option bool) :=
  match n with
  | O => ret None
  | S n' =>
      s <- shouldStopNow ;;
      if s then ret (Some false) else
      mpu_update ;;
      z2 <- getAngleZ ;;
      err2 <- call_norm180 nf (fsub targetAngle z2) ;;
      let ae2 := Qabs err2 in
      if Qle_bool ae2 ANGLE_TOL then ret None else
      let cmd2 := if nonneg err2 then cmdMain else cmdOpp in
      let cmd2 := if overshot then cmdOpp else cmd2 in
      Motor cmd2 FINE_PWM ;;
      ok1 <- smartDelay MICRO_KICK_MS ;;
      if negb ok1 then ret (Some false) else
      Motor cmd2 MIN_PWM ;;
      ok2 <- smartDelay MICRO_HOLD_MS ;;
      if negb ok2 then ret (Some false) else
      Motor Stop 0 ;;
      ok3 <- smartDelay MICRO_PAUSE_MS ;;
      if negb ok3 then ret (Some false) else
      mpu_update ;;
      z3 <- getAngleZ ;;
      errAfter <- call_norm180 nf (fsub targetAngle z3) ;;
      if negb (Bool.eqb (nonneg errAfter) (nonneg err2)) then ret None
      else micro_steps n' overshot
  end.

(** One pass through the body of [while (true)]. *)
Definition loop_body (overshot : bool) (stableCnt : Z) (cmd : Z) : M Flow :=
  s <- shouldStopNow ;;
  if s then ret (Return false) else
  mpu_update ;;
  z <- getAngleZ ;;
  err <- call_norm180 nf (fsub targetAngle z) ;;
  let ae := Qabs err in
  let sign := sign_of err in
  now <- millis ;;
  if TIMEOUT_MS <? (now - t0) mod ULONG then
    emit (EvSerial "Rotate timeout") ;;
    Motor Stop 0 ;;
    ret (Return false)
  else if Qle_bool ae ANGLE_TOL then
    let stableCnt := stableCnt + 1 in
    Motor Stop 0 ;;
    debugRotate z targetAngle err 0 Stop ;;
    if STABLE_CNT <=? stableCnt then ret (Return true)
    else wait_or_abort 25 (ret (Continue overshot stableCnt cmd))
  else
    let stableCnt := 0 in
    let overshot :=
      if negb overshot && negb (sign =? sign0) && Qltb OVERSHOOT_DEG ae
      then true else overshot in
    let cmd := if overshot then cmdOpp else cmdMain in
    if Qltb ae 10 then
      if Qltb ae 6 then
        r <- micro_steps MICRO_STEPS overshot ;;
        match r with
        | Some b => ret (Return b)
        | None =>
            z' <- getAngleZ ;;
            e' <- call_norm180 nf (fsub targetAngle z') ;;
            debugRotate z' targetAngle e' MIN_PWM cmd ;;
            ret (Continue overshot stableCnt cmd)
        end
      else
        Motor cmd FINE_PWM ;;
        wait_or_abort NEAR_KICK_MS (
        Motor cmd MIN_PWM ;;
        wait_or_abort NEAR_HOLD_MS (
        Motor Stop 0 ;;
        wait_or_abort NEAR_PAUSE_MS (
        debugRotate z targetAngle err MIN_PWM cmd ;;
        ret (Continue overshot stableCnt cmd))))
    else if Qltb ae 25 then
      Motor cmd MID_PWM ;;
      wait_or_abort 12 (
      debugRotate z targetAngle err MID_PWM cmd ;;
      ret (Continue overshot stableCnt cmd))
    else
      Motor cmd FAST_PWM ;;
      wait_or_abort 10 (
      debugRotate z targetAngle err FAST_PWM cmd ;;
      ret (Continue overshot stableCnt cmd)).

(** [while (true) { ... }], one unit of fuel per pass. *)
Fixpoint rotate_loop (fuel : nat) (overshot : bool) (stableCnt cmd : Z)
  : M bool :=
  match fuel with
  | O => out_of_fuel
  | S f =>
      r <- loop_body overshot stableCnt cmd ;;
      match r with
      | Return b => ret b
      | Continue o c d => rotate_loop f o c d
      end
  end.

End Session.

(** [bool Rotate(float phi)]; [fuel] bounds the passes of its loop and
    the passes of the loops of each call of [norm180]. *)
Definition Rotate (fuel : nat) (phi : Q) : M bool :=
  s <- shouldStopNow ;;
  if s then ret false else
  mpu_update ;;
  startAngle <- getAngleZ ;;
  let k := if Qltb 0 phi then K_TURN_R else K_TURN_L in
  let targetAngle := fsub startAngle (fmul phi k) in
  let overshot := false in
  t0 <- millis ;;
  let stableCnt := 0 in
  let cmdMain := if Qltb 0 phi then RotateRight else RotateLeft in
  let cmdOpp := if Qltb 0 phi then RotateLeft else RotateRight in
  Motor cmdMain FAST_PWM ;;
  ok1 <- smartDelay 60 ;;
  if negb ok1 then Motor Stop 0 ;; ret false else
  Motor Stop 0 ;;
  ok2 <- smartDelay 50 ;;
  if negb ok2 then ret false else
  let cmd := cmdMain in
  mpu_update ;;
  z0 <- getAngleZ ;;
  err0 <- call_norm180 fuel (fsub targetAngle z0) ;;
  let sign0 := sign_of err0 in
  rotate_loop fuel targetAngle t0 sign0 cmdMain cmdOpp fuel overshot stableCnt
    cmd.

End WithEnv.

End Gyro.

(** ** The command engine ([Arduino.ino]) *)

Module Engine.

Local Open Scope string_scope.
Local Open Scope Z_scope.

(** *** Command language *)

Inductive CommandId :=
| Forward | Backward | Left90 | Right90 | PaintOn | PaintOff | Wait.

Record CommandSpec := {
  token : string;
  id : CommandId;
  hasArgument : bool
}.

Definition COMMAND_TABLE : list CommandSpec :=
  [ {| token := "F";        id := Forward;  hasArgument := true |};
    {| token := "B";        id := Backward; hasArgument := true |};
    {| token := "L";        id := Left90;   hasArgument := false |};
    {| token := "R";        id := Right90;  hasArgument := false |};
    {| token := "paintON";  id := PaintOn;  hasArgument := false |};
    {| token := "paintOFF"; id := PaintOff; hasArgument := false |};
    {| token := "WAIT";     id := Wait;     hasArgument := true |} ].

(** Width of [unsigned long]. *)
Definition ULONG : Z := 2 ^ 32.

(** Calls made to the collaborators ([IMotionDriver], [IPainter],
    [IFileSystem]) and lines written to [Serial], newest first in a log. *)
Inductive Event :=
| DrvForward | DrvBackward | DrvRotateLeft | DrvRotateRight | DrvStop
| PainterOn | PainterOff
| SerialLine (line : string)
| FsOpen (name : string)
| RunBlocked | RunAlready | RunNotFound (name : string)
| RunStart (name : string) | RunFinished.

(** *** Commands *)

(** The fields of [TimedCommand]. *)
Record TimedCommand := {
  duration : Z;
  startTime : Z;
  active : bool
}.

(** [TimedCommand(d)]: a fresh, inactive command. *)
Definition timed (d : Z) : TimedCommand :=
  {| duration := d; startTime := 0; active := false |}.

Definition ROTATE_90_MS : Z := 420.

(** The classes implementing [ICommand], with their fields. *)
Inductive ICommand :=
| CmdForward (t : TimedCommand)
| CmdBackward (t : TimedCommand)
| CmdLeft90 (t : TimedCommand)
| CmdRight90 (t : TimedCommand)
| CmdPaintOn (done : bool)
| CmdPaintOff (done : bool)
| CmdWait (t : TimedCommand).

(** [TimedCommand::start] *)
Definition timed_start (t : TimedCommand) (now : Z) : TimedCommand :=
  {| duration := duration t; startTime := now; active := true |}.

(** [TimedCommand::update]: the second component tells whether
    [onFinish] has been called. *)
Definition timed_update (t : TimedCommand) (now : Z) : TimedCommand * bool :=
  if negb (active t) then (t, false)
  else if duration t <=? (now - startTime t) mod ULONG then
    ({| duration := duration t; startTime := startTime t; active := false |},
     true)
  else (t, false).

(** [ICommand::start]: the command after the call and what it did to the
    robot. *)
Definition cmd_start (c : ICommand) (now : Z) : ICommand * list Event :=
  match c with
  | CmdForward t => (CmdForward (timed_start t now), [DrvForward])
  | CmdBackward t => (CmdBackward (timed_start t now), [DrvBackward])
  | CmdLeft90 t => (CmdLeft90 (timed_start t now), [DrvRotateLeft])
  | CmdRight90 t => (CmdRight90 (timed_start t now), [DrvRotateRight])
  | CmdPaintOn _ => (CmdPaintOn true, [PainterOn])
  | CmdPaintOff _ => (CmdPaintOff true, [PainterOff])
  | CmdWait t => (CmdWait (timed_start t now), [DrvStop])
  end.

(** Every [onFinish] in the sketch is [r.stop()]. *)
Definition on_finish (fin : bool) : list Event :=
  if fin then [DrvStop] else [].

(** [ICommand::update] *)
Definition cmd_update (c : ICommand) (now : Z) : ICommand * list Event :=
  match c with
  | CmdForward t =>
      let (t', fin) := timed_update t now in (CmdForward t', on_finish fin)
  | CmdBackward t =>
      let (t', fin) := timed_update t now in (CmdBackward t', on_finish fin)
  | CmdLeft90 t =>
      let (t', fin) := timed_update t now in (CmdLeft90 t', on_finish fin)
  | CmdRight90 t =>
      let (t', fin) := timed_update t now in (CmdRight90 t', on_finish fin)
  | CmdPaintOn d => (CmdPaintOn d, [])
  | CmdPaintOff d => (CmdPaintOff d, [])
  | CmdWait t =>
      let (t', fin) := timed_update t now in (CmdWait t', on_finish fin)
  end.

(** [ICommand::finished] *)
Definition cmd_finished (c : ICommand) : bool :=
  match c with
  | CmdForward t | CmdBackward t | CmdLeft90 t | CmdRight90 t | CmdWait t =>
      negb (active t)
  | CmdPaintOn d | CmdPaintOff d => d
  end.

(** *** Strings *)

(** [isspace] of the C library. *)
Definition isspace (c : ascii) : bool :=
  let n := nat_of_ascii c in
  (n =? 32)%nat || ((9 <=? n)%nat && (n <=? 13)%nat).

Definition isdigit (c : ascii) : bool :=
  let n := nat_of_ascii c in (48 <=? n)%nat && (n <=? 57)%nat.

Fixpoint ltrim (s : string) : string :=
  match s with
  | String c r => if isspace c then ltrim r else s
  | EmptyString => EmptyString
  end.

Fixpoint rtrim (s : string) : string :=
  match s with
  | String c r =>
      match rtrim r with
      | EmptyString => if isspace c then EmptyString else String c EmptyString
      | r' => String c r'
      end
  | EmptyString => EmptyString
  end.

(** [String::trim] *)
Definition trim (s : string) : string := rtrim (ltrim s).

(** [line.startsWith(token)] *)
Fixpoint startsWith (line token : string) : bool :=
  match token, line with
  | EmptyString, _ => true
  | String t token', String c line' => Ascii.eqb c t && startsWith line' token'
  | String _ _, EmptyString => false
  end.

(** [line.charAt(n)]; the library answers 0 past the end. *)
Definition charAt (line : string) (n : nat) : ascii :=
  match String.get n line with
  | Some c => c
  | None => zero
  end.

(** [line.indexOf(c)]; [None] stands for -1. *)
Fixpoint indexOf (line : string) (c : ascii) : option nat :=
  match line with
  | EmptyString => None
  | String d r =>
      if Ascii.eqb d c then Some O
      else match indexOf r c with
           | Some n => Some (S n)
           | None => None
           end
  end.

(** [line.substring(n)] *)
Fixpoint substring_from (n : nat) (line : string) : string :=
  match n, line with
  | O, _ => line
  | S n', String _ r => substring_from n' r
  | S _, EmptyString => EmptyString
  end.

(** The decimal digits at the head of a string, as a number, with their
    count and the rest of the string. *)
Fixpoint digits (s : string) (acc : Z) (cnt : nat) : Z * nat * string :=
  match s with
  | String c r =>
      if isdigit c
      then digits r (10 * acc + Z.of_nat (nat_of_ascii c - 48)) (S cnt)
      else (acc, cnt, s)
  | EmptyString => (acc, cnt, s)
  end.

(** An optional sign at the head of a string. *)
Definition sign_prefix (s : string) : bool * string :=
  match s with
  | String "-" r => (true, r)
  | String "+" r => (false, r)
  | _ => (false, s)
  end.

(** An optional exponent [e<sign><digits>] at the head of a string. *)
Definition exponent (s : string) : Z :=
  match s with
  | String c r =>
      if Ascii.eqb c "e" || Ascii.eqb c "E" then
        let (neg, r1) := sign_prefix r in
        let '(e, cnt, _) := digits r1 0 0 in
        match cnt with
        | O => 0
        | S _ => if neg then - e else e
        end
      else 0
  | EmptyString => 0
  end.

(** A [float]: a finite binary32 number, an infinity or a not-a-number. *)
Inductive Float :=
| Finite (q : Q)
| Infinite (neg : bool)
| NotANumber.

(** [tolower] of the C library. *)
Definition tolower (c : ascii) : ascii :=
  let n := nat_of_ascii c in
  if (65 <=? n)%nat && (n <=? 90)%nat then ascii_of_nat (n + 32) else c.

(** Does [s] start with [word] (given in lower case), in either case? *)
Fixpoint starts_nocase (s word : string) : bool :=
  match word, s with
  | EmptyString, _ => true
  | String t word', String c s' =>
      Ascii.eqb (tolower c) t && starts_nocase s' word'
  | String _ _, EmptyString => false
  end.

(** [String::toFloat], that is [atof] of the C library: leading white
    space, an optional sign, then either one of the words INF, INFINITY
    and NAN in either case, or decimal digits with an optional fraction and
    an optional exponent; 0 when no number is found.  The decimal value is
    rounded to the nearest [float]; from [2^128] on the result is an
    infinity.  (Hexadecimal notation, which the C library of the AVR boards
    does not read, is not modelled.) *)
Definition toFloat (s : string) : Float :=
  let s0 := ltrim s in
  let (neg, s1) := sign_prefix s0 in
  if starts_nocase s1 "inf" then Infinite neg
  else if starts_nocase s1 "nan" then NotANumber
  else
  let '(ip, icnt, s2) := digits s1 0 0 in
  let '(fp, fcnt, s3) :=
    match s2 with
    | String c r => if Ascii.eqb c "." then digits r 0 0 else (0, O, s2)
    | EmptyString => (0, O, s2)
    end in
  match icnt, fcnt with
  | O, O => Finite 0
  | _, _ =>
      let mant := (inject_Z ip + inject_Z fp / inject_Z (10 ^ Z.of_nat fcnt))%Q in
      let v := Float32.f32 (mant * Qpower 10 (exponent s3)) in
      if Qle_bool (inject_Z (2 ^ 128)) v then Infinite neg
      else Finite (if neg then (- v)%Q else v)
  end.

(** [(unsigned long)value]: truncation towards zero.  For a value whose
    truncation does not fit in an [unsigned long], the infinities and
    not-a-number among them, the language does not define the conversion:
    the model wraps the finite ones and gives 0 for the others, and no
    statement below rests on that choice. *)
Definition to_ulong (value : Float) : Z :=
  match value with
  | Finite q => (Z.quot (Qnum q) (Z.pos (Qden q))) mod ULONG
  | Infinite _ | NotANumber => 0
  end.

(** *** Parser and factory *)

(** [CommandFactory::create] *)
Definition create (i : CommandId) (value : Float) : ICommand :=
  match i with
  | Forward => CmdForward (timed (to_ulong value))
  | Backward => CmdBackward (timed (to_ulong value))
  | Left90 => CmdLeft90 (timed ROTATE_90_MS)
  | Right90 => CmdRight90 (timed ROTATE_90_MS)
  | PaintOn => CmdPaintOn false
  | PaintOff => CmdPaintOff false
  | Wait => CmdWait (timed (to_ulong value))
  end.

(** [CommandParser::startsWithToken] *)
Definition startsWithToken (line token : string) : bool :=
  if negb (startsWith line token) then false
  else
    let len := String.length token in
    if (String.length line =? len)%nat then true
    else
      let c := charAt line len in
      Ascii.eqb c " " || Ascii.eqb c "009".

(** [CommandParser::extractArgument] *)
Definition extractArgument (line : string) : Float :=
  match indexOf line " " with
  | None => Finite 0
  | Some p => toFloat (substring_from (p + 1) line)
  end.

(** The [for] loop of [CommandParser::parse] over the rest of the table. *)
Fixpoint parse_table (table : list CommandSpec) (line : string)
  : option ICommand :=
  match table with
  | [] => None
  | spec :: rest =>
      if startsWithToken line (token spec) then
        let value :=
          if hasArgument spec then extractArgument line else Finite 0 in
        Some (create (id spec) value)
      else parse_table rest line
  end.

(** [CommandParser::parse]; [None] is [nullptr]. *)
Definition parse (line : string) : option ICommand :=
  let line := trim line in
  if (String.length line =? 0)%nat then None
  else parse_table COMMAND_TABLE line.

(** *** Program runner *)

(** [MemoryFile]: the lines of a program and the read position. *)
Record MemoryFile := {
  lines : list string;
  idx : nat
}.

Definition available (f : MemoryFile) : bool :=
  (idx f <? List.length (lines f))%nat.

Definition readLine (f : MemoryFile) : string * MemoryFile :=
  (nth (idx f) (lines f) "", {| lines := lines f; idx := S (idx f) |}).

(** [ProgramRunner] with what it acts upon: [live] counts the [ICommand]
    objects that have been allocated with [new] and not yet deleted, [out]
    is the log of events.  The file the runner reads is the one object the
    file system holds; only the runner reads it, so it is kept here. *)
Record Runner := {
  file : option MemoryFile;
  current : option ICommand;
  running : bool;
  finishedAll : bool;
  live : nat;
  out : list Event
}.

(** [ProgramRunner::stop] *)
Definition stop (r : Runner) : Runner :=
  {| file := None;
     current := None;
     running := false;
     finishedAll := false;
     live := match current r with Some _ => pred (live r) | None => live r end;
     out := DrvStop :: out r |}.

(** [ProgramRunner::start] *)
Definition start (f : option MemoryFile) (r : Runner) : Runner :=
  let r := stop r in
  {| file := f;
     current := current r;
     running := match f with Some _ => true | None => false end;
     finishedAll := finishedAll r;
     live := live r;
     out := out r |}.

(** The branch of [update] taken when the program is exhausted. *)
Definition finish (r : Runner) : Runner :=
  {| file := file r; current := current r;
     running := false; finishedAll := true;
     live := live r; out := DrvStop :: out r |}.

(** [ProgramRunner::update]; [now] is what the clock reads in this cycle. *)
Definition update (now : Z) (r : Runner) : Runner :=
  if negb (running r) then r
  else
    match current r with
    | Some c =>
        let (c', evs) := cmd_update c now in
        if cmd_finished c' then
          {| file := file r; current := None; running := running r;
             finishedAll := finishedAll r; live := pred (live r);
             out := evs ++ out r |}
        else
          {| file := file r; current := Some c'; running := running r;
             finishedAll := finishedAll r; live := live r;
             out := evs ++ out r |}
    | None =>
        match file r with
        | None => finish r
        | Some f =>
            if negb (available f) then finish r
            else
              let (line, f') := readLine f in
              match parse line with
              | Some c =>
                  let (c', evs) := cmd_start c now in
                  {| file := Some f'; current := Some c';
                     running := running r; finishedAll := finishedAll r;
                     live := S (live r);
                     out := evs ++ SerialLine line :: out r |}
              | None =>
                  {| file := Some f'; current := None;
                     running := running r; finishedAll := finishedAll r;
                     live := live r;
                     out := SerialLine line :: out r |}
              end
        end
    end.

(** *** File system, selector, trigger, run control *)

Record Entry := {
  name : string;
  program : list string
}.

(** [MemoryFileSystem::open]; [None] is [nullptr]. *)
Fixpoint fs_open (entries : list Entry) (n : string) : option MemoryFile :=
  match entries with
  | [] => None
  | e :: rest =>
      if String.eqb n (name e) then Some {| lines := program e; idx := 0 |}
      else fs_open rest n
  end.

Definition SQUARE : list string :=
  ["paintON"; "F 700"; "R"; "F 700"; "R"; "F 700"; "R"; "F 700"; "R";
   "paintOFF"].

Definition TRIANGLE : list string :=
  ["paintON"; "F 700"; "R"; "R"; "F 700"; "R"; "R"; "F 700"; "paintOFF"].

Definition FS_ENTRIES : list Entry :=
  [ {| name := "square.txt"; program := SQUARE |};
    {| name := "triangle.txt"; program := TRIANGLE |} ].

(** [DefaultProgramSelector::selectProgram] *)
Definition selectProgram : string := "square.txt".

(** [ProgramController] with its collaborators: the runner, the field
    [last] of [ButtonStartTrigger] and the field [enabled] of
    [RunControl]. *)
Record Controller := {
  runner : Runner;
  last : bool;
  enabled : bool
}.

Definition report (e : Event) (r : Runner) : Runner :=
  {| file := file r; current := current r; running := running r;
     finishedAll := finishedAll r; live := live r; out := e :: out r |}.

Section Wiring.

(** The file system and the selector the controller is wired to. *)
Variable entries : list Entry.
Variable selected : string.

(** The first half of [ProgramController::update]: a start edge. *)
Definition on_start_edge (en : bool) (r : Runner) : Runner :=
  if negb en then report RunBlocked r
  else if running r then report RunAlready r
  else
    let r := report (FsOpen selected) r in
    match fs_open entries selected with
    | None => report (RunNotFound selected) r
    | Some f => start (Some f) (report (RunStart selected) r)
    end.

(** The second half of [ProgramController::update]: one poll of the
    runner and the completion report. *)
Definition poll (en : bool) (now : Z) (r : Runner) : Runner :=
  if en then
    let r := update now r in
    if finishedAll r then report RunFinished r else r
  else r.

(** [ProgramController::update]; [pressed] is the level of the start
    button in this cycle and [now] the reading of the clock. *)
Definition controller_update (pressed : bool) (now : Z) (c : Controller)
  : Controller :=
  let edge := pressed && negb (last c) in
  let r := if edge then on_start_edge (enabled c) (runner c) else runner c in
  {| runner := poll (enabled c) now r; last := pressed;
     enabled := enabled c |}.

(** The controller fed with the button levels and clock readings of
    successive cycles. *)
Fixpoint cycles (inputs : list (bool * Z)) (c : Controller) : Controller :=
  match inputs with
  | [] => c
  | (pressed, now) :: rest => cycles rest (controller_update pressed now c)
  end.

End Wiring.

(** The runner polled at successive clock readings. *)
Fixpoint updates (nows : list Z) (r : Runner) : Runner :=
  match nows with
  | [] => r
  | now :: rest => updates rest (update now r)
  end.

(** The state after [setup()]. *)
Definition idle : Runner :=
  {| file := None; current := None; running := false; finishedAll := false;
     live := 0; out := [] |}.

Definition power_on : Controller :=
  {| runner := idle; last := false; enabled := true |}.

End Engine.

(** ** Vocabulary of the statements about the command engine *)

Module EngineSpec.
Import Engine.

Local Open Scope string_scope.
Local Open Scope Z_scope.

(** A character that ends a token: space or tab. *)
Definition isblank (c : ascii) : bool := Ascii.eqb c " " || Ascii.eqb c "009".

(** The first token of a line: its characters up to the first blank. *)
Fixpoint first_token (line : string) : string :=
  match line with
  | String c r => if isblank c then EmptyString else String c (first_token r)
  | EmptyString => EmptyString
  end.

Fixpoint no_blank (s : string) : bool :=
  match s with
  | String c r => negb (isblank c) && no_blank r
  | EmptyString => true
  end.

(** The tokens of the command table. *)
Definition tokens : list string := map token COMMAND_TABLE.

(** The parser makes no command of the line. *)
Definition skipped (line : string) : Prop := parse line = None.

(** The runner holds exactly the command objects it has not deleted: one
    if a command is current, none otherwise. *)
Definition heap_ok (r : Runner) : Prop :=
  live r = match current r with Some _ => 1%nat | None => 0%nat end.

(** The text after the first space of a line does not start a number:
    after white space and an optional sign comes neither a digit, nor a
    point followed by a digit, nor one of the words INF and NAN in either
    case. *)
Definition not_a_number (s : string) : bool :=
  let (_, s1) := sign_prefix (ltrim s) in
  if starts_nocase s1 "inf" || starts_nocase s1 "nan" then false else
  match s1 with
  | String c r =>
      if isdigit c then false
      else if Ascii.eqb c "." then
        match r with
        | String d _ => negb (isdigit d)
        | EmptyString => true
        end
      else true
  | EmptyString => true
  end.

(** The argument of a line is missing or not a number. *)
Definition no_argument (line : string) : Prop :=
  match indexOf line " " with
  | None => True
  | Some p => not_a_number (substring_from (p + 1) line) = true
  end.

Definition is_forward (e : Event) : bool :=
  match e with DrvForward => true | _ => false end.

Definition is_finished_report (e : Event) : bool :=
  match e with RunFinished => true | _ => false end.

Definition is_open (e : Event) : bool :=
  match e with FsOpen _ => true | _ => false end.

(** The events logged between runner [r] and runner [r']. *)
Definition logged (r r' : Runner) (evs : list Event) : Prop :=
  out r' = (evs ++ out r)%list.

(** The runner is unchanged but for its log. *)
Definition same_state (r r' : Runner) : Prop :=
  file r' = file r /\ current r' = current r /\ running r' = running r /\
  finishedAll r' = finishedAll r /\ live r' = live r.

(** A runner that has just been given the program [prog]. *)
Definition loaded (prog : list string) (r : Runner) : Runner :=
  start (Some {| lines := prog; idx := 0 |}) r.

(** The runner [r] with its log replaced by [l]. *)
Definition with_out (l : list Event) (r : Runner) : Runner :=
  {| file := file r; current := current r; running := running r;
     finishedAll := finishedAll r; live := live r; out := l |}.

(** Events that [ProgramRunner] itself produces: calls to the robot and
    the echo of a line; no call to the file system and no report of the
    controller. *)
Definition runner_event (e : Event) : bool :=
  match e with
  | DrvForward | DrvBackward | DrvRotateLeft | DrvRotateRight | DrvStop
  | PainterOn | PainterOff | SerialLine _ => true
  | _ => false
  end.

(** The states the runner can be in: those obtained from the state after
    [setup()] by calls of [start], [stop] and [update]. *)
Inductive reachable : Runner -> Prop :=
| reach_idle : reachable idle
| reach_stop r : reachable r -> reachable (stop r)
| reach_start f r : reachable r -> reachable (start f r)
| reach_update now r : reachable r -> reachable (update now r).

(** Button and clock of a run of [n + 1] cycles: the start button is
    pressed in the first cycle only, and a cycle is made every second. *)
Definition one_press (n : nat) : list (bool * Z) :=
  (true, 0) :: map (fun k => (false, 1000 * Z.of_nat k)) (seq 1 n).

(** The sketch as wired in [Arduino.ino], after [n + 1] such cycles. *)
Definition square_run (n : nat) : Controller :=
  cycles FS_ENTRIES selectProgram (one_press n) power_on.

(** The number of completion reports in a log. *)
Definition finished_reports (l : list Event) : nat :=
  List.length (filter is_finished_report l).

End EngineSpec.

(** ** Vocabulary of the statements about the gyroscope robot *)

Module GyroSpec.
Import Float32 Angle Gyro.
Local Open Scope rob_scope.

(** Total correctness of a computation: it returns, and the result and the
    world it leaves satisfy [Q]. *)
Definition twp {A} (c : M A) (Q : A -> World -> Prop) (w : World) : Prop :=
  exists a w', c w = Some (a, w') /\ Q a w'.

(** The actuators are stopped and disabled. *)
Definition stopped (w : World) : Prop :=
  pwm1 w = 0 /\ pwm2 w = 0 /\ latch w = Stop /\ en_pin w = HIGH.

(** The world differs from [w] only by what a full stop does. *)
Definition same_sensor (w w' : World) : Prop :=
  updates w' = updates w /\ angleZ w' = angleZ w /\ dbg_last w' = dbg_last w.

Definition same_drive (w w' : World) : Prop :=
  pwm1 w' = pwm1 w /\ pwm2 w' = pwm2 w /\ latch w' = latch w /\
  en_pin w' = en_pin w /\ log w' = log w.

(** The three log entries of [Motor(Stop, 0); enableMotors(false);]. *)
Definition stop_entries : list Event :=
  [EvEnable false; EvEnable false; EvMotor Stop 0].

Definition same_time (w w' : World) : Prop :=
  clock w' = clock w /\ stopReq w' = stopReq w.

Definition same_pins (w w' : World) : Prop :=
  pwm1 w' = pwm1 w /\ pwm2 w' = pwm2 w /\ latch w' = latch w /\
  en_pin w' = en_pin w.

(** The [Motor] calls recorded in a log, newest first, as (Dir, Speed). *)
Fixpoint motors (l : list Event) : list (Z * Z) :=
  match l with
  | [] => []
  | EvMotor d s :: l' => (d, s) :: motors l'
  | _ :: l' => motors l'
  end.

(** Between world [w] and world [w'] the log has grown, and the [Motor]
    calls made in between are [l], newest first. *)
Definition issued (w w' : World) (l : list (Z * Z)) : Prop :=
  exists pre, log w' = pre ++ log w /\ motors pre = l.

(** The first [Motor] call made between [w] and [w'] is [m]. *)
Definition first_command (w w' : World) (m : Z * Z) : Prop :=
  exists l, issued w w' l /\ hd_error (rev l) = Some m.

(** The last actuator command between [w] and [w'] is [Motor(Stop, 0)]. *)
Definition stop_issued (w w' : World) : Prop :=
  exists l, issued w w' ((Stop, 0) :: l).

(** [Motor] takes its stopping branch. *)
Definition stopcase (Dir Speed : Z) : bool := (Speed <=? 0) || (Dir =? Stop).

(** Effect of [shouldStopNow()] when the flag is set. *)
Definition stop_outcome (w w' : World) : Prop :=
  stopReq w' = true /\ clock w' = clock w /\ stopped w' /\
  same_sensor w w' /\ issued w w' [(Stop, 0)].

(** Effect of [Motor(Dir, Speed)]. *)
Definition motor_outcome (Dir Speed : Z) (w w' : World) : Prop :=
  same_time w w' /\ same_sensor w w' /\ issued w w' [(Dir, Speed)] /\
  (stopcase Dir Speed = true -> stopped w').

(** Effect of a statement that only writes to the serial port. *)
Definition quiet_outcome (w w' : World) : Prop :=
  same_time w w' /\ updates w' = updates w /\ angleZ w' = angleZ w /\
  same_pins w w' /\ issued w w' [].

(** [millis() - t0] as the sketch computes it in world [w]. *)
Definition elapsed (t0 : Z) (w : World) : Z :=
  (clock w mod ULONG - t0) mod ULONG.

(** The error of heading [z] against [target], as [Rotate] computes it
    with [nf] units of fuel for [norm180]. *)
Definition error_of (nf : nat) (target z : Q) : option Q :=
  norm180 nf (fsub target z).

(** [norm180] returns that error, and it is within [ANGLE_TOL]. *)
Definition in_tolerance (nf : nat) (target z : Q) : bool :=
  match error_of nf target z with
  | Some err => Qle_bool (Qabs err) ANGLE_TOL
  | None => false
  end.

(** What holds when [Rotate], entered in world [w0] with clock reading
    [t0] and aiming at [target], returns [b] in world [w']. *)
Definition exit_ok (nf : nat) (target : Q) (t0 : Z) (w0 : World) (b : bool)
    (w' : World) : Prop :=
  stopped w' /\ stop_issued w0 w' /\
  if b then in_tolerance nf target (angleZ w') = true /\
            elapsed t0 w' <= TIMEOUT_MS
  else stopReq w' = true \/ TIMEOUT_MS < elapsed t0 w'.

(** What a pass through the micro zone leaves behind, as far as the exits
    of [Rotate] are concerned. *)
Definition micro_post (w : World) (r : option bool) (w' : World) : Prop :=
  match r with
  | Some b => b = false /\ stopReq w' = true /\ stopped w' /\ stop_issued w w'
  | None => exists l, issued w w' l
  end.

(** Every [return] inside the loop body is one of the three exits, and the
    motors have been stopped on the way out. *)
Definition body_post (nf : nat) (target : Q) (t0 : Z) (w : World) (r : Flow)
    (w' : World) : Prop :=
  match r with
  | Return b => exit_ok nf target t0 w b w'
  | Continue _ _ _ => exists l, issued w w' l
  end.

(** Partial correctness: if the computation returns, the result and the
    world satisfy [Q]. *)
Definition wp {A} (c : M A) (Q : A -> World -> Prop) (w : World) : Prop :=
  forall a w', c w = Some (a, w') -> Q a w'.

(** Fuel that is enough for [Rotate] whenever a sensor refresh takes at
    least 1 ms: the timeout stops the loop after at most 9000 passes. *)
Definition enough_fuel : nat := Z.to_nat 9002.

(** The reading [z] shows an error whose sign differs from [sign0] and
    whose magnitude exceeds [OVERSHOOT_DEG]. *)
Definition flipped (nf : nat) (target : Q) (sign0 : Z) (z : Q) : bool :=
  match error_of nf target z with
  | Some err =>
      negb (sign_of err =? sign0) && Qltb OVERSHOOT_DEG (Qabs err)
  | None => false
  end.

(** Every command of the list turns the robot with [cmdOpp] or is
    [Motor(Stop, 0)]. *)
Definition forced (cmdOpp : Z) (l : list (Z * Z)) : Prop :=
  Forall (fun m => fst m = cmdOpp \/ m = (Stop, 0)) l.

Definition latch_post (cmdOpp : Z) (w : World) (r : Flow) (w' : World) : Prop :=
  (exists l, issued w w' l /\ forced cmdOpp l) /\
  match r with
  | Return _ => True
  | Continue o' _ _ => o' = true
  end.

Section WithEnv.

Variable env : Env.

(** Effect of [mpu.update()]. *)
Definition update_outcome (w w' : World) : Prop :=
  clock w' = clock w + update_ms env /\
  stopReq w' = stopReq w || isr_fires env (clock w) (update_ms env) /\
  updates w' = S (updates w) /\
  angleZ w' = heading env (updates w) /\
  same_pins w w' /\ issued w w' [].

(** Effect of a [smartDelay(ms)] that returns [true]. *)
Definition delay_done (ms : Z) (w w' : World) : Prop :=
  same_sensor w w' /\ same_pins w w' /\ issued w w' [] /\
  clock w + ms <= clock w' <= clock w + ms + 1.

(** Effect of a [smartDelay(ms)] that returns [false]. *)
Definition delay_cut (ms : Z) (w w' : World) : Prop :=
  same_sensor w w' /\ stopReq w' = true /\ stopped w' /\
  issued w w' [(Stop, 0)] /\ clock w <= clock w' < clock w + ms.

(** The first reading of [Rotate] fixes the target and the time origin. *)
Definition rotate_target (phi : Q) (w : World) : Q :=
  fsub (heading env (updates w))
       (fmul phi (if Qltb 0 phi then K_TURN_R else K_TURN_L)).

Definition rotate_t0 (w : World) : Z :=
  (clock w + update_ms env) mod ULONG.

(** Value of the stop flag at instant [t], seen from world [w]. *)
Definition flag_at (w : World) (t : Z) : bool :=
  stopReq w || isr_fires env (clock w) (t - clock w).

(** What one call of [smartDelay] makes of world [w]. *)
Definition delay_outcome (ms : Z) (w : World) (ok : bool) (w' : World) : Prop :=
  same_sensor w w' /\
  clock w <= clock w' <= clock w + ms + 1 /\
  stopReq w' = flag_at w (clock w') /\
  (ok = false ->
     stopReq w' = true /\ stopped w' /\
     log w' = stop_entries ++ log w /\ clock w' < clock w + ms) /\
  (ok = true -> same_drive w w' /\ clock w + ms <= clock w') /\
  (ok = false <->
     exists i, 0 <= i /\ 2 * i < ms /\ flag_at w (clock w + 2 * i) = true).

(** A pass that does not return lets at least one sensor refresh go by,
    and was made before the timeout. *)
Definition time_post (t0 : Z) (w : World) (r : Flow) (w' : World) : Prop :=
  match r with
  | Return _ => True
  | Continue _ _ _ =>
      clock w + update_ms env <= clock w' <=
      clock w + 7 * update_ms env + 168 /\
      (TIMEOUT_MS <? ((clock w + update_ms env) mod ULONG - t0) mod ULONG) = false
  end.

(** What one pass does to the stability counter [c], judged by the
    reading it takes at its top (the [updates w]-th one). *)
Definition count_post (nf : nat) (target : Q) (c : Z) (w : World) (r : Flow)
    (w' : World) : Prop :=
  match r with
  | Return true =>
      in_tolerance nf target (heading env (updates w)) = true /\
      STABLE_CNT <= c + 1 /\ updates w' = S (updates w)
  | Return false => True
  | Continue o' c' d' =>
      if in_tolerance nf target (heading env (updates w))
      then c' = c + 1 /\ c' < STABLE_CNT /\ updates w' = S (updates w) /\
           stopped w'
      else c' = 0
  end.

(** The last [k] of the first [n] readings of the sensor are within
    tolerance of [target]. *)
Definition last_in_tolerance (nf : nat) (target : Q) (n k : nat) : Prop :=
  (k <= n)%nat /\
  forall i, (n - k <= i < n)%nat ->
            in_tolerance nf target (heading env i) = true.

(** [norm180] returns on the error of every reading against [target]. *)
Definition settles (nf : nat) (target : Q) : Prop :=
  forall n, error_of nf target (heading env n) <> None.

(** No reading of the sensor exceeds [2^19] degrees in magnitude. *)
Definition bounded_readings : Prop :=
  forall n, (Qabs (heading env n) <= inject_Z (2 ^ 19))%Q.

(** Once the latch is set, or at the pass whose reading sets it. *)
Definition latched (nf : nat) (target : Q) (sign0 : Z) (o : bool) (w : World)
  : Prop :=
  o = true \/ flipped nf target sign0 (heading env (updates w)) = true.

(** The variables of the loop and the world at the top of a pass. *)
Definition LoopState : Type := (bool * Z * Z * World)%type.

(** [later_pass s s']: the pass that starts in [s'] comes, in the same
    invocation, after the pass that starts in [s]. *)
Inductive later_pass (nf : nat) (target : Q) (t0 sign0 cmdMain cmdOpp : Z)
  : LoopState -> LoopState -> Prop :=
| pass_next o c d w o' c' d' w' :
    loop_body env nf target t0 sign0 cmdMain cmdOpp o c d w
      = Some (Continue o' c' d', w') ->
    later_pass nf target t0 sign0 cmdMain cmdOpp (o, c, d, w) (o', c', d', w')
| pass_trans s1 s2 s3 :
    later_pass nf target t0 sign0 cmdMain cmdOpp s1 s2 ->
    later_pass nf target t0 sign0 cmdMain cmdOpp s2 s3 ->
    later_pass nf target t0 sign0 cmdMain cmdOpp s1 s3.

End WithEnv.

End GyroSpec.

(** ** Environments and worlds used in examples *)

Module Scenario.
Import Gyro.

(** The robot just after [setup()]: motors disabled, nothing logged. *)
Definition boot : World :=
  {| clock := 0; stopReq := false; updates := 0%nat; angleZ := 0%Q;
     pwm1 := 0; pwm2 := 0; latch := Stop; en_pin := HIGH; dbg_last := 0;
     log := [] |}.

(** The same robot with the stop flag already raised. *)
Definition halted : World :=
  {| clock := 0; stopReq := true; updates := 0%nat; angleZ := 0%Q;
     pwm1 := 0; pwm2 := 0; latch := Stop; en_pin := HIGH; dbg_last := 0;
     log := [] |}.

(** A sensor that reads 0 degrees forever, a STOP button nobody presses,
    and a sensor refresh of 1 ms. *)
Definition calm : Env :=
  {| heading := fun _ => 0%Q; stop_time := None; update_ms := 1 |}.

(** As [calm], with the STOP button pressed [t] ms after boot. *)
Definition pressed_at (t : Z) : Env :=
  {| heading := fun _ => 0%Q; stop_time := Some t; update_ms := 1 |}.

(** A sensor that reads 0 degrees when [Rotate] takes its first reading
    and 50 degrees ever after. *)
Definition drifting : Env :=
  {| heading := fun n => match n with O => 0%Q | S _ => 50%Q end;
     stop_time := None; update_ms := 1 |}.

(** A turn that overshoots.  Commanded angle 90, so the target is
    -91.79999542 (the float product of 90 and 1.02 taken off 0).  The
    readings: 0 at the start and after the kick, then -50 (far zone), -100
    (8.2 degrees past the target), -95, -95 (micro zone), -93, -93 and -92
    from then on (within tolerance). *)
Definition swinging : Env :=
  {| heading := fun n =>
       nth n [0; 0; -(50); -(100); -(95); -(95); -(93); -(93)]%Q (-(92))%Q;
     stop_time := None; update_ms := 1 |}.

(** The target of [Rotate 90] entered with a reading of 0. *)
Definition target_90 : Q := Float32.fsub 0 (Float32.fmul 90 K_TURN_R).

(** The loop of [Rotate 90] in [swinging], entered at the pass that reads
    -100: initial error negative, right turn commanded. *)
Definition past_target : World :=
  {| clock := 200; stopReq := false; updates := 3%nat; angleZ := (-(50))%Q;
     pwm1 := 200; pwm2 := 200; latch := RotateRight; en_pin := LOW;
     dbg_last := 0; log := [] |}.

End Scenario.

(** ** The rest of the gyroscope robot: driving forward, the buttons *)

Module GyroMore.
Import Float32 Angle Gyro GyroSpec.
Local Open Scope rob_scope.

(** *** Interrupt handler and start button *)

(** [isrStop()]: [last] is its static variable, [flag] is [stopReq] and
    [now] what [millis()] reads when the interrupt is served.  The result
    is the new [last] and the new flag. *)
Definition isrStop (now : Z) (st : Z * bool) : Z * bool :=
  let (last, flag) := st in
  if 80 <? (now - last) mod ULONG then (now, true) else (last, flag).

(** The interrupts of a run, served in turn. *)
Definition serve (nows : list Z) (st : Z * bool) : Z * bool :=
  fold_left (fun st now => isrStop now st) nows st.

(** [runEnabled] and the static variables of [pollStartButton]; [true] is
    the level HIGH (button released), [false] is LOW (pressed). *)
Record Panel := {
  runEnabled : bool;
  stable : bool;
  lastRead : bool;
  tLast : Z
}.

(** The panel after [setup()]. *)
Definition panel0 : Panel :=
  {| runEnabled := false; stable := true; lastRead := true; tLast := 0 |}.

(** [pollStartButton()]: [r] is what [digitalRead(BTN_START)] returns and
    [now] what [millis()] reads. *)
Definition pollStartButton (r : bool) (now : Z) (p : Panel) : Panel :=
  let changed := negb (Bool.eqb r (lastRead p)) in
  let tL := if changed then now else tLast p in
  let lR := if changed then r else lastRead p in
  if 40 <? (now - tL) mod ULONG then
    if negb (Bool.eqb r (stable p)) then
      {| runEnabled := if negb r then true else runEnabled p;
         stable := r; lastRead := lR; tLast := tL |}
    else
      {| runEnabled := runEnabled p; stable := stable p;
         lastRead := lR; tLast := tL |}
  else
    {| runEnabled := runEnabled p; stable := stable p;
       lastRead := lR; tLast := tL |}.

(** The button polled at successive readings of the pin and the clock. *)
Definition polls (rs : list (bool * Z)) (p : Panel) : Panel :=
  fold_left (fun p rn => pollStartButton (fst rn) (snd rn) p) rs p.

(** [(unsigned long)x] for a float [x]: truncation towards zero (wrapped
    where the language leaves the conversion undefined). *)
Definition ulong_of_float (x : Q) : Z :=
  (Z.quot (Qnum x) (Z.pos (Qden x))) mod ULONG.

(** [stopReq = false;] *)
Definition clear_stopReq : M unit := fun w =>
  Some (tt, {| clock := clock w; stopReq := false; updates := updates w;
               angleZ := angleZ w; pwm1 := pwm1 w; pwm2 := pwm2 w;
               latch := latch w; en_pin := en_pin w; dbg_last := dbg_last w;
               log := log w |}).

Section WithEnv.

Variable env : Env.

(** The level of the START pin as a function of time. *)
Variable start_pin : Z -> bool.

(** [pollStartButton()] in the world: both calls of [millis()] read the
    same instant. *)
Definition poll_button (p : Panel) : M Panel :=
  fun w => Some (pollStartButton (start_pin (clock w)) (clock w mod ULONG) p, w).

(** The loop of [waitForStartAfterStop]. *)
Fixpoint wait_loop (fuel : nat) (p : Panel) : M Panel :=
  match fuel with
  | O => out_of_fuel
  | S f =>
      if negb (runEnabled p) then
        p' <- poll_button p ;;
        delay env 10 ;;
        wait_loop f p'
      else ret p
  end.

(** [void waitForStartAfterStop()] *)
Definition waitForStartAfterStop (fuel : nat) (p : Panel) : M Panel :=
  Motor Stop 0 ;;
  enableMotors false ;;
  emit (EvSerial "STOP: halted. Press START to run.") ;;
  clear_stopReq ;;
  let p := {| runEnabled := false; stable := stable p;
              lastRead := lastRead p; tLast := tLast p |} in
  p' <- wait_loop fuel p ;;
  emit (EvSerial "START: running.") ;;
  ret p'.

(** *** Driving forward *)

(** [debugForw(z)]; [last] is its static variable, returned updated.  The
    line printed is the label followed by the angle; only the label is
    kept in the log. *)
Definition debugForw (z : Q) (last : Z) : M Z :=
  now <- millis ;;
  if 100 <=? (now - last) mod ULONG then
    emit (EvSerial "Forw Z=") ;;
    ret now
  else ret last.

(** The warm-up pulses of [Forw], [n] of them left; [false] is a [return]
    out of [Forw]. *)
Fixpoint warm_up (n : nat) : M bool :=
  match n with
  | O => ret true
  | S n' =>
      s <- shouldStopNow ;;
      if s then ret false else
      Motor Forward 210 ;;
      ok1 <- smartDelay env 30 ;;
      if negb ok1 then ret false else
      Motor Stop 0 ;;
      ok2 <- smartDelay env 30 ;;
      if negb ok2 then ret false else
      warm_up n'
  end.

(** The [while] loop of [Forw]; [Some last] when the guard fails, [None] on
    a [return] from inside the loop. *)
Fixpoint forw_loop (fuel : nat) (start T : Z) (last : Z) : M (option Z) :=
  match fuel with
  | O => out_of_fuel
  | S f =>
      now <- millis ;;
      if (now - start) mod ULONG <? T then
        s <- shouldStopNow ;;
        if s then ret None else
        mpu_update env ;;
        z <- getAngleZ ;;
        last' <- debugForw z last ;;
        ok <- smartDelay env 10 ;;
        if negb ok then ret None else
        forw_loop f start T last'
      else ret (Some last)
  end.

(** [void Forw(float time_ms)]; [last] is the static variable of
    [debugForw], returned as the call leaves it. *)
Definition Forw (fuel : nat) (time_ms : Q) (last : Z) : M Z :=
  s <- shouldStopNow ;;
  if s then ret last else
  ok <- smartDelay env 200 ;;
  if negb ok then ret last else
  emit (EvSerial "Forward") ;;
  start <- millis ;;
  warm <- warm_up 3 ;;
  if negb warm then ret last else
  s' <- shouldStopNow ;;
  if s' then ret last else
  Motor Forward 250 ;;
  r <- forw_loop fuel start (ulong_of_float time_ms) last ;;
  match r with
  | None => ret last
  | Some last' =>
      emit (EvSerial "Forward end") ;;
      Motor Stop 0 ;;
      ret last'
  end.

(** [void detectYawSign()]; the result is [RIGHT_INCREASES_ANGLEZ], which
    the sketch prints; [fuel] is that of its call of [norm180]. *)
Definition detectYawSign (fuel : nat) : M bool :=
  mpu_update env ;;
  z0 <- getAngleZ ;;
  Motor RotateRight (Z.max MIN_ROT_PWM 160) ;;
  delay env 350 ;;
  Motor Stop 0 ;;
  delay env 150 ;;
  mpu_update env ;;
  z1 <- getAngleZ ;;
  dz <- call_norm180 fuel (fsub z1 z0) ;;
  emit (EvSerial "Yaw sign test: dz=") ;;
  ret (Qltb 0 dz).

(** *** The main loop *)

(** [{ waitForStartAfterStop(); return; }] *)
Definition halt (fW : nat) (p : Panel) (last : Z) : M (Panel * Z) :=
  p' <- waitForStartAfterStop fW p ;;
  ret (p', last).

(** The route of [loop()], [n] legs left, and the pause that follows the
    last one.  A leg is [Forw(2000)] then [Rotate(90)], the flag being
    looked at after each. *)
Fixpoint legs (fF fR fW : nat) (n : nat) (p : Panel) (last : Z)
  : M (Panel * Z) :=
  match n with
  | O =>
      ok <- smartDelay env 5000 ;;
      if negb ok then halt fW p last else ret (p, last)
  | S n' =>
      last' <- Forw fF 2000 last ;;
      s <- read_stopReq ;;
      if s then halt fW p last' else
      _ <- Rotate env fR 90 ;;
      s' <- read_stopReq ;;
      if s' then halt fW p last' else
      legs fF fR fW n' p last'
  end.

(** [void loop()]: the panel and the static variable of [debugForw] go in
    and come out; the three fuels are those of [Forw], of [Rotate] and of
    the wait for START. *)
Definition loop (fF fR fW : nat) (p : Panel) (last : Z) : M (Panel * Z) :=
  if negb (runEnabled p) then
    p' <- poll_button p ;;
    delay env 10 ;;
    ret (p', last)
  else
  s <- read_stopReq ;;
  if s then halt fW p last else
  legs fF fR fW 4 p last.

End WithEnv.

(** *** Vocabulary of the statements *)

(** The interrupt fires at [ts]: from then on the stop flag is set. *)
Definition synced (ts : Z) (w : World) : Prop :=
  ts <= clock w -> stopReq w = true.

(** Time taken by a pass of the loop of [Rotate] that starts in [w] and
    ends in [w'], with a sensor refresh of [upd] ms: a pass that goes on
    after the test of the timeout has passed that test. *)
Definition span_post (upd t0 : Z) (w w' : World) : Prop :=
  clock w <= clock w' /\
  (clock w' <= clock w + upd \/
   ((TIMEOUT_MS <? ((clock w + upd) mod ULONG - t0) mod ULONG) = false /\
    clock w' <= clock w + 7 * upd + 168)).

(** A command [Rotate] may give: a full stop, or a turn in one of the two
    senses at one of its four PWM levels. *)
Definition turn_command (m : Z * Z) : Prop :=
  m = (Stop, 0) \/
  ((fst m = RotateRight \/ fst m = RotateLeft) /\
   In (snd m) [MIN_PWM; FINE_PWM; MID_PWM; FAST_PWM]).

(** The same with the two senses left open. *)
Definition turn_with (cmdMain cmdOpp : Z) (m : Z * Z) : Prop :=
  m = (Stop, 0) \/
  ((fst m = cmdMain \/ fst m = cmdOpp) /\
   In (snd m) [MIN_PWM; FINE_PWM; MID_PWM; FAST_PWM]).

(** A command [Forw] may give. *)
Definition forward_command (m : Z * Z) : Prop :=
  m = (Stop, 0) \/ m = (Forward, 210) \/ m = (Forward, 250).

(** A command the route may give. *)
Definition route_command (m : Z * Z) : Prop :=
  forward_command m \/ turn_command m.

(** Between [w] and [w'] only commands of the route were given. *)
Definition only_route (w w' : World) : Prop :=
  exists l, issued w w' l /\ Forall route_command l.

(** For how long the START pin has kept its level, as [pollStartButton]
    would compute it in world [w]. *)
Definition level_age (p : Panel) (w : World) : Z :=
  (clock w mod ULONG - tLast p) mod ULONG.

End GyroMore.

(** ** The command engine: driver pins, polls and further vocabulary *)

Module EngineMore.
Import Engine EngineSpec.

Local Open Scope string_scope.
Local Open Scope Z_scope.

(** *** [MotorDriver] *)

(** The four inputs of the H-bridge; [true] is HIGH. *)
Record Pins := {
  LF : bool;
  LB : bool;
  RF : bool;
  RB : bool
}.

Inductive Pin := PinLF | PinLB | PinRF | PinRB.

Definition digitalWrite (p : Pin) (v : bool) (s : Pins) : Pins :=
  match p with
  | PinLF => {| LF := v; LB := LB s; RF := RF s; RB := RB s |}
  | PinLB => {| LF := LF s; LB := v; RF := RF s; RB := RB s |}
  | PinRF => {| LF := LF s; LB := LB s; RF := v; RB := RB s |}
  | PinRB => {| LF := LF s; LB := LB s; RF := RF s; RB := v |}
  end.

(** The pins after [MotorDriver::begin], which ends with [stop()]. *)
Definition all_low : Pins :=
  {| LF := false; LB := false; RF := false; RB := false |}.

(** The writes that each method of [MotorDriver] makes, in order; the
    other events do not touch the pins. *)
Definition writes (e : Event) : list (Pin * bool) :=
  match e with
  | DrvForward =>
      [(PinLF, true); (PinLB, false); (PinRF, true); (PinRB, false)]
  | DrvBackward =>
      [(PinLF, false); (PinLB, true); (PinRF, false); (PinRB, true)]
  | DrvRotateLeft =>
      [(PinLF, false); (PinLB, true); (PinRF, true); (PinRB, false)]
  | DrvRotateRight =>
      [(PinLF, true); (PinLB, false); (PinRF, false); (PinRB, true)]
  | DrvStop =>
      [(PinLF, false); (PinLB, false); (PinRF, false); (PinRB, false)]
  | _ => []
  end.

(** The states the pins go through, one per write. *)
Fixpoint trace (ws : list (Pin * bool)) (s : Pins) : list Pins :=
  match ws with
  | [] => []
  | (p, v) :: rest =>
      let s' := digitalWrite p v s in
      s' :: trace rest s'
  end.

(** The pins where a sequence of writes leaves them. *)
Definition settle (ws : list (Pin * bool)) (s : Pins) : Pins :=
  fold_left (fun s pv => digitalWrite (fst pv) (snd pv) s) ws s.

(** The states the pins go through when the events [evs], oldest first,
    are carried out from the state after [setup()]. *)
Definition play (evs : list Event) : list Pins :=
  trace (flat_map writes evs) all_low.

(** Both inputs of one side of the bridge are HIGH. *)
Definition shorted (s : Pins) : bool := (LF s && LB s) || (RF s && RB s).

Definition is_motion (e : Event) : bool :=
  match e with
  | DrvForward | DrvBackward | DrvRotateLeft | DrvRotateRight => true
  | _ => false
  end.

(** The last call to the driver in a log (newest first). *)
Fixpoint last_drv (l : list Event) : option Event :=
  match l with
  | [] => None
  | e :: l' =>
      if is_motion e then Some e
      else match e with
           | DrvStop => Some DrvStop
           | _ => last_drv l'
           end
  end.

Definition at_rest (d : option Event) : bool :=
  match d with
  | None | Some DrvStop => true
  | _ => false
  end.

(** In a log (newest first), every call that sets the robot in motion
    comes directly after a [stop()], or is the first call to the driver. *)
Fixpoint stop_between (l : list Event) : bool :=
  match l with
  | [] => true
  | e :: l' =>
      (if is_motion e then at_rest (last_drv l') else true) && stop_between l'
  end.

(** Where the last call to the driver leaves the pins: every method
    writes all four of them. *)
Definition pins_after (d : option Event) : Pins :=
  match d with
  | Some e => settle (writes e) all_low
  | None => all_low
  end.

(** The log of the runner keeps a [stop()] between two motions, and while
    the robot moves the command that moves it is current and not
    finished. *)
Definition driver_ok (r : Runner) : Prop :=
  stop_between (out r) = true /\
  (at_rest (last_drv (out r)) = false ->
   exists c, current r = Some c /\ cmd_finished c = false).

(** *** Polls *)

(** The duration a command was built with; the paint commands have
    none. *)
Definition cmd_duration (c : ICommand) : Z :=
  match c with
  | CmdForward t | CmdBackward t | CmdLeft90 t | CmdRight90 t | CmdWait t =>
      duration t
  | CmdPaintOn _ | CmdPaintOff _ => 0
  end.

Definition is_timed (c : ICommand) : bool :=
  match c with
  | CmdPaintOn _ | CmdPaintOff _ => false
  | _ => true
  end.

(** A command polled at successive clock readings; the events are
    collected newest first. *)
Fixpoint cmd_updates (nows : list Z) (c : ICommand) : ICommand * list Event :=
  match nows with
  | [] => (c, [])
  | now :: rest =>
      let (c1, e1) := cmd_update c now in
      let (c2, e2) := cmd_updates rest c1 in
      (c2, (e2 ++ e1)%list)
  end.

(** The lines echoed on the serial port in a log, newest first. *)
Fixpoint echoes (l : list Event) : list string :=
  match l with
  | [] => []
  | SerialLine s :: l' => s :: echoes l'
  | _ :: l' => echoes l'
  end.

(** The runner has read the first [k] lines of [prog], and echoed them
    in order, since its log was [out0]; it is still running, or has
    finished with every line read. *)
Definition reading (prog : list string) (out0 : list Event) (r : Runner)
  : Prop :=
  exists k evs,
    (k <= List.length prog)%nat /\
    out r = (evs ++ out0)%list /\
    rev (echoes evs) = firstn k prog /\
    file r = Some {| lines := prog; idx := k |} /\
    ((running r = true /\ finishedAll r = false) \/
     (running r = false /\ finishedAll r = true /\ k = List.length prog)).

(** Successive instants, the first one after [prev], each at least [gap]
    and less than 2^32 ms after the one before. *)
Fixpoint spaced (gap prev : Z) (ts : list Z) : Prop :=
  match ts with
  | [] => True
  | t :: rest => gap <= t - prev < ULONG /\ spaced gap t rest
  end.

(** The conversion [(unsigned long)value] is defined by the language:
    the value is finite and its truncation fits. *)
Definition in_range (value : Float) : bool :=
  match value with
  | Finite q => (Qle_bool 0 q && negb (Qle_bool (inject_Z ULONG) q))%bool
  | Infinite _ | NotANumber => false
  end.

(** The text starts, after white space and an optional sign, in
    hexadecimal notation. *)
Definition hexadecimal (s : string) : bool :=
  let (_, s1) := sign_prefix (ltrim s) in starts_nocase s1 "0x".

(** The argument of a (trimmed) line, if it has one, is one whose
    duration this model determines: text in decimal notation whose value,
    as a [float], is in the range of [unsigned long]. *)
Definition plain_argument (line : string) : bool :=
  match indexOf line " " with
  | None => true
  | Some p =>
      let a := substring_from (p + 1) line in
      (in_range (toFloat a) && negb (hexadecimal a))%bool
  end.

(** Every line of the program has a plain argument, and no command of
    the program lasts longer than [gap]. *)
Definition short_lines (gap : Z) (prog : list string) : Prop :=
  Forall (fun line =>
            plain_argument (trim line) = true /\
            match parse line with
            | Some c => cmd_duration c <= gap
            | None => True
            end) prog.

(** A string made of white space only. *)
Fixpoint all_space (s : string) : bool :=
  match s with
  | String c r => isspace c && all_space r
  | EmptyString => true
  end.

(** The decimal notation of a natural number. *)
Definition decimal (n : Z) : string :=
  DecimalString.NilEmpty.string_of_uint (N.to_uint (Z.to_N n)).

End EngineMore.

(** ** Proofs about single-precision numbers *)

Module Float32Facts.
Import Float32.
Local Open Scope Q_scope.

Lemma rne_cases (y : Q) :
  rne y = Qfloor y \/ (rne y = (Qfloor y + 1)%Z /\ inject_Z (Qfloor y) < y).
Proof.
  unfold rne.
  pose proof (Qfloor_le y) as Hf.
  pose proof (Qfloor_le (2 * y)) as Hg.
  destruct (Z.eqb_spec (Qfloor (2 * y)) (2 * Qfloor y)) as [E|E]; [left; reflexivity|].
  assert (Hlt : inject_Z (Qfloor y) < y).
  { destruct (Qlt_le_dec (inject_Z (Qfloor y)) y) as [H|H]; [exact H|].
    exfalso. apply E.
    assert (Hy : y == inject_Z (Qfloor y)) by lra.
    rewrite Hy at 1.
    assert (H2 : 2 * inject_Z (Qfloor y) == inject_Z (2 * Qfloor y)).
    { rewrite inject_Z_mult. reflexivity. }
    rewrite H2. apply Qfloor_Z. }
  destruct (Qeq_bool (2 * y) (inject_Z (Qfloor (2 * y)))).
  - destruct (Z.even (Qfloor y)); [left; reflexivity|right; split; [reflexivity|exact Hlt]].
  - right. split; [reflexivity|exact Hlt].
Qed.

Lemma rne_Z (z : Z) : rne (inject_Z z) = z.
Proof.
  destruct (rne_cases (inject_Z z)) as [H|(_ & H)].
  - rewrite H. apply Qfloor_Z.
  - rewrite Qfloor_Z in H. lra.
Qed.

Lemma rne_comp (x y : Q) : x == y -> rne x = rne y.
Proof.
  intros H. unfold rne.
  assert (H2 : 2 * x == 2 * y) by (rewrite H; reflexivity).
  rewrite (Qfloor_comp _ _ H), (Qfloor_comp _ _ H2).
  assert (Hb : Qeq_bool (2 * x) (inject_Z (Qfloor (2 * y))) =
               Qeq_bool (2 * y) (inject_Z (Qfloor (2 * y)))).
  { destruct (Qeq_bool (2 * y) (inject_Z (Qfloor (2 * y)))) eqn:E.
    - apply Qeq_bool_iff. apply Qeq_bool_iff in E. rewrite H2. exact E.
    - destruct (Qeq_bool (2 * x) (inject_Z (Qfloor (2 * y)))) eqn:E'; [|reflexivity].
      apply Qeq_bool_iff in E'. rewrite H2 in E'. apply Qeq_bool_iff in E'. congruence. }
  rewrite Hb. reflexivity.
Qed.

Lemma rne_le (y : Q) (N : Z) : y <= inject_Z N -> (rne y <= N)%Z.
Proof.
  intros H. pose proof (Qfloor_le y) as Hf.
  destruct (rne_cases y) as [E|(E & Hlt)]; rewrite E.
  - rewrite Zle_Qle. lra.
  - assert (Hs : inject_Z (Qfloor y) < inject_Z N) by lra.
    rewrite <- Zlt_Qlt in Hs. lia.
Qed.

Lemma rne_ge (y : Q) (N : Z) : inject_Z N <= y -> (N <= rne y)%Z.
Proof.
  intros H.
  assert (Hm : (N <= Qfloor y)%Z).
  { rewrite <- (Qfloor_Z N). apply Qfloor_resp_le. exact H. }
  destruct (rne_cases y) as [E|(E & _)]; rewrite E; lia.
Qed.



Lemma pow2_pos (s : Z) : (0 <= s)%Z -> (0 < 2 ^ s)%Z.
Proof. intros H. apply Z.pow_pos_nonneg; lia. Qed.

Lemma inject_pow2_pos (s : Z) : (0 <= s)%Z -> 0 < inject_Z (2 ^ s).
Proof.
  intros H. change 0 with (inject_Z 0). rewrite <- Zlt_Qlt. apply pow2_pos. exact H.
Qed.

Lemma div_exact (c s : Z) :
  (0 <= s)%Z -> inject_Z (c * 2 ^ s) / inject_Z (2 ^ s) == inject_Z c.
Proof.
  intros H. rewrite inject_Z_mult. field.
  pose proof (inject_pow2_pos s H). lra.
Qed.

Lemma round_units_comp (x y : Q) : x == y -> round_units x = round_units y.
Proof.
  intros H. unfold round_units. rewrite (Qfloor_comp _ _ H).
  destruct (Qfloor y <? 2 ^ 24)%Z; [apply rne_comp; exact H|].
  f_equal. apply rne_comp. rewrite H. reflexivity.
Qed.

Lemma round_units_fix (M s : Z) :
  (0 <= s)%Z -> (0 <= M <= 2 ^ 24)%Z ->
  round_units (inject_Z (M * 2 ^ s)) = (M * 2 ^ s)%Z.
Proof.
  intros Hs HM. unfold round_units. rewrite Qfloor_Z.
  set (Y := (M * 2 ^ s)%Z).
  destruct (Z.ltb_spec Y (2 ^ 24)) as [Hlt|Hge]; [apply rne_Z|].
  assert (HY : (0 < Y)%Z) by (pose proof (pow2_pos 24); lia).
  pose proof (Z.log2_spec Y HY) as (Hlo & Hhi).
  set (k := Z.log2 Y) in *.
  assert (Hk : (24 <= k)%Z).
  { destruct (Z.le_gt_cases 24 k) as [H|H]; [exact H|].
    assert ((2 ^ Z.succ k <= 2 ^ 24)%Z) by (apply Z.pow_le_mono_r; lia). lia. }
  assert (Hdiv : exists c, Y = (c * 2 ^ (k - 23))%Z).
  { destruct (Z.eq_dec M (2 ^ 24)) as [->|Hne].
    - assert (HYp : Y = (2 ^ (24 + s))%Z).
      { unfold Y. rewrite Z.pow_add_r by lia. reflexivity. }
      assert (Hks : k = (24 + s)%Z).
      { unfold k. rewrite HYp. apply Z.log2_pow2. lia. }
      exists (2 ^ 23)%Z. rewrite HYp, Hks.
      rewrite <- Z.pow_add_r by lia. f_equal. lia.
    - assert (Hks : (k < 24 + s)%Z).
      { destruct (Z.lt_ge_cases k (24 + s)) as [H|H]; [exact H|].
        assert ((2 ^ (24 + s) <= 2 ^ k)%Z) by (apply Z.pow_le_mono_r; lia).
        rewrite Z.pow_add_r in H0 by lia.
        assert ((M * 2 ^ s < 2 ^ 24 * 2 ^ s)%Z).
        { apply Z.mul_lt_mono_pos_r; [apply pow2_pos; lia|lia]. }
        unfold Y in *. lia. }
      exists (M * 2 ^ (s - (k - 23)))%Z. unfold Y.
      rewrite <- Z.mul_assoc, <- Z.pow_add_r by lia. do 2 f_equal. lia. }
  destruct Hdiv as (c & Hc). rewrite Hc.
  rewrite (rne_comp _ _ (div_exact c (k - 23) ltac:(lia))), rne_Z. reflexivity.
Qed.

Lemma round_units_nonneg (y : Q) : 0 <= y -> (0 <= round_units y)%Z.
Proof.
  intros H. unfold round_units.
  assert (Hn : (0 <= Qfloor y)%Z).
  { change 0%Z with (Qfloor 0). apply Qfloor_resp_le. exact H. }
  destruct (Z.ltb_spec (Qfloor y) (2 ^ 24)) as [Hlt|Hge].
  - apply rne_ge. exact H.
  - assert (Hs : (0 <= Z.log2 (Qfloor y) - 23)%Z).
    { assert (Z.log2 (2 ^ 24) <= Z.log2 (Qfloor y))%Z by (apply Z.log2_le_mono; exact Hge).
      rewrite Z.log2_pow2 in H0 by lia. lia. }
    apply Z.mul_nonneg_nonneg; [|apply Z.lt_le_incl, pow2_pos; exact Hs].
    apply rne_ge. apply Qle_shift_div_l; [apply inject_pow2_pos; exact Hs|].
    change (inject_Z 0) with 0. lra.
Qed.

Lemma round_units_le (y : Q) (K : Z) :
  0 <= y -> (0 <= K)%Z -> y <= inject_Z (2 ^ K) -> (round_units y <= 2 ^ K)%Z.
Proof.
  intros H0 HK H. unfold round_units.
  assert (Hn : (Qfloor y <= 2 ^ K)%Z).
  { rewrite <- (Qfloor_Z (2 ^ K)). apply Qfloor_resp_le. exact H. }
  destruct (Z.ltb_spec (Qfloor y) (2 ^ 24)) as [Hlt|Hge].
  - apply rne_le. exact H.
  - set (k := Z.log2 (Qfloor y)).
    assert (Hk : (24 <= k <= K)%Z).
    { split.
      - assert (Z.log2 (2 ^ 24) <= k)%Z by (apply Z.log2_le_mono; exact Hge).
        rewrite Z.log2_pow2 in H1 by lia. lia.
      - assert (k <= Z.log2 (2 ^ K))%Z by (apply Z.log2_le_mono; exact Hn).
        rewrite Z.log2_pow2 in H1 by lia. lia. }
    assert (Hr : (rne (y / inject_Z (2 ^ (k - 23))) <= 2 ^ (K - (k - 23)))%Z).
    { apply rne_le. apply Qle_shift_div_r; [apply inject_pow2_pos; lia|].
      rewrite <- inject_Z_mult, <- Z.pow_add_r by lia.
      replace (K - (k - 23) + (k - 23))%Z with K by lia. exact H. }
    replace (2 ^ K)%Z with (2 ^ (K - (k - 23)) * 2 ^ (k - 23))%Z
      by (rewrite <- Z.pow_add_r by lia; f_equal; lia).
    apply Z.mul_le_mono_nonneg_r; [apply Z.lt_le_incl, pow2_pos; lia|exact Hr].
Qed.

Lemma round_units_repr (y : Q) :
  0 <= y ->
  exists M s, (0 <= s)%Z /\ (0 <= M <= 2 ^ 24)%Z /\ round_units y = (M * 2 ^ s)%Z.
Proof.
  intros H0. unfold round_units.
  pose proof (Qlt_floor y) as Hup.
  assert (Hn : (0 <= Qfloor y)%Z).
  { change 0%Z with (Qfloor 0). apply Qfloor_resp_le. exact H0. }
  destruct (Z.ltb_spec (Qfloor y) (2 ^ 24)) as [Hlt|Hge].
  - exists (rne y), 0%Z. split; [lia|]. split; [|rewrite Z.mul_1_r; reflexivity].
    split; [apply rne_ge; exact H0|].
    apply rne_le.
    assert (inject_Z (Qfloor y + 1) <= inject_Z (2 ^ 24)) by (rewrite <- Zle_Qle; lia).
    lra.
  - set (k := Z.log2 (Qfloor y)).
    assert (HY : (0 < Qfloor y)%Z) by (pose proof (pow2_pos 24); lia).
    pose proof (Z.log2_spec _ HY) as (Hlo & Hhi). fold k in Hlo, Hhi.
    assert (Hk : (24 <= k)%Z).
    { assert (Z.log2 (2 ^ 24) <= k)%Z by (apply Z.log2_le_mono; exact Hge).
      rewrite Z.log2_pow2 in H by lia. lia. }
    exists (rne (y / inject_Z (2 ^ (k - 23)))), (k - 23)%Z.
    split; [lia|]. split; [|reflexivity]. split.
    + apply rne_ge. apply Qle_shift_div_l; [apply inject_pow2_pos; lia|].
      change (inject_Z 0) with 0. lra.
    + apply rne_le. apply Qle_shift_div_r; [apply inject_pow2_pos; lia|].
      rewrite <- inject_Z_mult, <- Z.pow_add_r by lia.
      replace (24 + (k - 23))%Z with (Z.succ k) by lia.
      assert (inject_Z (Qfloor y + 1) <= inject_Z (2 ^ Z.succ k))
        by (rewrite <- Zle_Qle; lia).
      lra.
Qed.


Lemma unit_pos : 0 < inject_Z UNIT.
Proof. apply (inject_pow2_pos 149). lia. Qed.

Lemma f32_comp (x y : Q) : x == y -> f32 x = f32 y.
Proof.
  intros H. unfold f32.
  assert (Hy : x * inject_Z UNIT == y * inject_Z UNIT) by (rewrite H; reflexivity).
  assert (Hb : Qle_bool 0 (x * inject_Z UNIT) = Qle_bool 0 (y * inject_Z UNIT)).
  { destruct (Qle_bool 0 (y * inject_Z UNIT)) eqn:E.
    - apply Qle_bool_iff. apply Qle_bool_iff in E. rewrite Hy. exact E.
    - destruct (Qle_bool 0 (x * inject_Z UNIT)) eqn:E'; [|reflexivity].
      apply Qle_bool_iff in E'. rewrite Hy in E'. apply Qle_bool_iff in E'.
      congruence. }
  rewrite Hb.
  rewrite (round_units_comp _ _ Hy).
  assert (Hn : - (x * inject_Z UNIT) == - (y * inject_Z UNIT)) by (rewrite Hy; reflexivity).
  rewrite (round_units_comp _ _ Hn). reflexivity.
Qed.

(** What [f32] computes: the sign put aside, the rounding of the number
    of units. *)
Lemma f32_pos (x : Q) :
  0 <= x -> f32 x == inject_Z (round_units (x * inject_Z UNIT)) / inject_Z UNIT.
Proof.
  intros H. unfold f32. pose proof unit_pos as HU.
  assert (Hy : 0 <= x * inject_Z UNIT) by (apply Qmult_le_0_compat; lra).
  apply Qle_bool_iff in Hy. rewrite Hy. apply Qred_correct.
Qed.

Lemma f32_neg (x : Q) :
  x <= 0 -> f32 x == - (inject_Z (round_units (- x * inject_Z UNIT)) / inject_Z UNIT).
Proof.
  intros H. unfold f32. pose proof unit_pos as HU.
  destruct (Qle_bool 0 (x * inject_Z UNIT)) eqn:E.
  - apply Qle_bool_iff in E.
    assert (Hx : x == 0).
    { destruct (Qlt_le_dec x 0) as [Hlt|Hge]; [|lra].
      assert (x * inject_Z UNIT < 0 * inject_Z UNIT)
        by (apply Qmult_lt_compat_r; assumption).
      lra. }
    rewrite Qred_correct.
    rewrite (round_units_comp (x * inject_Z UNIT) 0) by (rewrite Hx; ring).
    rewrite (round_units_comp (- x * inject_Z UNIT) 0) by (rewrite Hx; ring).
    reflexivity.
  - rewrite Qred_correct.
    rewrite (round_units_comp (- (x * inject_Z UNIT)) (- x * inject_Z UNIT))
      by ring.
    reflexivity.
Qed.

Lemma f32_opp (x : Q) : f32 (- x) == - f32 x.
Proof.
  destruct (Qlt_le_dec x 0) as [H|H].
  - rewrite (f32_pos (- x)) by lra. rewrite (f32_neg x) by lra. ring.
  - rewrite (f32_neg (- x)) by lra. rewrite (f32_pos x) by lra.
    rewrite (round_units_comp (- - x * inject_Z UNIT) (x * inject_Z UNIT))
      by ring.
    reflexivity.
Qed.

Lemma is_f32_opp (x : Q) : is_f32 x -> is_f32 (- x).
Proof.
  intros (M & s & Hs & HM & E). exists (- M)%Z, s.
  split; [exact Hs|]. split; [lia|].
  rewrite E. rewrite Z.mul_opp_l, inject_Z_opp. field.
  pose proof unit_pos. lra.
Qed.

Lemma is_f32_comp (x y : Q) : x == y -> is_f32 x -> is_f32 y.
Proof.
  intros H (M & s & Hs & HM & E). exists M, s. rewrite <- H. auto.
Qed.

Lemma f32_fix_pos (x : Q) : 0 <= x -> is_f32 x -> f32 x == x.
Proof.
  intros H0 (M & s & Hs & HM & E). pose proof unit_pos as HU.
  rewrite (f32_pos x H0).
  assert (HM0 : (0 <= M)%Z).
  { destruct (Z.le_gt_cases 0 M) as [Hge|Hlt]; [exact Hge|]. exfalso.
    assert (Hneg : inject_Z (M * 2 ^ s) < 0).
    { change 0 with (inject_Z 0). rewrite <- Zlt_Qlt.
      apply Z.mul_neg_pos; [exact Hlt|apply pow2_pos; exact Hs]. }
    assert (x * inject_Z UNIT == inject_Z (M * 2 ^ s))
      by (rewrite E; field; lra).
    assert (0 <= x * inject_Z UNIT) by (apply Qmult_le_0_compat; lra).
    lra. }
  rewrite (round_units_comp (x * inject_Z UNIT) (inject_Z (M * 2 ^ s)))
    by (rewrite E; field; lra).
  rewrite round_units_fix by lia.
  symmetry. exact E.
Qed.

(** A binary32 number is not changed by rounding. *)
Lemma f32_fix (x : Q) : is_f32 x -> f32 x == x.
Proof.
  intros H. destruct (Qlt_le_dec x 0) as [Hn|Hp].
  - assert (Hx : f32 (- x) == - x)
      by (apply f32_fix_pos; [lra|apply is_f32_opp; exact H]).
    rewrite f32_opp in Hx. lra.
  - apply f32_fix_pos; assumption.
Qed.

Lemma is_f32_units (Y : Z) :
  (exists M s, (0 <= s)%Z /\ (0 <= M <= 2 ^ 24)%Z /\ Y = (M * 2 ^ s)%Z) ->
  is_f32 (inject_Z Y / inject_Z UNIT).
Proof.
  intros (M & s & Hs & HM & ->). exists M, s.
  split; [exact Hs|]. split; [lia|reflexivity].
Qed.

(** The result of a rounding is a binary32 number. *)
Lemma f32_is_f32 (x : Q) : is_f32 (f32 x).
Proof.
  destruct (Qlt_le_dec x 0) as [Hn|Hp].
  - apply (is_f32_comp (- (inject_Z (round_units (- x * inject_Z UNIT)) / inject_Z UNIT))).
    + symmetry. apply f32_neg. lra.
    + apply is_f32_opp, is_f32_units, round_units_repr.
      pose proof unit_pos.
      assert (0 <= (- x) * inject_Z UNIT) by (apply Qmult_le_0_compat; lra).
      exact H0.
  - apply (is_f32_comp (inject_Z (round_units (x * inject_Z UNIT)) / inject_Z UNIT)).
    + symmetry. apply f32_pos. exact Hp.
    + apply is_f32_units, round_units_repr.
      pose proof unit_pos. apply Qmult_le_0_compat; lra.
Qed.

Lemma f32_le_pos (x : Q) (K : Z) :
  (0 <= K)%Z -> 0 <= x -> x <= inject_Z (2 ^ K) ->
  0 <= f32 x /\ f32 x <= inject_Z (2 ^ K).
Proof.
  intros HK H0 H. pose proof unit_pos as HU.
  rewrite (f32_pos x H0).
  assert (Hy0 : 0 <= x * inject_Z UNIT) by (apply Qmult_le_0_compat; lra).
  assert (Hy : x * inject_Z UNIT <= inject_Z (2 ^ (K + 149))).
  { rewrite Z.pow_add_r by lia. rewrite inject_Z_mult. fold UNIT.
    apply Qmult_le_compat_r; lra. }
  pose proof (round_units_nonneg _ Hy0) as Hlo.
  pose proof (round_units_le _ (K + 149) Hy0 ltac:(lia) Hy) as Hhi.
  rewrite Zle_Qle in Hlo, Hhi.
  rewrite Z.pow_add_r, inject_Z_mult in Hhi by lia. fold UNIT in Hhi.
  change (inject_Z 0) with 0 in Hlo.
  split.
  - apply Qle_shift_div_l; [exact HU|]. lra.
  - apply Qle_shift_div_r; [exact HU|]. exact Hhi.
Qed.

(** Rounding does not pass a power of two. *)
Lemma f32_abs_le (x : Q) (K : Z) :
  (0 <= K)%Z -> Qabs x <= inject_Z (2 ^ K) -> Qabs (f32 x) <= inject_Z (2 ^ K).
Proof.
  intros HK H. apply Qabs_Qle_condition in H. destruct H as (Hlo & Hhi).
  apply Qabs_Qle_condition.
  destruct (Qlt_le_dec x 0) as [Hn|Hp].
  - destruct (f32_le_pos (- x) K HK) as (H1 & H2); [lra|lra|].
    rewrite f32_opp in H1, H2. split; lra.
  - destruct (f32_le_pos x K HK Hp Hhi) as (H1 & H2).
    pose proof (inject_pow2_pos K HK). split; lra.
Qed.

Lemma is_f32_Z (n : Z) : (Z.abs n <= 2 ^ 24)%Z -> is_f32 (inject_Z n).
Proof.
  intros H. exists n, 149%Z. split; [lia|]. split; [exact H|].
  rewrite inject_Z_mult. fold UNIT. field. pose proof unit_pos. lra.
Qed.

(** Taking a full turn off a binary32 angle above 180 and up to [2^27]
    is exact. *)
Lemma is_f32_sub_360 (a : Q) :
  is_f32 a -> 180 < a -> a <= inject_Z (2 ^ 27) -> is_f32 (a - 360).
Proof.
  intros (M & s & Hs & HM & E) Hlo Hhi. pose proof unit_pos as HU.
  assert (H360 : 360 == inject_Z (45 * 2 ^ 152) / inject_Z UNIT).
  { unfold UNIT. vm_compute. reflexivity. }
  assert (HY : 180 * inject_Z UNIT < inject_Z (M * 2 ^ s)).
  { assert (a * inject_Z UNIT == inject_Z (M * 2 ^ s)) by (rewrite E; field; lra).
    rewrite <- H. apply Qmult_lt_compat_r; assumption. }
  assert (HY2 : inject_Z (M * 2 ^ s) <= inject_Z (2 ^ 27) * inject_Z UNIT).
  { assert (a * inject_Z UNIT == inject_Z (M * 2 ^ s)) by (rewrite E; field; lra).
    rewrite <- H. apply Qmult_le_compat_r; lra. }
  assert (H180 : 180 * inject_Z UNIT == inject_Z (45 * 2 ^ 151))
    by (unfold UNIT; vm_compute; reflexivity).
  rewrite H180 in HY. rewrite <- inject_Z_mult in HY2.
  rewrite <- Zlt_Qlt in HY. rewrite <- Zle_Qle in HY2.
  change (2 ^ 27 * UNIT)%Z with (2 ^ 176)%Z in HY2.
  assert (Hp : (0 < 2 ^ s)%Z) by (apply pow2_pos; exact Hs).
  assert (HMpos : (0 < M)%Z).
  { destruct (Z.lt_ge_cases 0 M) as [H|H]; [exact H|].
    assert (M * 2 ^ s <= 0)%Z by (apply Z.mul_nonpos_nonneg; lia).
    assert (0 < 45 * 2 ^ 151)%Z by reflexivity. lia. }
  destruct (Z.le_gt_cases s 152) as [Hle|Hgt].
  - exists (M - 45 * 2 ^ (152 - s))%Z, s.
    split; [exact Hs|]. split.
    + assert (Hsplit : (45 * 2 ^ 152 = 45 * 2 ^ (152 - s) * 2 ^ s)%Z).
      { rewrite <- Z.mul_assoc, <- Z.pow_add_r by lia. do 2 f_equal. lia. }
      assert (H2 : (45 * 2 ^ 151 * 2 = 45 * 2 ^ 152)%Z) by reflexivity.
      assert (Hq : (0 < 45 * 2 ^ (152 - s))%Z).
      { apply Z.mul_pos_pos; [lia|apply pow2_pos; lia]. }
      assert (Hbig : (45 * 2 ^ (152 - s) * 2 ^ s < 2 * (M * 2 ^ s))%Z) by lia.
      assert (Hm : (45 * 2 ^ (152 - s) < 2 * M)%Z) by nia.
      lia.
    + rewrite E, H360.
      rewrite Z.mul_sub_distr_r, <- Z.mul_assoc, <- Z.pow_add_r by lia.
      replace (152 - s + s)%Z with 152%Z by lia.
      unfold Z.sub at 1. rewrite inject_Z_plus, inject_Z_opp. field. lra.
  - exists (M * 2 ^ (s - 152) - 45)%Z, 152%Z.
    split; [lia|]. split.
    + assert (Hsplit : (M * 2 ^ s = M * 2 ^ (s - 152) * 2 ^ 152)%Z).
      { rewrite <- Z.mul_assoc, <- Z.pow_add_r by lia. do 2 f_equal. lia. }
      assert (Hq : (0 < M * 2 ^ (s - 152))%Z).
      { apply Z.mul_pos_pos; [lia|apply pow2_pos; lia]. }
      assert (H176 : (2 ^ 176 = 2 ^ 24 * 2 ^ 152)%Z) by reflexivity.
      assert (H152 : (0 < 2 ^ 152)%Z) by reflexivity.
      assert (Hm : (M * 2 ^ (s - 152) <= 2 ^ 24)%Z) by nia.
      assert (H151 : (45 * 2 ^ 151 * 2 = 45 * 2 ^ 152)%Z) by reflexivity.
      assert (Hm2 : (45 < 2 * (M * 2 ^ (s - 152)))%Z) by nia.
      lia.
    + rewrite E, H360.
      rewrite Z.mul_sub_distr_r, <- Z.mul_assoc, <- Z.pow_add_r by lia.
      replace (s - 152 + 152)%Z with s by lia.
      unfold Z.sub at 1. rewrite inject_Z_plus, inject_Z_opp. field. lra.
Qed.

Lemma is_f32_add_360 (a : Q) :
  is_f32 a -> a < -180 -> - inject_Z (2 ^ 27) <= a -> is_f32 (a + 360).
Proof.
  intros H Hlo Hhi.
  apply (is_f32_comp (- (- a - 360))); [ring|].
  apply is_f32_opp, is_f32_sub_360; [apply is_f32_opp; exact H|lra|lra].
Qed.

End Float32Facts.

(** ** Proofs about angles *)

Module AngleFacts.
Import Float32 Float32Facts Angle.
Local Open Scope Q_scope.

Lemma Qltb_true (x y : Q) : Qltb x y = true <-> x < y.
Proof.
  unfold Qltb. rewrite negb_true_iff.
  split; intro H.
  - apply Qnot_le_lt. intro Hle. apply Qle_bool_iff in Hle. congruence.
  - destruct (Qle_bool y x) eqn:E; [|reflexivity].
    apply Qle_bool_iff in E. exfalso. apply (Qlt_not_le _ _ H E).
Qed.

Lemma Qltb_false (x y : Q) : Qltb x y = false <-> y <= x.
Proof.
  unfold Qltb. rewrite negb_false_iff. apply Qle_bool_iff.
Qed.

Lemma inject_succ (n : nat) :
  inject_Z (Z.of_nat (S n)) == inject_Z (Z.of_nat n) + 1.
Proof.
  rewrite Nat2Z.inj_succ. unfold Z.succ. rewrite inject_Z_plus. reflexivity.
Qed.

(** The first loop on a binary32 angle of at most [2^27]: every
    subtraction is exact, so the loop takes off whole turns until the angle
    is at most 180. *)
Lemma wrap_down_spec (n : nat) :
  forall a : Q,
    is_f32 a -> a <= inject_Z (2 ^ 27) ->
    a <= 180 + 360 * inject_Z (Z.of_nat n) ->
    exists r, wrap_down (S n) a = Some r /\ is_f32 r /\ r <= 180 /\
              (a <= 180 -> r = a) /\ (180 < a -> -180 < r) /\
              exists k : Z, a - r == 360 * inject_Z k.
Proof.
  induction n as [|n IH]; intros a Hf Hb Hn.
  - assert (Hle : a <= 180) by (change (inject_Z (Z.of_nat 0)) with 0 in Hn; lra).
    cbn [wrap_down]. rewrite (proj2 (Qltb_false 180 a) Hle).
    exists a. split; [reflexivity|]. split; [exact Hf|]. split; [exact Hle|].
    split; [reflexivity|]. split; [lra|]. exists 0%Z. ring.
  - destruct (Qlt_le_dec 180 a) as [Hgt|Hle].
    + change (wrap_down (S (S n)) a)
        with (if Qltb 180 a then wrap_down (S n) (fsub a 360) else Some a).
      rewrite (proj2 (Qltb_true 180 a) Hgt).
      assert (Hs : is_f32 (a - 360)) by (apply is_f32_sub_360; assumption).
      assert (He : fsub a 360 == a - 360) by (apply f32_fix; exact Hs).
      rewrite inject_succ in Hn.
      destruct (IH (fsub a 360)) as (r & E & Hr & Hle & Hid & Hst & k & Hk).
      * apply f32_is_f32.
      * rewrite He. lra.
      * rewrite He. lra.
      * exists r. split; [exact E|]. split; [exact Hr|]. split; [exact Hle|].
        split; [lra|]. split.
        -- intros _. destruct (Qlt_le_dec 180 (fsub a 360)) as [H|H].
           ++ apply Hst. exact H.
           ++ rewrite (Hid H). rewrite He. lra.
        -- exists (k + 1)%Z. rewrite inject_Z_plus. rewrite He in Hk.
           change (inject_Z 1) with 1. lra.
    + change (wrap_down (S (S n)) a)
        with (if Qltb 180 a then wrap_down (S n) (fsub a 360) else Some a).
      rewrite (proj2 (Qltb_false 180 a) Hle).
      exists a. split; [reflexivity|]. split; [exact Hf|]. split; [exact Hle|].
      split; [reflexivity|]. split; [lra|]. exists 0%Z. ring.
Qed.

Lemma wrap_up_spec (n : nat) :
  forall a : Q,
    is_f32 a -> - inject_Z (2 ^ 27) <= a ->
    -180 - 360 * inject_Z (Z.of_nat n) <= a ->
    exists r, wrap_up (S n) a = Some r /\ is_f32 r /\ -180 <= r /\
              (-180 <= a -> r = a) /\ (a < -180 -> r < 180) /\
              exists k : Z, a - r == 360 * inject_Z k.
Proof.
  induction n as [|n IH]; intros a Hf Hb Hn.
  - assert (Hle : -180 <= a) by (change (inject_Z (Z.of_nat 0)) with 0 in Hn; lra).
    cbn [wrap_up]. rewrite (proj2 (Qltb_false a (-180)) Hle).
    exists a. split; [reflexivity|]. split; [exact Hf|]. split; [exact Hle|].
    split; [reflexivity|]. split; [lra|]. exists 0%Z. ring.
  - destruct (Qlt_le_dec a (-180)) as [Hgt|Hle].
    + change (wrap_up (S (S n)) a)
        with (if Qltb a (-180) then wrap_up (S n) (fadd a 360) else Some a).
      rewrite (proj2 (Qltb_true a (-180)) Hgt).
      assert (Hs : is_f32 (a + 360)) by (apply is_f32_add_360; assumption).
      assert (He : fadd a 360 == a + 360) by (apply f32_fix; exact Hs).
      rewrite inject_succ in Hn.
      destruct (IH (fadd a 360)) as (r & E & Hr & Hle & Hid & Hst & k & Hk).
      * apply f32_is_f32.
      * rewrite He. lra.
      * rewrite He. lra.
      * exists r. split; [exact E|]. split; [exact Hr|]. split; [exact Hle|].
        split; [lra|]. split.
        -- intros _. destruct (Qlt_le_dec (fadd a 360) (-180)) as [H|H].
           ++ apply Hst. exact H.
           ++ rewrite (Hid H). rewrite He. lra.
        -- exists (k - 1)%Z. unfold Z.sub. rewrite inject_Z_plus, inject_Z_opp.
           rewrite He in Hk. change (inject_Z 1) with 1. lra.
    + change (wrap_up (S (S n)) a)
        with (if Qltb a (-180) then wrap_up (S n) (fadd a 360) else Some a).
      rewrite (proj2 (Qltb_false a (-180)) Hle).
      exists a. split; [reflexivity|]. split; [exact Hf|]. split; [exact Hle|].
      split; [reflexivity|]. split; [lra|]. exists 0%Z. ring.
Qed.

Lemma Qabs_bounds (a b : Q) : Qabs a <= b -> - b <= a /\ a <= b.
Proof.
  intros H. pose proof (Qle_Qabs a) as H1.
  pose proof (Qle_Qabs (- a)) as H2. rewrite Qabs_opp in H2. split; lra.
Qed.

(** On a binary32 angle of magnitude at most [2^27], [norm180] returns as
    soon as its fuel covers the turns to take off, and what it returns is
    the angle brought into [[-180, 180]] by whole turns. *)
Lemma norm180_spec (n : nat) (a : Q) :
  is_f32 a -> Qabs a <= inject_Z (2 ^ 27) ->
  Qabs a <= 180 + 360 * inject_Z (Z.of_nat n) ->
  exists r, norm180 (S n) a = Some r /\ is_f32 r /\ wraps a r.
Proof.
  intros Hf Hb Hn.
  apply Qabs_bounds in Hb. apply Qabs_bounds in Hn.
  destruct Hb as (Hb1 & Hb2). destruct Hn as (Hn1 & Hn2).
  assert (Hpos : 0 <= inject_Z (Z.of_nat n)).
  { change 0 with (inject_Z 0). rewrite <- Zle_Qle. lia. }
  destruct (wrap_down_spec n a Hf Hb2 Hn2) as (r1 & E1 & Hr1 & Hle1 & Hid1 & Hst1 & k1 & Hk1).
  unfold norm180. rewrite E1.
  destruct (Qlt_le_dec 180 a) as [Hgt|Hle].
  - specialize (Hst1 Hgt).
    destruct (wrap_up_spec n r1 Hr1) as (r & E & Hr & Hge & Hid & _ & _).
    + assert (0 <= inject_Z (2 ^ 27)) by (vm_compute; discriminate). lra.
    + lra.
    + rewrite (Hid ltac:(lra)) in E. exists r1. split; [exact E|].
      split; [exact Hr1|]. unfold wraps.
      split; [lra|]. split; [exact Hle1|]. split; [exists k1; exact Hk1|].
      split; intros; lra.
  - rewrite (Hid1 Hle) in *. clear Hid1.
    destruct (wrap_up_spec n a Hf) as (r & E & Hr & Hge & Hid & Hlt & k & Hk).
    + lra.
    + lra.
    + exists r. split; [exact E|]. split; [exact Hr|]. unfold wraps.
      split; [exact Hge|].
      destruct (Qlt_le_dec a (-180)) as [Hlow|Hhigh].
      * specialize (Hlt Hlow). split; [lra|]. split; [exists k; exact Hk|].
        split; intros; lra.
      * rewrite (Hid Hhigh). split; [exact Hle|].
        split; [exists 0%Z; ring|]. split; intros; lra.
Qed.

(** An angle already in [[-180, 180]] is returned unchanged. *)
Lemma norm180_id (n : nat) (a : Q) :
  -180 <= a -> a <= 180 -> norm180 (S n) a = Some a.
Proof.
  intros Hlo Hhi. unfold norm180. cbn [wrap_down].
  rewrite (proj2 (Qltb_false 180 a) Hhi). cbn [wrap_up].
  rewrite (proj2 (Qltb_false a (-180)) Hlo). reflexivity.
Qed.

Lemma small_multiple (m : Z) (x : Q) :
  x == 360 * inject_Z m -> -360 < x -> x < 360 -> m = 0%Z.
Proof.
  intros E Hlo Hhi.
  assert (H1 : inject_Z (-1) < inject_Z m) by (change (inject_Z (-1)) with (-1); lra).
  assert (H2 : inject_Z m < inject_Z 1) by (change (inject_Z 1) with 1; lra).
  rewrite <- Zlt_Qlt in H1, H2. lia.
Qed.

Lemma step_multiple (m : Z) (x : Q) :
  x == 360 * inject_Z m -> 0 <= x -> x <= 360 -> m = 0%Z \/ m = 1%Z.
Proof.
  intros E Hlo Hhi.
  assert (H1 : inject_Z (-1) < inject_Z m) by (change (inject_Z (-1)) with (-1); lra).
  assert (H2 : inject_Z m < inject_Z 2) by (change (inject_Z 2) with 2; lra).
  rewrite <- Zlt_Qlt in H1, H2. lia.
Qed.

(** [wraps] determines its result. *)
Lemma wraps_unique (a r r' : Q) : wraps a r -> wraps a r' -> r == r'.
Proof.
  assert (Hhalf : forall r r', wraps a r -> wraps a r' -> r <= r' -> r == r').
  { intros x y (X1 & X2 & (k & Hk) & X3 & X4) (Y1 & Y2 & (m & Hm) & Y3 & Y4) Hle.
    assert (E : y - x == 360 * inject_Z (k - m)).
    { unfold Z.sub. rewrite inject_Z_plus, inject_Z_opp. lra. }
    destruct (step_multiple (k - m) (y - x) E ltac:(lra) ltac:(lra)) as [H0|H1].
    - rewrite H0 in E. change (inject_Z 0) with 0 in E. lra.
    - rewrite H1 in E. change (inject_Z 1) with 1 in E.
      assert (Hy : y == 180) by lra. assert (Hx : x == -180) by lra.
      specialize (X3 Hx). specialize (Y4 Hy). lra. }
  intros H1 H2. destruct (Qlt_le_dec r' r) as [Hlt|Hle].
  - symmetry. apply Hhalf; [exact H2|exact H1|lra].
  - apply Hhalf; assumption.
Qed.

Lemma wraps_opp (a r : Q) : wraps a r -> wraps (- a) (- r).
Proof.
  intros (H1 & H2 & (k & Hk) & H3 & H4). unfold wraps.
  split; [lra|]. split; [lra|]. split.
  - exists (- k)%Z. rewrite inject_Z_opp. lra.
  - split; intros H.
    + assert (Hr : r == 180) by lra. specialize (H4 Hr). lra.
    + assert (Hr : r == -180) by lra. specialize (H3 Hr). lra.
Qed.

Lemma wraps_comp (a b r : Q) : a == b -> wraps a r -> wraps b r.
Proof.
  intros E (H1 & H2 & (k & Hk) & H3 & H4). unfold wraps.
  split; [exact H1|]. split; [exact H2|]. split.
  - exists k. rewrite <- E. exact Hk.
  - split; intros H; rewrite <- E; auto.
Qed.

(** Beyond the range where a turn can still be taken off, the first loop
    spins: at [2^33 + 1024] the subtraction of 360 rounds back to the
    number itself. *)
Lemma wrap_down_stuck (fuel : nat) : wrap_down fuel 8589935616 = None.
Proof.
  induction fuel as [|f IH]; [reflexivity|].
  change (wrap_down (S f) 8589935616)
    with (if Qltb 180 8589935616 then wrap_down f (fsub 8589935616 360)
          else Some 8589935616).
  change (Qltb 180 8589935616) with true. cbv iota.
  replace (fsub 8589935616 360) with 8589935616 by (vm_compute; reflexivity).
  exact IH.
Qed.

Lemma fuel_covers (fuel : nat) (a : Q) :
  Qabs a <= 360 * inject_Z (Z.of_nat fuel) ->
  Qabs a <= 180 + 360 * inject_Z (Z.of_nat fuel).
Proof. intros H. lra. Qed.

(** One step beyond [2^27] the subtraction rounds: [norm180] returns 8 on
    134218096, which is 16 modulo 360. *)
Lemma norm180_beyond_range (n : nat) :
  inject_Z (2 ^ 27) <= 360 * inject_Z (Z.of_nat n) ->
  exists r, norm180 (S (S n)) 134218096 = Some r /\ r == 8 /\
            ~ exists k : Z, 134218096 - r == 360 * inject_Z k.
Proof.
  intros Hn.
  assert (Hstep : fsub 134218096 360 = inject_Z (2 ^ 27)) by (vm_compute; reflexivity).
  assert (Hf : is_f32 (inject_Z (2 ^ 27))).
  { exists (2 ^ 24)%Z, 152%Z. split; [lia|]. split; [vm_compute; discriminate|].
    vm_compute. reflexivity. }
  destruct (wrap_down_spec n (inject_Z (2 ^ 27)) Hf ltac:(lra) ltac:(lra))
    as (r & E & Hr & Hle & _ & Hst & k & Hk).
  assert (Hbig : 180 < inject_Z (2 ^ 27)) by reflexivity.
  specialize (Hst Hbig).
  assert (Hw : wraps (inject_Z (2 ^ 27)) r).
  { unfold wraps. split; [lra|]. split; [exact Hle|]. split; [exists k; exact Hk|].
    split; intros; lra. }
  assert (Hw8 : wraps (inject_Z (2 ^ 27)) 8).
  { unfold wraps. split; [lra|]. split; [lra|]. split; [exists 372827%Z; reflexivity|].
    split; intros H; [lra|reflexivity]. }
  pose proof (wraps_unique _ _ _ Hw Hw8) as H8.
  exists r. split; [|split; [exact H8|]].
  - unfold norm180.
    change (wrap_down (S (S n)) 134218096)
      with (if Qltb 180 134218096 then wrap_down (S n) (fsub 134218096 360)
            else Some 134218096).
    change (Qltb 180 134218096) with true. cbv iota. rewrite Hstep, E.
    change (wrap_up (S (S n)) r)
      with (if Qltb r (-180) then wrap_up (S n) (fadd r 360) else Some r).
    rewrite (proj2 (Qltb_false r (-180))) by lra. reflexivity.
  - intros (m & Hm). rewrite H8 in Hm.
    assert (E1 : inject_Z (134218088) == inject_Z (360 * m)).
    { rewrite inject_Z_mult. rewrite <- Hm. reflexivity. }
    rewrite inject_Z_injective in E1.
    assert (Hmod : (134218088 mod 360 = 0)%Z).
    { rewrite E1, Z.mul_comm. apply Z_mod_mult. }
    vm_compute in Hmod. discriminate Hmod.
Qed.

(** From [2^33 + 1024] on [norm180] does not return at all. *)
Lemma norm180_spins (fuel : nat) : norm180 fuel 8589935616 = None.
Proof. unfold norm180. rewrite wrap_down_stuck. reflexivity. Qed.

(** C9 (as stated, refuted): on the input -180 both guards are false and
    [norm180] returns -180, which is not strictly greater than -180: the
    result is not always in the half-open interval. *)
Lemma norm180_half_open_fails :
  norm180 1 (-180) = Some (-180) /\
  ~ (forall (fuel : nat) (a r : Q),
       norm180 fuel a = Some r ->
       -180 < r /\ r <= 180 /\ exists k : Z, a - r == 360 * inject_Z k).
Proof.
  split; [reflexivity|].
  intros H. destruct (H 1%nat (-180) (-180) eq_refl) as (Hlt & _).
  apply Qlt_irrefl in Hlt. exact Hlt.
Qed.

(** C9 (amended): for every binary32 input of magnitude at most [2^27],
    [norm180] returns (as soon as its fuel covers the whole turns of the
    input), and the value it returns is in the closed interval
    [[-180, 180]] and differs from the input by a whole number of turns of
    360 degrees. *)
Theorem norm180_closed_range (fuel : nat) (a : Q) :
  is_f32 a -> Qabs a <= inject_Z (2 ^ 27) ->
  Qabs a <= 360 * inject_Z (Z.of_nat fuel) ->
  exists r, norm180 (S fuel) a = Some r /\ -180 <= r /\ r <= 180 /\
            exists k : Z, a - r == 360 * inject_Z k.
Proof.
  intros Hf Hb Hn.
  destruct (norm180_spec fuel a Hf Hb (fuel_covers _ _ Hn))
    as (r & E & _ & Hlo & Hhi & Hk & _).
  exists r. auto.
Qed.

Lemma norm180_closed_range_witness :
  exists r, norm180 3 (-540) = Some r /\ -180 <= r /\ r <= 180.
Proof.
  destruct (norm180_closed_range 2 (-540)) as (r & E & Hlo & Hhi & _).
  - apply (is_f32_Z (-540)). vm_compute. discriminate.
  - vm_compute. discriminate.
  - vm_compute. discriminate.
  - exists r. auto.
Defined.

End AngleFacts.

(** ** Proofs about the gyroscope robot *)

Module GyroFacts.
Import Float32 Float32Facts Angle AngleFacts Gyro GyroSpec GyroMore.
Local Open Scope rob_scope.

Lemma twp_ret {A} (a : A) Q w : Q a w -> twp (ret a) Q w.
Proof. intros H. exists a, w. split; [reflexivity|exact H]. Qed.

Lemma twp_bind {A B} (c : M A) (k : A -> M B) Q w :
  twp c (fun a w1 => twp (k a) Q w1) w -> twp (bind c k) Q w.
Proof.
  intros (a & w1 & Hc & b & w2 & Hk & HQ).
  exists b, w2. split; [|exact HQ].
  unfold bind. rewrite Hc. exact Hk.
Qed.

Lemma twp_mono {A} (c : M A) (Q Q' : A -> World -> Prop) w :
  twp c Q w -> (forall a w', Q a w' -> Q' a w') -> twp c Q' w.
Proof.
  intros (a & w' & Hc & HQ) H. exists a, w'. split; auto.
Qed.

Lemma twp_run {A} (c : M A) Q w a w' :
  twp c Q w -> c w = Some (a, w') -> Q a w'.
Proof.
  intros (a1 & w1 & Hc & HQ) E. rewrite E in Hc.
  inversion Hc; subst. exact HQ.
Qed.

Lemma twp_wp {A} (c : M A) (Q : A -> World -> Prop) w : twp c Q w -> wp c Q w.
Proof. intros H a w' E. exact (twp_run c Q w a w' H E). Qed.

(** What holds if the computation returns, holds once it is known to
    return. *)
Lemma wp_twp {A} (c : M A) (Q : A -> World -> Prop) w :
  wp c Q w -> twp c (fun _ _ => True) w -> twp c Q w.
Proof.
  intros H (a & w' & E & _). exists a, w'. split; [exact E|]. apply H. exact E.
Qed.

Lemma wp_ret {A} (a : A) (Q : A -> World -> Prop) w : Q a w -> wp (ret a) Q w.
Proof. intros H b w' E. inversion E; subst. exact H. Qed.

Lemma wp_bind {A B} (c : M A) (k : A -> M B) (Q : B -> World -> Prop) w :
  wp c (fun a w1 => wp (k a) Q w1) w -> wp (bind c k) Q w.
Proof.
  intros H b w' E. unfold bind in E.
  destruct (c w) as [[a w1]|] eqn:Ec; [|discriminate].
  exact (H a w1 Ec b w' E).
Qed.

Lemma wp_bind_twp {A B} (c : M A) (k : A -> M B) (Q : B -> World -> Prop) w :
  twp c (fun a w1 => wp (k a) Q w1) w -> wp (bind c k) Q w.
Proof. intros H. apply wp_bind, twp_wp, H. Qed.

Lemma wp_mono {A} (c : M A) (Q Q' : A -> World -> Prop) w :
  wp c Q w -> (forall a w', Q a w' -> Q' a w') -> wp c Q' w.
Proof. intros H HQ a w' E. apply HQ, H, E. Qed.

(** A call of [norm180] changes nothing in the world; it returns what
    [norm180] returns, if it returns. *)
Lemma wp_call_norm180 (nf : nat) (a : Q) (P : Q -> World -> Prop) (w : World) :
  (forall r, norm180 nf a = Some r -> P r w) -> wp (call_norm180 nf a) P w.
Proof.
  intros H r w' E. unfold call_norm180 in E.
  destruct (norm180 nf a) as [r0|] eqn:En; [|discriminate].
  inversion E; subst. apply H. reflexivity.
Qed.

Lemma twp_call_norm180 (nf : nat) (a : Q) (P : Q -> World -> Prop) (w : World) :
  norm180 nf a <> None ->
  (forall r, norm180 nf a = Some r -> P r w) -> twp (call_norm180 nf a) P w.
Proof.
  intros Hd H. unfold twp, call_norm180.
  destruct (norm180 nf a) as [r|] eqn:En; [|congruence].
  exists r, w. split; [reflexivity|]. apply H. reflexivity.
Qed.

Section WithEnv.

Variable env : Env.

Lemma isr_fires_split (t d1 d2 : Z) :
  0 <= d1 -> 0 <= d2 ->
  isr_fires env t (d1 + d2) =
  isr_fires env t d1 || isr_fires env (t + d1) d2.
Proof.
  intros H1 H2. unfold isr_fires. destruct (stop_time env) as [ts|]; [|reflexivity].
  destruct (Z.ltb_spec t ts), (Z.leb_spec ts (t + (d1 + d2))),
    (Z.leb_spec ts (t + d1)), (Z.ltb_spec (t + d1) ts),
    (Z.leb_spec ts (t + d1 + d2)); simpl; try reflexivity; lia.
Qed.

Lemma isr_fires_0 (t : Z) : isr_fires env t 0 = false.
Proof.
  unfold isr_fires. destruct (stop_time env) as [ts|]; [|reflexivity].
  destruct (Z.ltb_spec t ts), (Z.leb_spec ts (t + 0)); simpl; try reflexivity; lia.
Qed.

Lemma isr_fires_mono (t d1 d2 : Z) :
  d1 <= d2 -> isr_fires env t d1 = true -> isr_fires env t d2 = true.
Proof.
  unfold isr_fires. destruct (stop_time env) as [ts|]; [|discriminate].
  intros Hd H. apply andb_true_iff in H. destruct H as [Ha Hb].
  apply Z.ltb_lt in Ha. apply Z.leb_le in Hb.
  apply andb_true_iff. split; [apply Z.ltb_lt|apply Z.leb_le]; lia.
Qed.

Lemma shouldStopNow_set (w : World) :
  stopReq w = true ->
  exists w', shouldStopNow w = Some (true, w') /\
    stopReq w' = true /\ clock w' = clock w /\ stopped w' /\
    same_sensor w w' /\ log w' = stop_entries ++ log w.
Proof.
  intros H. unfold shouldStopNow, bind, read_stopReq. rewrite H.
  eexists. split; [reflexivity|]. cbn. rewrite H.
  unfold stopped, same_sensor. cbn. auto 10.
Qed.

Lemma shouldStopNow_clear (w : World) :
  stopReq w = false -> shouldStopNow w = Some (false, w).
Proof.
  intros H. unfold shouldStopNow, bind, read_stopReq. rewrite H. reflexivity.
Qed.

Lemma wrapped_elapsed (c0 c : Z) :
  0 <= c - c0 < ULONG ->
  (c mod ULONG - c0 mod ULONG) mod ULONG = c - c0.
Proof.
  intros H. rewrite <- Zminus_mod. apply Z.mod_small. exact H.
Qed.

Lemma smartDelay_loop_spec (ms : Z) (w0 : World) :
  0 <= ms <= ULONG - 2 ->
  forall (fuel : nat) (w : World) (i : Z),
    0 <= i -> clock w = clock w0 + 2 * i -> 2 * i <= ms + 1 ->
    (ms + 1) / 2 - i < Z.of_nat fuel ->
    same_sensor w0 w -> same_drive w0 w ->
    stopReq w = flag_at env w0 (clock w) ->
    (forall j, 0 <= j < i -> flag_at env w0 (clock w0 + 2 * j) = false) ->
    exists ok w',
      smartDelay_loop env fuel (clock w0 mod ULONG) ms w = Some (ok, w') /\
      delay_outcome env ms w0 ok w'.
Proof.
  intros Hms. induction fuel as [|f IH]; intros w i Hi Hclk Hle Hfuel Hs Hd Hflag Hprev.
  - exfalso. assert (0 <= (ms + 1) / 2 - i); [|lia].
    assert (i <= (ms + 1) / 2); [|lia].
    apply Z.div_le_lower_bound; lia.
  - assert (HU : ULONG = 4294967296) by reflexivity.
    cbn [smartDelay_loop]. unfold bind at 1. unfold millis at 1.
    rewrite wrapped_elapsed by lia.
    replace (clock w - clock w0) with (2 * i) by lia.
    destruct (Z.ltb_spec (2 * i) ms) as [Hlt|Hge].
    + unfold bind at 1. destruct (stopReq w) eqn:Es.
      * destruct (shouldStopNow_set w Es) as (w' & E & Hs' & Hc' & Hst & Hss & Hlog).
        rewrite E. exists false, w'. split; [reflexivity|].
        unfold delay_outcome, same_sensor, same_drive in *.
        split; [intuition congruence|].
        split; [lia|].
        split; [rewrite Hs', Hc'; exact Hflag|].
        split.
        { intros _. split; [exact Hs'|]. split; [exact Hst|].
          split; [|lia]. rewrite Hlog.
          destruct Hd as (_ & _ & _ & _ & ->). reflexivity. }
        split; [discriminate|].
        split; [|reflexivity].
        intros _. exists i. split; [lia|]. split; [lia|].
        rewrite <- Hclk. symmetry. exact Hflag.
      * rewrite (shouldStopNow_clear w Es).
        unfold delay, elapse. unfold bind at 1.
        match goal with |- context [smartDelay_loop env f _ ms ?w1] =>
          set (w1' := w1) end.
        destruct (IH w1' (i + 1)) as (ok & w' & E & Hout).
        -- lia.
        -- subst w1'. cbn [clock]. lia.
        -- lia.
        -- lia.
        -- subst w1'. unfold same_sensor in *. cbn [updates angleZ dbg_last].
           exact Hs.
        -- subst w1'. unfold same_drive in *.
           cbn [pwm1 pwm2 latch en_pin log]. exact Hd.
        -- subst w1'. cbn [stopReq clock]. rewrite Es. unfold flag_at in *.
           replace (clock w + 2 - clock w0) with ((clock w - clock w0) + 2) by lia.
           rewrite isr_fires_split by lia.
           rewrite orb_assoc, <- Hflag. cbn [orb].
           f_equal. lia.
        -- intros j Hj. destruct (Z.eq_dec j i) as [->|Hne].
           ++ rewrite <- Hclk. symmetry. exact Hflag.
           ++ apply Hprev. lia.
        -- exists ok, w'. split; [exact E|exact Hout].
    + unfold ret. exists true, w. split; [reflexivity|].
      unfold delay_outcome.
      split; [exact Hs|]. split; [lia|]. split; [exact Hflag|].
      split; [discriminate|]. split; [intros _; split; [exact Hd|lia]|].
      split; [discriminate|].
      intros (j & Hj0 & Hj1 & Hj2). rewrite Hprev in Hj2 by lia. discriminate.
Qed.

Lemma flag_at_now (w : World) : flag_at env w (clock w) = stopReq w.
Proof.
  unfold flag_at. rewrite Z.sub_diag, isr_fires_0. apply orb_false_r.
Qed.

Lemma slices_enough (ms : Z) : 0 <= ms -> (ms + 1) / 2 - 0 < Z.of_nat (slices ms).
Proof.
  intros H. unfold slices. rewrite Nat2Z.inj_succ, Z2Nat.id.
  - lia.
  - apply Z.div_pos; lia.
Qed.

(** [smartDelay] returns for every duration below [ULONG - 1]. *)
Lemma smartDelay_spec (ms : Z) (w : World) :
  0 <= ms <= ULONG - 2 ->
  exists ok w', smartDelay env ms w = Some (ok, w') /\ delay_outcome env ms w ok w'.
Proof.
  intros Hms. unfold smartDelay, smartDelay_fuel, bind. unfold millis at 1.
  apply (smartDelay_loop_spec ms w Hms (slices ms) w 0).
  - lia.
  - lia.
  - lia.
  - apply slices_enough. lia.
  - unfold same_sensor. auto.
  - unfold same_drive. auto 6.
  - symmetry. apply flag_at_now.
  - intros j Hj. lia.
Qed.

(** *** Rules for stepping through a computation *)

Lemma issued_refl (w : World) : issued w w [].
Proof. exists []. split; reflexivity. Qed.

Lemma motors_app (l1 l2 : list Event) : motors (l1 ++ l2) = motors l1 ++ motors l2.
Proof.
  induction l1 as [|e l1 IH]; [reflexivity|].
  destruct e; cbn; rewrite IH; reflexivity.
Qed.

Lemma issued_trans (a b c : World) (l1 l2 : list (Z * Z)) :
  issued a b l1 -> issued b c l2 -> issued a c (l2 ++ l1).
Proof.
  intros (p1 & E1 & M1) (p2 & E2 & M2). exists (p2 ++ p1). split.
  - rewrite E2, E1. apply app_assoc.
  - rewrite motors_app, M1, M2. reflexivity.
Qed.

Lemma twp_shouldStopNow (Q : bool -> World -> Prop) (w : World) :
  (stopReq w = true -> forall w', stop_outcome w w' -> Q true w') ->
  (stopReq w = false -> Q false w) ->
  twp shouldStopNow Q w.
Proof.
  intros Hset Hclr. destruct (stopReq w) eqn:E.
  - destruct (shouldStopNow_set w E) as (w' & Er & H1 & H2 & H3 & H4 & H5).
    exists true, w'. split; [exact Er|]. apply Hset; [reflexivity|].
    unfold stop_outcome. repeat (split; [assumption|]).
    exists stop_entries. split; [exact H5|reflexivity].
  - exists false, w. split; [apply shouldStopNow_clear; exact E|].
    apply Hclr. reflexivity.
Qed.

Lemma twp_mpu_update (Q : unit -> World -> Prop) (w : World) :
  (forall w', update_outcome env w w' -> Q tt w') ->
  twp (mpu_update env) Q w.
Proof.
  intros H. eexists tt, _. split; [reflexivity|]. apply H.
  unfold update_outcome, same_pins. cbn. repeat split.
  exists []. split; reflexivity.
Qed.

Lemma twp_getAngleZ (Q : Q -> World -> Prop) (w : World) :
  Q (angleZ w) w -> twp getAngleZ Q w.
Proof. intros H. exists (angleZ w), w. split; [reflexivity|exact H]. Qed.

Lemma twp_millis (Q : Z -> World -> Prop) (w : World) :
  Q (clock w mod ULONG) w -> twp millis Q w.
Proof. intros H. exists (clock w mod ULONG), w. split; [reflexivity|exact H]. Qed.

Lemma twp_Motor (Dir Speed : Z) (Q : unit -> World -> Prop) (w : World) :
  (forall w', motor_outcome Dir Speed w w' -> Q tt w') ->
  twp (Motor Dir Speed) Q w.
Proof.
  intros H. unfold Motor, bind, emit.
  fold (stopcase Dir Speed).
  destruct (stopcase Dir Speed) eqn:E.
  - eexists tt, _. split; [reflexivity|]. apply H.
    unfold motor_outcome, same_time, same_sensor, stopped. cbn.
    repeat split.
    exists [EvEnable false; EvMotor Dir Speed]. split; reflexivity.
  - eexists tt, _. split; [reflexivity|]. apply H.
    unfold motor_outcome, same_time, same_sensor, stopped. cbn.
    repeat split; try congruence.
    exists [EvEnable true; EvMotor Dir Speed]. split; reflexivity.
Qed.

Lemma twp_debugRotate (z t e : Q) (sp cmd : Z)
    (Q : unit -> World -> Prop) (w : World) :
  (forall w', quiet_outcome w w' -> Q tt w') ->
  twp (debugRotate z t e sp cmd) Q w.
Proof.
  intros H. unfold twp, debugRotate, bind, millis. cbv beta.
  destruct (50 <=? (clock w mod ULONG - dbg_last w) mod ULONG).
  - eexists tt, _. split; [reflexivity|]. apply H.
    unfold quiet_outcome, same_time, same_pins. cbn. repeat split.
    exists [EvDebugRotate z t e sp cmd]. split; reflexivity.
  - exists tt, w. split; [reflexivity|]. apply H.
    unfold quiet_outcome, same_time, same_pins. repeat split.
    apply issued_refl.
Qed.

Lemma twp_println (msg : string) (Q : unit -> World -> Prop) (w : World) :
  (forall w', quiet_outcome w w' -> Q tt w') ->
  twp (emit (EvSerial msg)) Q w.
Proof.
  intros H. eexists tt, _. split; [reflexivity|]. apply H.
  unfold quiet_outcome, same_time, same_pins. cbn. repeat split.
  exists [EvSerial msg]. split; reflexivity.
Qed.

Lemma twp_smartDelay (ms : Z) (Q : bool -> World -> Prop) (w : World) :
  0 <= ms <= ULONG - 2 ->
  (forall w', delay_done ms w w' -> Q true w') ->
  (forall w', delay_cut ms w w' -> Q false w') ->
  twp (smartDelay env ms) Q w.
Proof.
  intros Hms Hdone Hcut.
  destruct (smartDelay_spec ms w Hms)
    as (ok & w' & E & Hs & Hc & _ & Hf & Ht & _).
  exists ok, w'. split; [exact E|]. destruct ok.
  - apply Hdone. destruct (Ht eq_refl) as ((D1 & D2 & D3 & D4 & D5) & Hclk).
    unfold delay_done, same_pins. repeat (split; try assumption; try lia).
    exists []. split; [exact D5|reflexivity].
  - apply Hcut. destruct (Hf eq_refl) as (F1 & F2 & F3 & F4).
    unfold delay_cut. repeat (split; try assumption; try lia).
    exists stop_entries. split; [exact F3|reflexivity].
Qed.

Lemma twp_wait_or_abort (ms : Z) (k : M Flow)
    (Q : Flow -> World -> Prop) (w : World) :
  0 <= ms <= ULONG - 2 ->
  (forall w', delay_done ms w w' -> twp k Q w') ->
  (forall w', delay_cut ms w w' -> Q (Return false) w') ->
  twp (wait_or_abort env ms k) Q w.
Proof.
  intros Hms Hdone Hcut. unfold wait_or_abort. apply twp_bind.
  apply twp_smartDelay; [exact Hms| |].
  - intros w' H. apply Hdone. exact H.
  - intros w' H. apply twp_ret. apply Hcut. exact H.
Qed.

Lemma wp_wait_or_abort (ms : Z) (k : M Flow)
    (Q : Flow -> World -> Prop) (w : World) :
  0 <= ms <= ULONG - 2 ->
  (forall w', delay_done ms w w' -> wp k Q w') ->
  (forall w', delay_cut ms w w' -> Q (Return false) w') ->
  wp (wait_or_abort env ms k) Q w.
Proof.
  intros Hms Hdone Hcut. unfold wait_or_abort. apply wp_bind_twp.
  apply twp_smartDelay; [exact Hms| |].
  - intros w' H. apply Hdone. exact H.
  - intros w' H. apply wp_ret. apply Hcut. exact H.
Qed.

(** *** Symbolic execution *)

Ltac small_ms := vm_compute; split; discriminate.

Ltac twp_step :=
  lazymatch goal with
  | |- twp (bind _ _) _ _ => apply twp_bind
  | |- twp (ret _) _ _ => apply twp_ret
  | |- twp shouldStopNow _ _ =>
      apply twp_shouldStopNow; [intros ? ? ? | intros ?]
  | |- twp (mpu_update _) _ _ => apply twp_mpu_update; intros ? ?
  | |- twp getAngleZ _ _ => apply twp_getAngleZ
  | |- twp millis _ _ => apply twp_millis
  | |- twp (Motor _ _) _ _ => apply twp_Motor; intros ? ?
  | |- twp (debugRotate _ _ _ _ _) _ _ => apply twp_debugRotate; intros ? ?
  | |- twp (emit (EvSerial _)) _ _ => apply twp_println; intros ? ?
  | |- twp (smartDelay _ _) _ _ =>
      apply twp_smartDelay; [small_ms | intros ? ? | intros ? ?]
  | |- twp (wait_or_abort _ _ _) _ _ =>
      apply twp_wait_or_abort; [small_ms | intros ? ? | intros ? ?]
  | |- twp (if ?b then _ else _) _ _ => destruct b eqn:?
  | |- twp (match ?r with _ => _ end) _ _ => destruct r eqn:?
  end; cbv beta zeta; cbn [negb].

(** The statements that always return. *)
Ltac is_prim c :=
  lazymatch c with
  | shouldStopNow => idtac
  | mpu_update _ => idtac
  | getAngleZ => idtac
  | millis => idtac
  | Motor _ _ => idtac
  | debugRotate _ _ _ _ _ => idtac
  | emit _ => idtac
  | smartDelay _ _ => idtac
  end.

(** The same for a computation that may not return: a call of [norm180]
    hands over the value returned, if any. *)
Ltac wp_step :=
  lazymatch goal with
  | |- wp (bind _ _) _ _ => apply wp_bind
  | |- wp (ret _) _ _ => apply wp_ret
  | |- wp (call_norm180 _ _) _ _ =>
      let e := fresh "err" in
      let H := fresh "Herr" in
      apply wp_call_norm180; intros e H
  | |- wp (wait_or_abort _ _ _) _ _ =>
      apply wp_wait_or_abort; [small_ms | intros ? ? | intros ? ?]
  | |- wp (if ?b then _ else _) _ _ => destruct b eqn:?
  | |- wp (match ?r with _ => _ end) _ _ => destruct r eqn:?
  | |- wp ?c _ _ => is_prim c; apply twp_wp; twp_step
  end; cbv beta zeta; cbn [negb].

(** Break the facts collected on the way into atoms. *)
Ltac unpack :=
  unfold stop_outcome, motor_outcome, quiet_outcome, update_outcome,
    delay_done, delay_cut, same_time, same_sensor, same_pins in *;
  repeat match goal with
  | H : _ /\ _ |- _ => destruct H
  | H : stopcase Stop 0 = true -> _ |- _ => specialize (H eq_refl)
  | H : stopcase _ _ = true -> _ |- _ => clear H
  end.

(** Join the [issued] facts into facts from world [w0] on. *)
Ltac chain w0 :=
  repeat match goal with
  | H1 : issued w0 ?b ?l1, H2 : issued ?b ?c ?l2 |- _ =>
      lazymatch goal with
      | _ : issued w0 c _ |- _ => fail
      | _ => pose proof (issued_trans _ _ _ _ _ H1 H2)
      end
  end;
  cbn [app] in *.

Ltac solve_stopped :=
  unfold stopped in *;
  repeat match goal with H : _ /\ _ |- _ => destruct H end;
  repeat split; congruence.

Ltac solve_issued :=
  unfold stop_issued;
  first [ eexists; eassumption | eexists; apply issued_refl ].

Lemma micro_steps_exits (nf : nat) (target : Q) (cmdMain cmdOpp : Z) (o : bool) (n : nat) :
  forall w, wp (micro_steps env nf target cmdMain cmdOpp n o) (micro_post w) w.
Proof.
  induction n as [|n IH]; intros w.
  - apply wp_ret. exists []. apply issued_refl.
  - cbn [micro_steps].
    repeat wp_step; unpack; chain w;
      try (unfold micro_post; repeat split;
           solve [reflexivity | assumption | solve_stopped | solve_issued]).
    eapply wp_mono; [apply IH|].
    intros r wf Hr. unfold micro_post in *.
    destruct r as [b|].
    + destruct Hr as (Hb & Hs & Hst & l & Hi).
      split; [exact Hb|]. split; [exact Hs|]. split; [exact Hst|].
      match goal with H : issued w ?b _, Hi : issued ?b wf _ |- _ =>
        pose proof (issued_trans _ _ _ _ _ H Hi) as Hj end.
      cbn [app] in Hj. eexists. exact Hj.
    + destruct Hr as (l & Hi).
      match goal with H : issued w ?b _, Hi : issued ?b wf _ |- _ =>
        pose proof (issued_trans _ _ _ _ _ H Hi) as Hj end.
      eexists. exact Hj.
Qed.

Ltac solve_elapsed :=
  unfold elapsed;
  repeat match goal with H : clock _ = clock _ |- _ => rewrite H end;
  first [ apply Z.ltb_lt; assumption | apply Z.ltb_ge; assumption ].

Ltac solve_in_tol :=
  unfold in_tolerance, error_of;
  repeat match goal with H : angleZ _ = angleZ _ |- _ => rewrite H end;
  match goal with H : norm180 _ _ = Some _ |- _ => rewrite H end;
  assumption.

Ltac solve_exit :=
  unfold exit_ok;
  split; [solve_stopped|];
  split; [solve_issued|];
  first [ left; congruence
        | right; solve_elapsed
        | split; [solve_in_tol | solve_elapsed] ].

Lemma loop_body_exits (nf : nat) (target : Q) (t0 sign0 cmdMain cmdOpp : Z)
    (o : bool) (c d : Z) (w : World) :
  wp (loop_body env nf target t0 sign0 cmdMain cmdOpp o c d)
      (body_post nf target t0 w) w.
Proof.
  unfold loop_body.
  repeat wp_step; unpack; chain w; unfold body_post;
    try solve [solve_exit | solve_issued].
  eapply wp_mono; [apply micro_steps_exits|].
  intros r wf Hr; destruct r as [b|]; unfold micro_post in Hr.
  - destruct Hr as (-> & Hs & Hst & l & Hi).
    wp_step. chain w. unfold exit_ok.
    split; [exact Hst|]. split; [solve_issued|].
    left. exact Hs.
  - destruct Hr as (l & Hi). repeat wp_step. unpack. chain w. solve_issued.
Qed.

(** *** The loop and the whole of [Rotate] *)

Lemma exit_ok_rebase (nf : nat) (target : Q) (t0 : Z) (w w1 w' : World)
    (b : bool) (l : list (Z * Z)) :
  issued w w1 l -> exit_ok nf target t0 w1 b w' -> exit_ok nf target t0 w b w'.
Proof.
  intros Hi (Hst & (l' & Hi') & Hb).
  split; [exact Hst|]. split; [|exact Hb].
  pose proof (issued_trans _ _ _ _ _ Hi Hi') as Hj. cbn [app] in Hj.
  eexists. exact Hj.
Qed.

Lemma rotate_loop_exits (nf : nat) (target : Q) (t0 sign0 cmdMain cmdOpp : Z)
    (fuel : nat) :
  forall (o : bool) (c d : Z) (w : World),
    wp (rotate_loop env nf target t0 sign0 cmdMain cmdOpp fuel o c d)
       (exit_ok nf target t0 w) w.
Proof.
  induction fuel as [|f IH]; intros o c d w b w' E; [discriminate|].
  cbn [rotate_loop] in E. unfold bind in E.
  destruct (loop_body env nf target t0 sign0 cmdMain cmdOpp o c d w)
    as [[r w1]|] eqn:Er; [|discriminate E].
  pose proof (loop_body_exits nf target t0 sign0 cmdMain cmdOpp o c d w r w1 Er)
    as Hr.
  destruct r as [b1|o1 c1 d1]; unfold body_post in Hr.
  - inversion E; subst. exact Hr.
  - destruct Hr as (l & Hi).
    apply (exit_ok_rebase nf target t0 w w1 w' b l Hi).
    apply (IH o1 c1 d1 w1 b w' E).
Qed.

Lemma Rotate_exits (fuel : nat) (phi : Q) (w : World) :
  wp (Rotate env fuel phi)
     (exit_ok fuel (rotate_target env phi w) (rotate_t0 env w) w) w.
Proof.
  unfold Rotate.
  repeat wp_step; unpack; chain w;
    try solve [unfold exit_ok; split; [solve_stopped|];
               split; [solve_issued|]; left; congruence].
  eapply wp_mono; [apply rotate_loop_exits|].
  intros b wf Hex.
  match goal with H : issued w ?wk _ |- _ =>
    lazymatch type of Hex with exit_ok _ _ _ wk _ _ =>
      apply (exit_ok_rebase _ _ _ w wk wf b _ H) end end.
  unfold rotate_target, rotate_t0.
  repeat match goal with
  | H : angleZ _ = heading env (updates w) |- _ => rewrite <- H
  | H : clock _ = clock w + update_ms env |- _ => rewrite <- H
  end.
  exact Hex.
Qed.

(** *** Termination: the clock runs, so the timeout is reached *)

Ltac unfold_ms :=
  unfold MICRO_KICK_MS, MICRO_HOLD_MS, MICRO_PAUSE_MS,
    NEAR_KICK_MS, NEAR_HOLD_MS, NEAR_PAUSE_MS in *.

Lemma micro_steps_time (nf : nat) (target : Q) (cmdMain cmdOpp : Z) (o : bool)
    (n : nat) :
  0 <= update_ms env ->
  forall w,
    wp (micro_steps env nf target cmdMain cmdOpp n o)
       (fun _ w' =>
          clock w <= clock w' <=
          clock w + Z.of_nat n * (2 * update_ms env + 56)) w.
Proof.
  intros Hu. induction n as [|n IH]; intros w.
  - apply wp_ret. cbn. lia.
  - cbn [micro_steps]. rewrite Nat2Z.inj_succ.
    repeat wp_step; unpack; unfold_ms; try lia.
    eapply wp_mono; [apply IH|].
    cbv beta. intros _ wf Hr. lia.
Qed.

Lemma loop_body_time (nf : nat) (target : Q) (t0 sign0 cmdMain cmdOpp : Z)
    (o : bool) (c d : Z) (w : World) :
  0 <= update_ms env ->
  wp (loop_body env nf target t0 sign0 cmdMain cmdOpp o c d)
     (time_post env t0 w) w.
Proof.
  intros Hu. unfold loop_body.
  repeat wp_step; unpack; unfold_ms; unfold time_post;
    try exact I;
    try (split; [lia|];
         match goal with
         | H : clock ?w1 = clock w + update_ms env,
           E : (TIMEOUT_MS <? (clock ?w1 mod ULONG - t0) mod ULONG) = false |- _ =>
             rewrite <- H; exact E
         end).
  eapply wp_mono;
    [apply (micro_steps_time nf target cmdMain cmdOpp _ MICRO_STEPS Hu)|].
  cbv beta. intros r wf Hr. change (Z.of_nat MICRO_STEPS) with 3 in Hr.
  destruct r as [b|]; repeat wp_step; unpack; try exact I.
  split; [lia|].
  match goal with
  | H : clock ?w1 = clock w + update_ms env,
    E : (TIMEOUT_MS <? (clock ?w1 mod ULONG - t0) mod ULONG) = false |- _ =>
      rewrite <- H; exact E
  end.
Qed.

(** *** Returning: the calls of [norm180] *)

(** [norm180] returns on the error of the reading held by the driver. *)
Ltac defined_leaf :=
  unfold error_of in *;
  repeat match goal with H : angleZ _ = _ |- _ => rewrite H end;
  first [ assumption
        | match goal with Hs : settles _ _ _ |- _ => apply Hs end ].

Ltac ret_step :=
  lazymatch goal with
  | |- twp (call_norm180 _ _) _ _ =>
      let e := fresh "err" in
      let H := fresh "Herr" in
      apply twp_call_norm180; [unpack; defined_leaf | intros e H]
  | _ => twp_step
  end; cbv beta zeta; cbn [negb].

Lemma micro_steps_returns (nf : nat) (target : Q) (cmdMain cmdOpp : Z)
    (o : bool) (n : nat) :
  settles env nf target ->
  forall w,
    error_of nf target (angleZ w) <> None ->
    twp (micro_steps env nf target cmdMain cmdOpp n o)
        (fun _ w' => error_of nf target (angleZ w') <> None) w.
Proof.
  intros Hset. induction n as [|n IH]; intros w Hd.
  - apply twp_ret. exact Hd.
  - cbn [micro_steps].
    repeat ret_step; unpack; try solve [defined_leaf].
    eapply twp_mono; [apply IH; defined_leaf|].
    cbv beta. intros _ wf Hr. exact Hr.
Qed.

(** A pass of the loop returns if [norm180] returns on every reading. *)
Lemma loop_body_returns (nf : nat) (target : Q) (t0 sign0 cmdMain cmdOpp : Z)
    (o : bool) (c d : Z) (w : World) :
  settles env nf target ->
  twp (loop_body env nf target t0 sign0 cmdMain cmdOpp o c d)
      (fun _ _ => True) w.
Proof.
  intros Hset. unfold loop_body.
  repeat ret_step; unpack; try exact I.
  eapply twp_mono;
    [apply (micro_steps_returns nf target cmdMain cmdOpp _ MICRO_STEPS Hset);
     defined_leaf|].
  cbv beta. intros r wf Hr.
  destruct r as [b|]; repeat ret_step; unpack; exact I.
Qed.

Lemma rotate_loop_total (nf : nat) (target : Q) (T0 sign0 cmdMain cmdOpp : Z) :
  0 < update_ms env <= 1000 ->
  settles env nf target ->
  forall (fuel : nat) (o : bool) (c d : Z) (w : World),
    0 <= clock w - T0 <= 9000 + 6 * update_ms env + 168 ->
    0 < Z.of_nat fuel ->
    9001 - (clock w - T0) < Z.of_nat fuel ->
    exists b w',
      rotate_loop env nf target (T0 mod ULONG) sign0 cmdMain cmdOpp fuel o c d w
      = Some (b, w').
Proof.
  intros Hu Hset. induction fuel as [|f IH]; intros o c d w He Hpos Hfuel; [lia|].
  cbn [rotate_loop]. unfold bind.
  destruct (loop_body_returns nf target (T0 mod ULONG) sign0 cmdMain cmdOpp
              o c d w Hset) as (r & w1 & Er & _).
  pose proof (loop_body_time nf target (T0 mod ULONG) sign0 cmdMain cmdOpp
                o c d w ltac:(lia) r w1 Er) as Hr.
  rewrite Er. destruct r as [b|o1 c1 d1].
  - exists b, w1. reflexivity.
  - unfold time_post in Hr. destruct Hr as (Hclk & Hto).
    apply Z.ltb_ge in Hto.
    assert (HU : ULONG = 4294967296) by reflexivity.
    rewrite wrapped_elapsed in Hto by lia.
    unfold TIMEOUT_MS in Hto.
    apply IH; lia.
Qed.

Lemma Rotate_total (fuel : nat) (phi : Q) (w : World) :
  0 < update_ms env <= 1000 ->
  (enough_fuel <= fuel)%nat ->
  settles env fuel (rotate_target env phi w) ->
  exists b w', Rotate env fuel phi w = Some (b, w').
Proof.
  intros Hu Hfuel Hset.
  assert (Hf : 9002 <= Z.of_nat fuel).
  { apply Nat2Z.inj_le in Hfuel. unfold enough_fuel in Hfuel.
    rewrite Z2Nat.id in Hfuel; lia. }
  cut (twp (Rotate env fuel phi) (fun _ _ => True) w).
  { intros (b & w' & E & _). exists b, w'. exact E. }
  unfold rotate_target in Hset.
  unfold Rotate.
  repeat ret_step; unpack; try exact I.
  lazymatch goal with
  | |- twp (rotate_loop _ _ ?tg (clock ?w1 mod ULONG) ?sg ?cm ?co _ _ _ ?d) _ ?wk =>
      assert (Hu' : 0 < update_ms env <= 1000) by lia;
      destruct (rotate_loop_total fuel tg (clock w1) sg cm co Hu'
                  ltac:(defined_leaf) fuel false 0 d wk)
        as (b & wf & E)
  end.
  - lia.
  - lia.
  - lia.
  - exists b, wf. split; [exact E|exact I].
Qed.

Lemma K_TURN_bound (phi : Q) :
  (Qabs (if Qltb 0 phi then K_TURN_R else K_TURN_L) <= 2)%Q.
Proof. destruct (Qltb 0 phi); vm_compute; discriminate. Qed.

Lemma Qabs_sub_le (x y : Q) : (Qabs (x - y) <= Qabs x + Qabs y)%Q.
Proof.
  unfold Qminus. eapply Qle_trans; [apply Qabs_triangle|].
  rewrite Qabs_opp. apply Qle_refl.
Qed.

(** With the commanded angle at most [2^18] degrees and the readings at
    most [2^19] degrees in magnitude, the errors stay within [2^21]
    degrees, every subtraction of a turn is exact, and [norm180] returns
    within the fuel of [Rotate]. *)
Lemma bounded_settles (fuel : nat) (phi : Q) (w : World) :
  (Qabs phi <= inject_Z (2 ^ 18))%Q ->
  bounded_readings env ->
  (enough_fuel <= fuel)%nat ->
  settles env fuel (rotate_target env phi w).
Proof.
  intros Hphi Hb Hfuel n. unfold error_of, rotate_target.
  assert (Hf : 9002 <= Z.of_nat fuel).
  { apply Nat2Z.inj_le in Hfuel. unfold enough_fuel in Hfuel.
    rewrite Z2Nat.id in Hfuel; lia. }
  set (k := if Qltb 0 phi then K_TURN_R else K_TURN_L).
  pose proof (K_TURN_bound phi) as Hk. fold k in Hk.
  assert (H1 : (Qabs (fmul phi k) <= inject_Z (2 ^ 19))%Q).
  { apply f32_abs_le; [lia|]. rewrite Qabs_Qmult.
    change (inject_Z (2 ^ 19)) with (inject_Z (2 ^ 18) * 2)%Q.
    apply Qmult_le_compat_nonneg; split;
      [apply Qabs_nonneg|exact Hphi|apply Qabs_nonneg|exact Hk]. }
  assert (H2 : (Qabs (fsub (heading env (updates w)) (fmul phi k))
                <= inject_Z (2 ^ 20))%Q).
  { apply f32_abs_le; [lia|].
    eapply Qle_trans; [apply Qabs_sub_le|].
    change (inject_Z (2 ^ 20)) with (inject_Z (2 ^ 19) + inject_Z (2 ^ 19))%Q.
    apply Qplus_le_compat; [apply Hb|exact H1]. }
  set (target := fsub (heading env (updates w)) (fmul phi k)) in *.
  assert (H3 : (Qabs (fsub target (heading env n)) <= inject_Z (2 ^ 21))%Q).
  { apply f32_abs_le; [lia|].
    eapply Qle_trans; [apply Qabs_sub_le|].
    apply Qle_trans with (inject_Z (2 ^ 20) + inject_Z (2 ^ 19))%Q.
    - apply Qplus_le_compat; [exact H2|apply Hb].
    - vm_compute. discriminate. }
  destruct fuel as [|f]; [lia|].
  destruct (norm180_spec f (fsub target (heading env n))) as (r & E & _).
  - apply f32_is_f32.
  - eapply Qle_trans; [exact H3|]. vm_compute. discriminate.
  - eapply Qle_trans; [exact H3|].
    assert (Hq : (inject_Z 9001 <= inject_Z (Z.of_nat f))%Q).
    { rewrite <- Zle_Qle. lia. }
    assert (H21 : (inject_Z (2 ^ 21) <= 180 + 360 * inject_Z 9001)%Q)
      by (vm_compute; discriminate).
    lra.
  - rewrite E. discriminate.
Qed.

(** *** The stability counter *)

Ltac tol_fact :=
  match goal with
  | Ha : angleZ ?w1 = heading env (updates ?w),
    Hn : norm180 ?nf (fsub ?t (angleZ ?w1)) = Some ?e,
    E : Qle_bool (Qabs ?e) ANGLE_TOL = ?b |- _ =>
      let Ht := fresh "Htol" in
      assert (Ht : in_tolerance nf t (heading env (updates w)) = b)
        by (unfold in_tolerance, error_of; rewrite <- Ha, Hn; exact E);
      rewrite ?Ht
  end.

Ltac count_leaf :=
  tol_fact; unfold stopped in *;
  repeat match goal with H : _ /\ _ |- _ => destruct H end;
  repeat split;
  first [ assumption | reflexivity | congruence
        | apply Z.leb_le; assumption | apply Z.leb_gt; assumption ].

Lemma loop_body_count (nf : nat) (target : Q) (t0 sign0 cmdMain cmdOpp : Z)
    (o : bool) (c d : Z) (w : World) :
  wp (loop_body env nf target t0 sign0 cmdMain cmdOpp o c d)
     (count_post env nf target c w) w.
Proof.
  unfold loop_body.
  repeat wp_step; unpack; unfold count_post; try exact I;
    try solve [count_leaf].
  eapply wp_mono; [apply micro_steps_exits|].
  intros r wf Hr. destruct r as [b|]; repeat wp_step; unpack.
  - destruct Hr as (-> & _). exact I.
  - count_leaf.
Qed.

Lemma rotate_loop_stable (nf : nat) (target : Q) (t0 sign0 cmdMain cmdOpp : Z)
    (fuel : nat) :
  forall (o : bool) (c d : Z) (w w' : World),
    0 <= c ->
    last_in_tolerance env nf target (updates w) (Z.to_nat c) ->
    rotate_loop env nf target t0 sign0 cmdMain cmdOpp fuel o c d w
      = Some (true, w') ->
    last_in_tolerance env nf target (updates w') (Z.to_nat STABLE_CNT).
Proof.
  induction fuel as [|f IH]; intros o c d w w' Hc Hinv E; [discriminate|].
  cbn [rotate_loop] in E. unfold bind in E.
  destruct (loop_body env nf target t0 sign0 cmdMain cmdOpp o c d w)
    as [[r w1]|] eqn:Er; [|discriminate E].
  pose proof (loop_body_count nf target t0 sign0 cmdMain cmdOpp o c d w r w1 Er)
    as Hr.
  destruct Hinv as (Hk & Hall).
  destruct r as [[|]|o1 c1 d1]; unfold count_post in Hr.
  - inversion E; subst. destruct Hr as (Htol & Hcnt & Hupd).
    unfold STABLE_CNT in *. rewrite Hupd. split; [lia|].
    intros i Hi. destruct (Nat.eq_dec i (updates w)) as [->|Hne].
    + exact Htol.
    + apply Hall. lia.
  - discriminate E.
  - destruct (in_tolerance nf target (heading env (updates w))) eqn:Htol.
    + destruct Hr as (-> & Hlt & Hupd & _).
      apply (IH o1 (c + 1) d1 w1 w'); [lia| |exact E].
      rewrite Hupd. split; [lia|].
      intros i Hi. destruct (Nat.eq_dec i (updates w)) as [->|Hne].
      * exact Htol.
      * apply Hall. lia.
    + subst c1. apply (IH o1 0 d1 w1 w'); [lia| |exact E].
      split; [cbn; lia|]. intros i Hi. cbn in Hi. lia.
Qed.

Lemma Rotate_stable (fuel : nat) (phi : Q) (w : World) :
  wp (Rotate env fuel phi)
     (fun b w' =>
        b = true ->
        last_in_tolerance env fuel (rotate_target env phi w) (updates w')
          (Z.to_nat STABLE_CNT)) w.
Proof.
  unfold Rotate.
  repeat wp_step; unpack; try discriminate.
  intros b wf E ->.
  unfold rotate_target.
  match goal with
  | H : angleZ _ = heading env (updates w) |- _ => rewrite <- H
  end.
  eapply rotate_loop_stable; [| |exact E].
  - lia.
  - split; [cbn; lia|]. intros i Hi. cbn in Hi. lia.
Qed.

(** *** The overshoot latch *)

Lemma forced_app (cmdOpp : Z) (l1 l2 : list (Z * Z)) :
  forced cmdOpp l1 -> forced cmdOpp l2 -> forced cmdOpp (l1 ++ l2).
Proof. intros H1 H2. apply Forall_app. split; assumption. Qed.

Ltac forced_list :=
  unfold forced;
  repeat (apply Forall_cons; [first [left; reflexivity | right; reflexivity]|]);
  apply Forall_nil.

Ltac solve_forced :=
  eexists; split; [eassumption|]; forced_list.

Lemma micro_steps_forced (nf : nat) (target : Q) (cmdMain cmdOpp : Z) (n : nat) :
  forall w,
    wp (micro_steps env nf target cmdMain cmdOpp n true)
        (fun _ w' => exists l, issued w w' l /\ forced cmdOpp l) w.
Proof.
  induction n as [|n IH]; intros w.
  - apply wp_ret. exists []. split; [apply issued_refl|constructor].
  - cbn [micro_steps].
    repeat wp_step; unpack; chain w; try solve [solve_forced].
    eapply wp_mono; [apply IH|].
    cbv beta. intros _ wf (l & Hi & Hf).
    match goal with H : issued w ?b ?l0 |- _ =>
      lazymatch type of Hi with issued b _ _ =>
        exists (l ++ l0); split; [exact (issued_trans _ _ _ _ _ H Hi)|];
        apply forced_app; [exact Hf|]
      end
    end.
    forced_list.
Qed.

Lemma latch_value (nf : nat) (target : Q) (sign0 : Z) (o : bool)
    (w w1 : World) (err : Q) :
  latched env nf target sign0 o w ->
  angleZ w1 = heading env (updates w) ->
  norm180 nf (fsub target (angleZ w1)) = Some err ->
  (if negb o && negb (sign_of err =? sign0) && Qltb OVERSHOOT_DEG (Qabs err)
   then true else o) = true.
Proof.
  intros [->|Hf] Ha Hn.
  - cbn. reflexivity.
  - unfold flipped, error_of in Hf. rewrite <- Ha, Hn in Hf.
    apply andb_true_iff in Hf. destruct Hf as (-> & ->).
    destruct o; reflexivity.
Qed.

Lemma latched_not_in_tolerance (nf : nat) (target : Q) (sign0 : Z)
    (w w1 : World) (err : Q) :
  flipped nf target sign0 (heading env (updates w)) = true ->
  angleZ w1 = heading env (updates w) ->
  norm180 nf (fsub target (angleZ w1)) = Some err ->
  Qle_bool (Qabs err) ANGLE_TOL = true ->
  False.
Proof.
  intros Hf Ha Hn Htol. unfold flipped, error_of in Hf. rewrite <- Ha, Hn in Hf.
  apply andb_true_iff in Hf. destruct Hf as (_ & Hgt).
  apply Qltb_true in Hgt. apply Qle_bool_iff in Htol.
  unfold OVERSHOOT_DEG, ANGLE_TOL in *. lra.
Qed.

Lemma loop_body_latch (nf : nat) (target : Q) (t0 sign0 cmdMain cmdOpp : Z)
    (o : bool) (c d : Z) (w : World) :
  latched env nf target sign0 o w ->
  wp (loop_body env nf target t0 sign0 cmdMain cmdOpp o c d)
     (latch_post cmdOpp w) w.
Proof.
  intros Hl. unfold loop_body.
  repeat wp_step; unpack;
    try match goal with
        | Ha : angleZ ?w1 = heading env (updates w),
          Hn : norm180 nf (fsub target (angleZ ?w1)) = Some ?e |- _ =>
            rewrite (latch_value nf target sign0 o w w1 e Hl Ha Hn) in *
        end;
    chain w; unfold latch_post;
    try solve [ split; [solve_forced|];
                first [ exact I | reflexivity
                      | destruct Hl as [->|Hf]; [reflexivity|];
                        exfalso; eapply latched_not_in_tolerance; eassumption ] ].
  eapply wp_mono; [apply micro_steps_forced|].
  cbv beta. intros r wf (l & Hi & Hf).
  assert (Hj : exists l', issued w wf l' /\ forced cmdOpp l').
  { match goal with H : issued w ?b ?l0 |- _ =>
      lazymatch type of Hi with issued b _ _ =>
        exists (l ++ l0); split; [exact (issued_trans _ _ _ _ _ H Hi)|];
        apply forced_app; [exact Hf|forced_list]
      end
    end. }
  destruct Hj as (l' & Hi' & Hf').
  destruct r as [b|]; repeat wp_step; unpack.
  - split; [|exact I]. exists l'. split; assumption.
  - split; [|reflexivity].
    match goal with H : issued wf ?b [] |- _ =>
      exists l'; split; [exact (issued_trans _ _ _ _ _ Hi' H)|exact Hf']
    end.
Qed.

Lemma rotate_loop_latch (nf : nat) (target : Q) (t0 sign0 cmdMain cmdOpp : Z)
    (fuel : nat) :
  forall (o : bool) (c d : Z) (w : World) (b : bool) (w' : World),
    latched env nf target sign0 o w ->
    rotate_loop env nf target t0 sign0 cmdMain cmdOpp fuel o c d w
      = Some (b, w') ->
    exists l, issued w w' l /\ forced cmdOpp l.
Proof.
  induction fuel as [|f IH]; intros o c d w b w' Hl E; [discriminate|].
  cbn [rotate_loop] in E. unfold bind in E.
  destruct (loop_body env nf target t0 sign0 cmdMain cmdOpp o c d w)
    as [[r w1]|] eqn:Er; [|discriminate E].
  destruct (loop_body_latch nf target t0 sign0 cmdMain cmdOpp o c d w Hl
              r w1 Er) as ((l1 & Hi1 & Hf1) & Hr).
  destruct r as [b1|o1 c1 d1].
  - inversion E; subst. exists l1. split; assumption.
  - subst o1.
    destruct (IH true c1 d1 w1 b w' (or_introl eq_refl) E) as (l2 & Hi2 & Hf2).
    exists (l2 ++ l1). split.
    + exact (issued_trans _ _ _ _ _ Hi1 Hi2).
    + apply forced_app; assumption.
Qed.

Lemma later_pass_latched (nf : nat) (target : Q) (t0 sign0 cmdMain cmdOpp : Z)
    (s s' : LoopState) :
  later_pass env nf target t0 sign0 cmdMain cmdOpp s s' ->
  latched env nf target sign0 (fst (fst (fst s))) (snd s) ->
  fst (fst (fst s')) = true.
Proof.
  induction 1 as [o c d w o' c' d' w' E|s1 s2 s3 _ IH1 _ IH2]; intros Hl.
  - cbn [fst snd] in *.
    pose proof (loop_body_latch nf target t0 sign0 cmdMain cmdOpp o c d w Hl
                  _ _ E) as (_ & H).
    exact H.
  - apply IH2. left. apply IH1. exact Hl.
Qed.

(** *** The latch at work *)

Lemma first_command_later (a b c : World) (m : Z * Z) (l : list (Z * Z)) :
  first_command a b m -> issued b c l -> first_command a c m.
Proof.
  intros (l1 & Hi1 & Hm) Hi. exists (l ++ l1). split.
  - exact (issued_trans _ _ _ _ _ Hi1 Hi).
  - rewrite rev_app_distr. destruct (rev l1) as [|x r]; [discriminate Hm|].
    exact Hm.
Qed.

Lemma flipped_error (nf : nat) (target : Q) (sign0 : Z) (z : Q) :
  flipped nf target sign0 z = true ->
  exists e, norm180 nf (fsub target z) = Some e /\
            negb (sign_of e =? sign0) = true /\
            Qltb OVERSHOOT_DEG (Qabs e) = true.
Proof.
  unfold flipped, error_of. intros H.
  destruct (norm180 nf (fsub target z)) as [e|]; [|discriminate H].
  apply andb_true_iff in H. exists e. split; [reflexivity|exact H].
Qed.

Ltac first_leaf :=
  split;
  [ eexists; split; [eexists; split; [eassumption|reflexivity]|];
    cbn; auto
  | first [ left; reflexivity | right; split; [reflexivity|assumption] ] ].

(** A pass whose reading sets the latch, made with the flag down and
    before the timeout: its first command is a turn with [cmdOpp], and it
    goes on with the latch set unless STOP cuts one of its waits. *)
Lemma loop_body_flips (nf : nat) (target : Q) (t0 sign0 cmdMain cmdOpp : Z)
    (o : bool) (c d : Z) (w : World) :
  stopReq w = false ->
  (TIMEOUT_MS <? ((clock w + update_ms env) mod ULONG - t0) mod ULONG) = false ->
  flipped nf target sign0 (heading env (updates w)) = true ->
  twp (loop_body env nf target t0 sign0 cmdMain cmdOpp o c d)
      (fun r w' =>
         (exists p, first_command w w' (cmdOpp, p) /\
                    In p [FINE_PWM; MID_PWM; FAST_PWM]) /\
         (r = Continue true 0 cmdOpp \/
          (r = Return false /\ stopReq w' = true))) w.
Proof.
  intros Hclr Hto Hf.
  destruct (flipped_error _ _ _ _ Hf) as (e & En & Hsg & Hgt).
  assert (F1 : Qle_bool (Qabs e) ANGLE_TOL = false).
  { apply Qltb_true in Hgt. destruct (Qle_bool (Qabs e) ANGLE_TOL) eqn:E;
      [|reflexivity].
    apply Qle_bool_iff in E. unfold OVERSHOOT_DEG, ANGLE_TOL in *. lra. }
  assert (F2 : Qltb (Qabs e) 6 = false).
  { apply Qltb_true in Hgt. apply Qltb_false. unfold OVERSHOOT_DEG in Hgt. lra. }
  assert (F3 : (if negb o && negb (sign_of e =? sign0) &&
                   Qltb OVERSHOOT_DEG (Qabs e) then true else o) = true).
  { rewrite Hsg, Hgt. destruct o; reflexivity. }
  unfold loop_body.
  apply twp_bind, twp_shouldStopNow; [intros; congruence|intros _].
  apply twp_bind, twp_mpu_update. intros w1 Hu1.
  apply twp_bind, twp_getAngleZ. cbv beta.
  unpack.
  match goal with
  | Ha : angleZ w1 = heading env (updates w) |- _ => rewrite Ha
  end.
  apply twp_bind, twp_call_norm180; [rewrite En; discriminate|].
  intros e' He'. rewrite En in He'. inversion He'; subst e'. cbv beta zeta.
  apply twp_bind, twp_millis. cbv beta.
  match goal with
  | Hc : clock w1 = clock w + update_ms env |- _ => rewrite Hc, Hto
  end.
  rewrite F1, F2, F3. cbv iota.
  repeat twp_step; unpack; chain w; first_leaf.
Qed.

Lemma twp_wp_and {A} (c : M A) (Q1 Q2 : A -> World -> Prop) w :
  wp c Q1 w -> twp c Q2 w -> twp c (fun a w' => Q1 a w' /\ Q2 a w') w.
Proof.
  intros H1 (a & w' & E & H2). exists a, w'. split; [exact E|].
  split; [apply H1; exact E|exact H2].
Qed.

Ltac kick_leaf :=
  split; [eexists; split; [eassumption|reflexivity]|];
  split; [first [left; reflexivity | right; split; [reflexivity|assumption]]|];
  defined_leaf.

(** While the latch is set, a micro pulse made on a reading out of
    tolerance turns with [cmdOpp], whatever the sign of the error. *)
Lemma micro_steps_kick (nf : nat) (target : Q) (cmdMain cmdOpp : Z) (n : nat)
    (w : World) :
  settles env nf target ->
  stopReq w = false ->
  in_tolerance nf target (heading env (updates w)) = false ->
  twp (micro_steps env nf target cmdMain cmdOpp (S n) true)
      (fun r w' =>
         first_command w w' (cmdOpp, FINE_PWM) /\
         (r = None \/ (r = Some false /\ stopReq w' = true)) /\
         error_of nf target (angleZ w') <> None) w.
Proof.
  intros Hset Hclr Htol. cbn [micro_steps].
  apply twp_bind, twp_shouldStopNow; [intros; congruence|intros _].
  apply twp_bind, twp_mpu_update. intros w1 Hu1.
  apply twp_bind, twp_getAngleZ. cbv beta. unpack.
  match goal with
  | Ha : angleZ w1 = heading env (updates w) |- _ => rewrite Ha
  end.
  unfold in_tolerance, error_of in Htol.
  destruct (norm180 nf (fsub target (heading env (updates w)))) as [e|] eqn:En;
    [|exfalso; apply (Hset (updates w)); exact En].
  apply twp_bind, twp_call_norm180; [rewrite En; discriminate|].
  intros e' He'. rewrite En in He'. inversion He'; subst e'. cbv beta zeta.
  rewrite Htol.
  repeat ret_step; unpack; chain w; try solve [kick_leaf].
  eapply twp_mono;
    [apply twp_wp_and;
     [apply micro_steps_exits
     |apply (micro_steps_returns nf target cmdMain cmdOpp true n Hset);
      defined_leaf]|].
  cbv beta. intros r wf (Hpost & Hdef). unfold micro_post in Hpost.
  match goal with
  | H : issued w ?b ?l0 |- first_command w wf _ /\ _ =>
      assert (Hfirst : first_command w b (cmdOpp, FINE_PWM))
        by (exists l0; split; [exact H|reflexivity])
  end.
  destruct r as [b|].
  - destruct Hpost as (-> & Hs & _ & l & Hi).
    split; [exact (first_command_later _ _ _ _ _ Hfirst Hi)|].
    split; [right; split; [reflexivity|exact Hs]|exact Hdef].
  - destruct Hpost as (l & Hi).
    split; [exact (first_command_later _ _ _ _ _ Hfirst Hi)|].
    split; [left; reflexivity|exact Hdef].
Qed.

(** The same for a whole pass made in the micro zone with the latch set:
    its first command is [Motor(cmdOpp, FINE_PWM)]. *)
Lemma loop_body_latched_micro (nf : nat) (target : Q)
    (t0 sign0 cmdMain cmdOpp : Z) (c d : Z) (w : World) (e1 : Q) :
  settles env nf target ->
  stopReq w = false ->
  isr_fires env (clock w) (update_ms env) = false ->
  (TIMEOUT_MS <? ((clock w + update_ms env) mod ULONG - t0) mod ULONG) = false ->
  error_of nf target (heading env (updates w)) = Some e1 ->
  (ANGLE_TOL < Qabs e1)%Q -> (Qabs e1 < 6)%Q ->
  in_tolerance nf target (heading env (S (updates w))) = false ->
  twp (loop_body env nf target t0 sign0 cmdMain cmdOpp true c d)
      (fun r w' =>
         first_command w w' (cmdOpp, FINE_PWM) /\
         (r = Continue true 0 cmdOpp \/
          (r = Return false /\ stopReq w' = true))) w.
Proof.
  intros Hset Hclr Hisr Hto En Hlo Hhi Htol. unfold error_of in En.
  assert (F1 : Qle_bool (Qabs e1) ANGLE_TOL = false).
  { destruct (Qle_bool (Qabs e1) ANGLE_TOL) eqn:E; [|reflexivity].
    apply Qle_bool_iff in E. lra. }
  assert (F2 : Qltb (Qabs e1) 6 = true) by (apply Qltb_true; exact Hhi).
  assert (F3 : Qltb (Qabs e1) 10 = true) by (apply Qltb_true; lra).
  unfold loop_body.
  apply twp_bind, twp_shouldStopNow; [intros; congruence|intros _].
  apply twp_bind, twp_mpu_update. intros w1 Hu1.
  apply twp_bind, twp_getAngleZ. cbv beta.
  unpack.
  match goal with
  | Ha : angleZ w1 = heading env (updates w) |- _ => rewrite Ha
  end.
  apply twp_bind, twp_call_norm180; [rewrite En; discriminate|].
  intros e' He'. rewrite En in He'. inversion He'; subst e'. cbv beta zeta.
  apply twp_bind, twp_millis. cbv beta.
  match goal with
  | Hc : clock w1 = clock w + update_ms env |- _ => rewrite Hc, Hto
  end.
  rewrite F1, F3, F2. cbn [negb andb]. cbv iota.
  apply twp_bind.
  eapply twp_mono; [apply (micro_steps_kick nf target cmdMain cmdOpp 2 w1 Hset)|].
  - match goal with
    | Hs : stopReq w1 = _ |- _ => rewrite Hs, Hclr, Hisr; reflexivity
    end.
  - match goal with
    | Hn : updates w1 = S (updates w) |- _ => rewrite Hn; exact Htol
    end.
  - cbv beta. intros r wf (Hfirst & Hr & Hdef).
    assert (Hw1 : issued w w1 []) by assumption.
    assert (Hfw : first_command w wf (cmdOpp, FINE_PWM)).
    { destruct Hfirst as (l & Hi & Hm). exists l. split; [|exact Hm].
      pose proof (issued_trans _ _ _ _ _ Hw1 Hi) as Hj.
      rewrite app_nil_r in Hj. exact Hj. }
    destruct Hr as [->|(-> & Hs)].
    + repeat ret_step. unpack.
      split; [|left; reflexivity].
      match goal with
      | H : issued wf ?b [] |- _ => exact (first_command_later _ _ _ _ _ Hfw H)
      end.
    + apply twp_ret. split; [exact Hfw|]. right. split; [reflexivity|exact Hs].
Qed.

(** *** The stop flag and the timeout as exits *)

(** With the flag set when it is called, [Rotate] returns [false] at once:
    it stops the motors and reads no angle. *)
Lemma Rotate_stop_at_entry (fuel : nat) (phi : Q) (w : World) :
  stopReq w = true ->
  exists w', Rotate env fuel phi w = Some (false, w') /\ stop_outcome w w'.
Proof.
  intros Hs.
  cut (twp (Rotate env fuel phi) (fun b w' => b = false /\ stop_outcome w w') w).
  { intros (b & w' & E & -> & H). exists w'. split; [exact E|exact H]. }
  unfold Rotate.
  apply twp_bind, twp_shouldStopNow; [intros _ w' Hout|intros; congruence].
  apply twp_ret. split; [reflexivity|exact Hout].
Qed.

(** A pass entered with the flag set returns [false] at once. *)
Lemma loop_body_stop (nf : nat) (target : Q) (t0 sign0 cmdMain cmdOpp : Z)
    (o : bool) (c d : Z) (w : World) :
  stopReq w = true ->
  exists w',
    loop_body env nf target t0 sign0 cmdMain cmdOpp o c d w
      = Some (Return false, w') /\
    stop_outcome w w'.
Proof.
  intros Hs.
  cut (twp (loop_body env nf target t0 sign0 cmdMain cmdOpp o c d)
         (fun r w' => r = Return false /\ stop_outcome w w') w).
  { intros (r & w' & E & -> & H). exists w'. split; [exact E|exact H]. }
  unfold loop_body.
  apply twp_bind, twp_shouldStopNow; [intros _ w' Hout|intros; congruence].
  apply twp_ret. split; [reflexivity|exact Hout].
Qed.

(** A pass that finds the ceiling passed reports it, stops the motors and
    returns [false]. *)
Lemma loop_body_timeout (nf : nat) (target : Q) (t0 sign0 cmdMain cmdOpp : Z)
    (o : bool) (c d : Z) (w : World) :
  stopReq w = false ->
  error_of nf target (heading env (updates w)) <> None ->
  (TIMEOUT_MS <? ((clock w + update_ms env) mod ULONG - t0) mod ULONG) = true ->
  exists w',
    loop_body env nf target t0 sign0 cmdMain cmdOpp o c d w
      = Some (Return false, w') /\
    stopped w' /\ issued w w' [(Stop, 0)] /\
    clock w' = clock w + update_ms env.
Proof.
  intros Hclr Hdef Hto.
  cut (twp (loop_body env nf target t0 sign0 cmdMain cmdOpp o c d)
         (fun r w' => r = Return false /\ stopped w' /\
                      issued w w' [(Stop, 0)] /\
                      clock w' = clock w + update_ms env) w).
  { intros (r & w' & E & -> & H). exists w'. split; [exact E|exact H]. }
  unfold loop_body.
  apply twp_bind, twp_shouldStopNow; [intros; congruence|intros _].
  apply twp_bind, twp_mpu_update. intros w1 Hu1.
  apply twp_bind, twp_getAngleZ. cbv beta.
  unpack.
  apply twp_bind, twp_call_norm180; [defined_leaf|].
  intros e He. cbv beta zeta.
  apply twp_bind, twp_millis. cbv beta.
  match goal with
  | Hc : clock w1 = clock w + update_ms env |- _ => rewrite Hc, Hto
  end.
  repeat twp_step. unpack. chain w.
  split; [reflexivity|]. split; [solve_stopped|]. split; [assumption|].
  congruence.
Qed.

(** *** A robot that already points at the target *)

Section Undisturbed.

(** Nobody presses STOP. *)
Hypothesis never_pressed : stop_time env = None.

Lemma isr_never (t d : Z) : isr_fires env t d = false.
Proof. unfold isr_fires. rewrite never_pressed. reflexivity. Qed.

Lemma twp_smartDelay_free (ms : Z) (Q : bool -> World -> Prop) (w : World) :
  0 <= ms <= ULONG - 2 ->
  stopReq w = false ->
  (forall w', delay_done ms w w' -> stopReq w' = false -> Q true w') ->
  twp (smartDelay env ms) Q w.
Proof.
  intros Hms Hclr HQ.
  destruct (smartDelay_spec ms w Hms)
    as (ok & w' & E & Hs & Hc & Hflag & Hf & Ht & Hiff).
  assert (Hoff : stopReq w' = false).
  { rewrite Hflag. unfold flag_at. rewrite Hclr, isr_never. reflexivity. }
  exists ok, w'. split; [exact E|]. destruct ok.
  - apply HQ; [|exact Hoff].
    destruct (Ht eq_refl) as ((D1 & D2 & D3 & D4 & D5) & Hclk).
    unfold delay_done, same_pins. repeat (split; try assumption; try lia).
    exists []. split; [exact D5|reflexivity].
  - destruct (Hf eq_refl) as (F1 & _). congruence.
Qed.

Lemma twp_mpu_update_free (Q : unit -> World -> Prop) (w : World) :
  stopReq w = false ->
  (forall w', update_outcome env w w' -> stopReq w' = false -> Q tt w') ->
  twp (mpu_update env) Q w.
Proof.
  intros Hclr HQ. apply twp_mpu_update. intros w' Hout. apply HQ; [exact Hout|].
  destruct Hout as (_ & Hs & _). rewrite Hs, Hclr, isr_never. reflexivity.
Qed.

(** With the flag down, [shouldStopNow()] answers [false]; the facts
    about the flag are carried from world to world. *)
Ltac flag_down :=
  repeat match goal with
  | H1 : stopReq ?a = false, H2 : stopReq ?b = stopReq ?a |- _ =>
      lazymatch goal with
      | _ : stopReq b = false |- _ => fail
      | _ => assert (stopReq b = false) by (rewrite H2; exact H1)
      end
  end.

Ltac free_step :=
  unpack; flag_down;
  lazymatch goal with
  | |- twp (bind _ _) _ _ => apply twp_bind
  | |- twp shouldStopNow _ ?w =>
      apply twp_shouldStopNow; [intros ? ? ?; congruence | intros _]
  | |- twp (mpu_update _) _ _ =>
      apply twp_mpu_update_free; [assumption | intros ? ? ?]
  | |- twp (smartDelay _ _) _ _ =>
      apply twp_smartDelay_free; [small_ms | assumption | intros ? ? ?]
  | |- twp (wait_or_abort _ _ _) _ _ =>
      unfold wait_or_abort
  | |- twp (if _ then _ else _) _ _ => fail
  | _ => twp_step
  end; cbv beta zeta; cbn [negb].

(** A pass whose reading is within tolerance, made before the timeout
    with the flag down: it counts the sample, and returns [true] if that
    was the last one needed. *)
Lemma loop_body_settled (nf : nat) (target : Q) (t0 sign0 cmdMain cmdOpp : Z)
    (o : bool) (c d : Z) (w : World) :
  0 <= update_ms env ->
  stopReq w = false ->
  in_tolerance nf target (heading env (updates w)) = true ->
  (TIMEOUT_MS <? ((clock w + update_ms env) mod ULONG - t0) mod ULONG) = false ->
  twp (loop_body env nf target t0 sign0 cmdMain cmdOpp o c d)
      (fun r w' =>
         stopReq w' = false /\ updates w' = S (updates w) /\
         clock w <= clock w' <= clock w + update_ms env + 26 /\
         r = if STABLE_CNT <=? c + 1 then Return true
             else Continue o (c + 1) d) w.
Proof.
  intros Hu Hclr Htol Hto. unfold loop_body.
  unfold in_tolerance, error_of in Htol.
  destruct (norm180 nf (fsub target (heading env (updates w)))) as [e|] eqn:En;
    [|discriminate Htol].
  repeat free_step.
  unpack.
  match goal with
  | Ha : angleZ ?w1 = heading env (updates w) |- _ => rewrite Ha
  end.
  apply twp_call_norm180; [rewrite En; discriminate|].
  intros e' He'. rewrite En in He'. inversion He'; subst e'. cbv beta zeta.
  repeat free_step.
  unpack.
  match goal with
  | Hc : clock ?w1 = clock w + update_ms env |- _ => rewrite Hc, Hto, Htol
  end.
  repeat free_step.
  destruct (STABLE_CNT <=? c + 1) eqn:Ecnt.
  - repeat free_step. unpack. repeat split; try congruence; lia.
  - repeat free_step. unpack. repeat split; try congruence; lia.
Qed.

Lemma rotate_loop_settles (nf : nat) (target : Q) (T0 sign0 cmdMain cmdOpp : Z) :
  0 <= update_ms env ->
  forall (fuel k : nat) (o : bool) (c d : Z) (w : World),
    (k <= fuel)%nat ->
    c = STABLE_CNT - Z.of_nat (S k) -> 0 <= c ->
    stopReq w = false ->
    (forall n, (updates w <= n)%nat ->
               in_tolerance nf target (heading env n) = true) ->
    0 <= clock w - T0 ->
    clock w - T0 + Z.of_nat (S k) * (update_ms env + 26) <= 9000 ->
    exists w',
      rotate_loop env nf target (T0 mod ULONG) sign0 cmdMain cmdOpp (S fuel)
        o c d w
        = Some (true, w') /\
      updates w' = (updates w + S k)%nat /\ stopReq w' = false.
Proof.
  intros Hu. induction fuel as [|f IH];
    intros k o c d w Hk Hc Hc0 Hclr Hall He Hbound.
  all: rewrite Nat2Z.inj_succ, Z.mul_succ_l in Hbound.
  all: assert (HU : ULONG = 4294967296) by reflexivity.
  all: assert (Hk0 : 0 <= Z.of_nat k * (update_ms env + 26))
         by (apply Z.mul_nonneg_nonneg; lia).
  all: destruct (loop_body_settled nf target (T0 mod ULONG) sign0 cmdMain cmdOpp
                   o c d w Hu Hclr (Hall _ (Nat.le_refl _)))
         as (r & w1 & Er & Hs1 & Hn1 & Hc1 & Hr);
         [apply Z.ltb_ge; rewrite wrapped_elapsed by lia;
          unfold TIMEOUT_MS; lia|].
  all: cbn [rotate_loop]; unfold bind; rewrite Er.
  all: unfold STABLE_CNT in *.
  - assert (k = 0)%nat by lia. subst k.
    destruct (Z.leb_spec 10 (c + 1)); [|lia]. subst r.
    exists w1. split; [reflexivity|]. split; [lia|exact Hs1].
  - destruct (Z.leb_spec 10 (c + 1)) as [Hle|Hgt]; subst r.
    + assert (k = 0)%nat by lia. subst k.
      exists w1. split; [reflexivity|]. split; [lia|exact Hs1].
    + destruct k as [|k']; [lia|].
      destruct (IH k' o (c + 1) d w1) as (w' & E & Hn & Hs); try lia.
      * exact Hs1.
      * intros n Hn. apply Hall. lia.
      * exists w'. split; [exact E|]. split; [lia|exact Hs].
Qed.

Lemma Rotate_settles (fuel : nat) (phi : Q) (w : World) :
  0 <= update_ms env <= 500 ->
  (Z.to_nat STABLE_CNT <= fuel)%nat ->
  stopReq w = false ->
  (forall n, (updates w <= n)%nat ->
             in_tolerance fuel (rotate_target env phi w) (heading env n) = true) ->
  exists w',
    Rotate env fuel phi w = Some (true, w') /\
    updates w' = (updates w + 2 + Z.to_nat STABLE_CNT)%nat.
Proof.
  intros Hu Hfuel Hclr Hall.
  change (Z.to_nat STABLE_CNT) with 10%nat in *.
  destruct fuel as [|f]; [lia|].
  cut (twp (Rotate env (S f) phi)
         (fun b w' => b = true /\ updates w' = (updates w + 2 + 10)%nat) w).
  { intros (b & w' & E & -> & Hn). exists w'. split; [exact E|exact Hn]. }
  unfold Rotate. repeat free_step. unpack.
  apply twp_call_norm180.
  { match goal with
    | |- norm180 _ (fsub _ (angleZ ?wk)) <> None =>
        match goal with
        | Hk : angleZ wk = heading env ?n |- _ =>
            specialize (Hall n ltac:(lia)); rewrite Hk
        end
    end.
    match goal with
    | H : angleZ _ = heading env (updates w) |- _ => rewrite H
    end.
    unfold in_tolerance, error_of, rotate_target in Hall.
    intros Hnone. rewrite Hnone in Hall. discriminate Hall. }
  intros err0 Herr0. cbv beta zeta.
  lazymatch goal with
  | |- twp (rotate_loop _ _ ?tg (clock ?w1 mod ULONG) ?sg ?cm ?co _ _ _ ?d) _ ?wk =>
      destruct (rotate_loop_settles (S f) tg (clock w1) sg cm co ltac:(lia)
                  f 9%nat false 0 d wk) as (wf & E & Hn & _)
  end.
  - lia.
  - reflexivity.
  - lia.
  - flag_down. assumption.
  - intros n Hn. unfold rotate_target in Hall.
    match goal with
    | H : angleZ _ = heading env (updates w) |- _ => rewrite H
    end.
    apply Hall. lia.
  - lia.
  - change (Z.of_nat 10) with 10. lia.
  - exists true, wf. split; [exact E|]. split; [reflexivity|]. lia.
Qed.

End Undisturbed.

(** *** What [Rotate] commands *)

Ltac turn_one :=
  unfold turn_with;
  first [ left; reflexivity
        | right; split;
          [ cbn [fst];
            repeat match goal with
                   | |- context [if ?b then _ else _] => destruct b
                   end; auto
          | cbn; auto 10 ] ].

Ltac turn_list :=
  repeat (apply Forall_cons; [turn_one|]); apply Forall_nil.

Ltac solve_turns := eexists; split; [eassumption|]; turn_list.

Lemma micro_steps_commands (nf : nat) (target : Q) (cmdMain cmdOpp : Z) (o : bool) (n : nat) :
  forall w,
    wp (micro_steps env nf target cmdMain cmdOpp n o)
        (fun _ w' => exists l, issued w w' l /\
                               Forall (turn_with cmdMain cmdOpp) l) w.
Proof.
  induction n as [|n IH]; intros w.
  - apply wp_ret. exists []. split; [apply issued_refl|constructor].
  - cbn [micro_steps].
    repeat wp_step; unpack; chain w; try solve [solve_turns].
    eapply wp_mono; [apply IH|].
    cbv beta. intros _ wf (l & Hi & Hf).
    match goal with H : issued w ?b ?l0 |- _ =>
      lazymatch type of Hi with issued b _ _ =>
        exists (l ++ l0); split; [exact (issued_trans _ _ _ _ _ H Hi)|];
        apply Forall_app; split; [exact Hf|]
      end
    end.
    turn_list.
Qed.

Lemma loop_body_commands (nf : nat) (target : Q) (t0 sign0 cmdMain cmdOpp : Z)
    (o : bool) (c d : Z) (w : World) :
  wp (loop_body env nf target t0 sign0 cmdMain cmdOpp o c d)
      (fun _ w' => exists l, issued w w' l /\
                             Forall (turn_with cmdMain cmdOpp) l) w.
Proof.
  unfold loop_body.
  repeat wp_step; unpack; chain w; try solve [solve_turns].
  eapply wp_mono; [apply micro_steps_commands|].
  cbv beta. intros r wf (l & Hi & Hf).
  assert (Hj : exists l', issued w wf l' /\ Forall (turn_with cmdMain cmdOpp) l').
  { match goal with H : issued w ?b ?l0 |- _ =>
      lazymatch type of Hi with issued b _ _ =>
        exists (l ++ l0); split; [exact (issued_trans _ _ _ _ _ H Hi)|];
        apply Forall_app; split; [exact Hf|turn_list]
      end
    end. }
  destruct Hj as (l' & Hi' & Hf').
  destruct r as [b|]; repeat wp_step; unpack.
  - exists l'. split; assumption.
  - match goal with H : issued wf ?b [] |- _ =>
      exists l'; split; [exact (issued_trans _ _ _ _ _ Hi' H)|exact Hf']
    end.
Qed.

Lemma rotate_loop_commands (nf : nat) (target : Q)
    (t0 sign0 cmdMain cmdOpp : Z) (fuel : nat) :
  forall (o : bool) (c d : Z) (w : World) (b : bool) (w' : World),
    rotate_loop env nf target t0 sign0 cmdMain cmdOpp fuel o c d w
      = Some (b, w') ->
    exists l, issued w w' l /\ Forall (turn_with cmdMain cmdOpp) l.
Proof.
  induction fuel as [|f IH]; intros o c d w b w' E; [discriminate|].
  cbn [rotate_loop] in E. unfold bind in E.
  destruct (loop_body env nf target t0 sign0 cmdMain cmdOpp o c d w)
    as [[r w1]|] eqn:Er; [|discriminate E].
  destruct (loop_body_commands nf target t0 sign0 cmdMain cmdOpp o c d w
              r w1 Er) as (l1 & Hi1 & Hf1).
  destruct r as [b1|o1 c1 d1].
  - inversion E; subst. exists l1. split; assumption.
  - destruct (IH o1 c1 d1 w1 b w' E) as (l2 & Hi2 & Hf2).
    exists (l2 ++ l1). split.
    + exact (issued_trans _ _ _ _ _ Hi1 Hi2).
    + apply Forall_app. split; assumption.
Qed.

Lemma turn_with_turn (phi : Q) (l : list (Z * Z)) :
  Forall (turn_with (if Qltb 0 phi then RotateRight else RotateLeft)
                    (if Qltb 0 phi then RotateLeft else RotateRight)) l ->
  Forall turn_command l.
Proof.
  apply Forall_impl. intros m [H|([H|H] & Hs)]; [left; exact H| |];
    right; (split; [|exact Hs]); rewrite H; destruct (Qltb 0 phi); auto.
Qed.

Lemma Rotate_commands (fuel : nat) (phi : Q) (w : World) :
  wp (Rotate env fuel phi)
     (fun _ w' => exists l, issued w w' l /\ Forall turn_command l) w.
Proof.
  unfold Rotate.
  repeat wp_step; unpack; chain w;
    try solve [eexists; split; [eassumption|];
               apply (turn_with_turn phi); turn_list].
  intros b wf E.
  destruct (rotate_loop_commands _ _ _ _ _ _ _ _ _ _ _ _ _ E) as (l & Hi & Hf).
  match goal with H : issued w ?wk ?l0 |- _ =>
    lazymatch type of Hi with issued wk _ _ =>
      exists (l ++ l0); split; [exact (issued_trans _ _ _ _ _ H Hi)|];
      apply (turn_with_turn phi); apply Forall_app; split; [exact Hf|turn_list]
    end
  end.
Qed.

(** *** How long [Rotate] takes *)

Ltac span_leaf :=
  unfold span_post; split; [lia|];
  first [ left; lia
        | right; split; [|lia];
          match goal with
          | H : clock ?w1 = clock ?w + update_ms env,
            E : (TIMEOUT_MS <? (clock ?w1 mod ULONG - _) mod ULONG) = false |- _ =>
              rewrite <- H; exact E
          end ].

Lemma loop_body_span (nf : nat) (target : Q) (t0 sign0 cmdMain cmdOpp : Z)
    (o : bool) (c d : Z) (w : World) :
  0 <= update_ms env ->
  wp (loop_body env nf target t0 sign0 cmdMain cmdOpp o c d)
      (fun _ w' => span_post (update_ms env) t0 w w') w.
Proof.
  intros Hu. unfold loop_body.
  repeat wp_step; unpack; unfold_ms; try solve [span_leaf].
  eapply wp_mono;
    [apply (micro_steps_time nf target cmdMain cmdOpp _ MICRO_STEPS Hu)|].
  cbv beta. intros r wf Hr. change (Z.of_nat MICRO_STEPS) with 3 in Hr.
  destruct r as [b|]; repeat wp_step; unpack; span_leaf.
Qed.

Lemma rotate_loop_span (nf : nat) (target : Q) (T0 sign0 cmdMain cmdOpp : Z) :
  0 <= update_ms env <= 1000 ->
  forall (fuel : nat) (o : bool) (c d : Z) (w : World) (b : bool) (w' : World),
    0 <= clock w - T0 <= 9000 + 6 * update_ms env + 168 ->
    rotate_loop env nf target (T0 mod ULONG) sign0 cmdMain cmdOpp fuel o c d w
      = Some (b, w') ->
    clock w <= clock w' /\ clock w' - T0 <= 9000 + 7 * update_ms env + 168.
Proof.
  intros Hu. induction fuel as [|f IH]; intros o c d w b w' He E; [discriminate|].
  cbn [rotate_loop] in E. unfold bind in E.
  destruct (loop_body env nf target (T0 mod ULONG) sign0 cmdMain cmdOpp o c d w)
    as [[r w1]|] eqn:Er; [|discriminate E].
  destruct (loop_body_span nf target (T0 mod ULONG) sign0 cmdMain cmdOpp
              o c d w ltac:(lia) r w1 Er) as (Hge & Hr).
  pose proof (loop_body_time nf target (T0 mod ULONG) sign0 cmdMain cmdOpp
                o c d w ltac:(lia) r w1 Er) as Ht.
  assert (HU : ULONG = 4294967296) by reflexivity.
  assert (Hw1 : clock w1 - T0 <= 9000 + 7 * update_ms env + 168 /\
                (forall o1 c1 d1, r = Continue o1 c1 d1 ->
                   clock w1 - T0 <= 9000 + 6 * update_ms env + 168)).
  { destruct Hr as [Hr|(Hto & Hr)].
    - split; [lia|]. intros o1 c1 d1 ->. unfold time_post in Ht.
      destruct Ht as (_ & Hto). apply Z.ltb_ge in Hto.
      rewrite wrapped_elapsed in Hto by lia. unfold TIMEOUT_MS in Hto. lia.
    - apply Z.ltb_ge in Hto.
      rewrite wrapped_elapsed in Hto by lia. unfold TIMEOUT_MS in Hto.
      split; [lia|]. intros; lia. }
  destruct Hw1 as (Hret & Hcont).
  destruct r as [b1|o1 c1 d1].
  - inversion E; subst. split; [exact Hge|exact Hret].
  - specialize (Hcont o1 c1 d1 eq_refl).
    destruct (IH o1 c1 d1 w1 b w') as (H1 & H2); [lia|exact E|].
    split; lia.
Qed.

Lemma Rotate_span (fuel : nat) (phi : Q) (w : World) :
  0 <= update_ms env <= 1000 ->
  wp (Rotate env fuel phi)
     (fun _ w' => clock w <= clock w' <= clock w + 9168 + 8 * update_ms env) w.
Proof.
  intros Hu. unfold Rotate.
  repeat wp_step; unpack; try lia.
  intros b wf E.
  lazymatch type of E with
  | rotate_loop _ ?nf ?tg (clock ?w1 mod ULONG) ?sg ?cm ?co _ _ _ ?d ?wk = _ =>
      assert (Hu' : 0 <= update_ms env <= 1000) by lia;
      assert (He : 0 <= clock wk - clock w1 <= 9000 + 6 * update_ms env + 168)
        by lia;
      destruct (rotate_loop_span nf tg (clock w1) sg cm co Hu'
                  _ _ _ _ _ _ _ He E) as (Hlo & Hhi)
  end.
  lia.
Qed.

(** *** Driving forward *)

Lemma twp_debugForw (z : Q) (last : Z) (Q : Z -> World -> Prop) (w : World) :
  (forall last' w', quiet_outcome w w' -> Q last' w') ->
  twp (debugForw z last) Q w.
Proof.
  intros H. unfold twp, debugForw, bind, millis. cbv beta.
  destruct (100 <=? (clock w mod ULONG - last) mod ULONG).
  - eexists _, _. split; [reflexivity|]. apply H.
    unfold quiet_outcome, same_time, same_pins. cbn. repeat split.
    exists [EvSerial "Forw Z="]. split; reflexivity.
  - exists last, w. split; [reflexivity|]. apply H.
    unfold quiet_outcome, same_time, same_pins. repeat split.
    apply issued_refl.
Qed.

Ltac fwd_list :=
  repeat (apply Forall_cons; [unfold forward_command; auto|]); apply Forall_nil.

Ltac fwd_cmds := eexists; split; [eassumption|]; fwd_list.

(** The warm-up pulses: [n] of them take between [60 n] and [62 n] ms
    unless the stop flag cuts them short. *)
Lemma warm_up_spec (n : nat) :
  forall w,
    twp (warm_up env n)
        (fun r w' =>
           (exists l, issued w w' l /\ Forall forward_command l) /\
           clock w <= clock w' <= clock w + 62 * Z.of_nat n /\
           if r then clock w + 60 * Z.of_nat n <= clock w'
           else stopReq w' = true /\ stopped w' /\ stop_issued w w') w.
Proof.
  induction n as [|n IH]; intros w.
  - apply twp_ret. split; [exists []; split; [apply issued_refl|constructor]|].
    cbn. lia.
  - cbn [warm_up]. rewrite Nat2Z.inj_succ.
    repeat twp_step; unpack; chain w;
      try solve [split; [fwd_cmds|]; split; [lia|];
                 split; [assumption|]; split; [solve_stopped|solve_issued]].
    eapply twp_mono; [apply IH|].
    cbv beta. intros r wf ((l & Hi & Hf) & Hclk & Hr).
    match goal with H : issued w ?b ?l0 |- _ =>
      lazymatch type of Hi with issued b _ _ =>
        pose proof (issued_trans _ _ _ _ _ H Hi) as Hj;
        assert (Hfj : Forall forward_command (l ++ l0))
          by (apply Forall_app; split; [exact Hf|fwd_list])
      end
    end.
    split; [eexists; split; [exact Hj|exact Hfj]|].
    split; [lia|].
    destruct r; [lia|].
    destruct Hr as (Hr1 & Hr2 & l' & Hr3).
    split; [exact Hr1|]. split; [exact Hr2|].
    match goal with H : issued w ?b ?l0 |- _ =>
      lazymatch type of Hr3 with issued b _ _ =>
        pose proof (issued_trans _ _ _ _ _ H Hr3) as Hj'
      end
    end.
    cbn [app] in Hj'. eexists. exact Hj'.
Qed.

Ltac forw_step :=
  lazymatch goal with
  | |- twp (debugForw _ _) _ _ => apply twp_debugForw; intros ? ? ?
  | |- twp (warm_up _ _) _ _ =>
      eapply twp_mono; [apply warm_up_spec | cbv beta; intros ? ? ?]
  | _ => twp_step
  end; cbv beta zeta; cbn [negb].

Ltac wp_forw :=
  lazymatch goal with
  | |- wp (bind _ _) _ _ => apply wp_bind_twp; forw_step
  | |- wp (ret _) _ _ => apply wp_ret
  | |- wp (if ?b then _ else _) _ _ => destruct b eqn:?
  end; cbv beta zeta; cbn [negb].

Lemma forw_loop_safe (start T : Z) (fuel : nat) :
  forall (last : Z) (w : World),
    wp (forw_loop env fuel start T last)
       (fun r w' =>
          (exists l, issued w w' l /\ Forall forward_command l) /\
          (r = None -> stopped w' /\ stop_issued w w')) w.
Proof.
  induction fuel as [|f IH]; intros last w; [intros r w' E; discriminate|].
  cbn [forw_loop].
  repeat wp_forw; unpack; chain w;
    try solve [split; [fwd_cmds|]; first [discriminate | intros _];
               split; [solve_stopped|solve_issued]].
  - eapply wp_mono; [apply IH|].
  cbv beta. intros r wf ((l & Hi & Hf) & Hr).
  match goal with H : issued w ?b [] |- _ =>
    lazymatch type of Hi with issued b _ _ =>
      pose proof (issued_trans _ _ _ _ _ H Hi) as Hj
    end
  end.
  rewrite app_nil_r in Hj.
  split; [exists l; split; [exact Hj|exact Hf]|].
  intros Hn. destruct (Hr Hn) as (Hst & l' & Hi').
  split; [exact Hst|].
  match goal with H : issued w ?b [] |- _ =>
    lazymatch type of Hi' with issued b _ _ =>
      pose proof (issued_trans _ _ _ _ _ H Hi') as Hj'
    end
  end.
  rewrite app_nil_r in Hj'. eexists. exact Hj'.
  - split; [|discriminate].
    exists []. split; [apply issued_refl|constructor].
Qed.

Lemma Forw_safe (fuel : nat) (time_ms : Q) (last : Z) (w : World) :
  wp (Forw env fuel time_ms last)
     (fun _ w' =>
        stopped w' /\ stop_issued w w' /\
        exists l, issued w w' l /\ Forall forward_command l) w.
Proof.
  unfold Forw.
  repeat wp_forw; unpack; chain w;
    try solve [split; [solve_stopped|]; split; [solve_issued|fwd_cmds]].
  - (* a warm-up pulse was cut short *)
    match goal with
    | H : exists l, issued ?a ?b l /\ _ |- _ => destruct H as (l & Hi & Hf)
    end.
    match goal with
    | H : if ?a then _ else _ |- _ =>
        destruct a; [discriminate|]; destruct H as (Hw1 & Hw2 & l' & Hi')
    end.
    chain w.
    split; [solve_stopped|]. split.
    + match goal with H : issued w ?b [] |- _ =>
        pose proof (issued_trans _ _ _ _ _ H Hi') as Hj
      end.
      rewrite app_nil_r in Hj. eexists. exact Hj.
    + match goal with H : issued w ?b [] |- _ =>
        pose proof (issued_trans _ _ _ _ _ H Hi) as Hj
      end.
      rewrite app_nil_r in Hj. exists l. split; [exact Hj|exact Hf].
  - (* the flag is found set after the warm-up *)
    match goal with
    | H : exists l, issued ?a ?b l /\ _ |- _ => destruct H as (l & Hi & Hf)
    end.
    match goal with
    | H0 : issued w ?a [], H1 : issued ?b ?c [(Stop, 0)] |- _ =>
        pose proof (issued_trans _ _ _ _ _
                      (issued_trans _ _ _ _ _ H0 Hi) H1) as Hj
    end.
    rewrite app_nil_r in Hj.
    split; [solve_stopped|]. split; [eexists; exact Hj|].
    eexists. split; [exact Hj|].
    apply Forall_app. split; [fwd_list|exact Hf].
  - (* the cruise *)
    match goal with
    | H : exists l, issued ?a ?b l /\ _ |- _ => destruct H as (l & Hi & Hf)
    end.
    match goal with
    | H0 : issued w ?a [], H1 : issued ?b ?c [(Forward, 250)] |- _ =>
        pose proof (issued_trans _ _ _ _ _
                      (issued_trans _ _ _ _ _ H0 Hi) H1) as Hj
    end.
    rewrite app_nil_r in Hj. cbn [app] in Hj.
    apply wp_bind. eapply wp_mono; [apply forw_loop_safe|].
    cbv beta. intros r wk ((l2 & Hi2 & Hf2) & Hr).
    pose proof (issued_trans _ _ _ _ _ Hj Hi2) as Hk.
    destruct r as [last'|].
    + repeat wp_forw; unpack.
      match goal with
      | H1 : issued wk ?a [], H2 : issued ?a ?b [(Stop, 0)] |- _ =>
          pose proof (issued_trans _ _ _ _ _
                        (issued_trans _ _ _ _ _ Hk H1) H2) as Hend
      end.
      cbn [app] in Hend.
      split; [solve_stopped|]. split; [eexists; exact Hend|].
      eexists. split; [exact Hend|].
      apply Forall_cons; [unfold forward_command; auto|].
      apply Forall_app. split; [exact Hf2|].
      apply Forall_cons; [unfold forward_command; auto|exact Hf].
    + apply wp_ret. destruct (Hr eq_refl) as (Hst & l' & Hi').
      pose proof (issued_trans _ _ _ _ _ Hj Hi') as Hend.
      split; [exact Hst|]. split; [eexists; exact Hend|].
      eexists. split; [exact Hk|].
      apply Forall_app. split; [exact Hf2|].
      apply Forall_cons; [unfold forward_command; auto|exact Hf].
Qed.

Lemma ulong_of_float_range (x : Q) : 0 <= ulong_of_float x < ULONG.
Proof. unfold ulong_of_float. apply Z.mod_pos_bound. reflexivity. Qed.

Lemma forw_loop_total (cs T : Z) :
  0 <= update_ms env ->
  Z.max 186 (T + update_ms env + 10) < ULONG ->
  forall (fuel : nat) (last : Z) (w : World),
    0 <= clock w - cs <= Z.max 186 (T + update_ms env + 10) ->
    0 < Z.of_nat fuel ->
    T - (clock w - cs) <= 10 * (Z.of_nat fuel - 1) ->
    twp (forw_loop env fuel (cs mod ULONG) T last)
        (fun r w' =>
           clock w <= clock w' /\
           clock w' - cs <= Z.max 186 (T + update_ms env + 10) /\
           match r with
           | Some _ => T <= clock w' - cs
           | None => stopReq w' = true
           end) w.
Proof.
  intros Hu HB. induction fuel as [|f IH]; intros last w He Hpos Hfuel; [lia|].
  rewrite Nat2Z.inj_succ in Hfuel.
  cbn [forw_loop]. apply twp_bind, twp_millis. cbv beta.
  rewrite wrapped_elapsed by lia.
  destruct (Z.ltb_spec (clock w - cs) T) as [Hlt|Hge].
  - repeat forw_step; unpack;
      try solve [split; [lia|]; split; [lia|assumption]].
    eapply twp_mono; [apply IH; lia|].
    cbv beta. intros r wf (Hr1 & Hr2 & Hr3).
    split; [lia|]. split; [lia|exact Hr3].
  - apply twp_ret. split; [lia|]. split; [lia|lia].
Qed.

Lemma Forw_total (fuel : nat) (time_ms : Q) (last : Z) (w : World) :
  0 <= update_ms env ->
  ulong_of_float time_ms + update_ms env + 10 < ULONG ->
  ulong_of_float time_ms < 10 * Z.of_nat fuel ->
  twp (Forw env fuel time_ms last)
      (fun _ w' =>
         clock w <= clock w' <=
         clock w + 201 + Z.max 186 (ulong_of_float time_ms + update_ms env + 10) /\
         (stopReq w' = false ->
          clock w + 200 + ulong_of_float time_ms <= clock w')) w.
Proof.
  intros Hu HB Hfuel.
  pose proof (ulong_of_float_range time_ms) as HT.
  assert (HU : ULONG = 4294967296) by reflexivity.
  unfold Forw.
  repeat forw_step; unpack;
    try match goal with
        | H : if ?a then _ else _ |- _ =>
            destruct a; cbn [negb] in *; try discriminate; unpack
        end;
    change (Z.of_nat 3) with 3 in *;
    try solve [split; [lia|intros; congruence]].
  match goal with
  | |- twp (forw_loop _ _ (clock ?ws mod ULONG) _ _) _ ?wk =>
      eapply twp_mono;
      [apply (forw_loop_total (clock ws) (ulong_of_float time_ms) Hu
                ltac:(lia) fuel last wk); lia|]
  end.
  cbv beta. intros r wf (Hr1 & Hr2 & Hr3).
  destruct r as [last'|].
  - repeat forw_step; unpack. split; [lia|]. intros _. lia.
  - apply twp_ret. split; [lia|]. intros; congruence.
Qed.

(** *** The sign test *)

Lemma twp_delay (d : Z) (Q : unit -> World -> Prop) (w : World) :
  (forall w', clock w' = clock w + d -> same_sensor w w' -> same_pins w w' ->
              issued w w' [] -> Q tt w') ->
  twp (delay env d) Q w.
Proof.
  intros H. eexists tt, _. split; [reflexivity|]. apply H.
  - reflexivity.
  - unfold same_sensor. cbn. auto.
  - unfold same_pins. cbn. auto.
  - exists []. split; reflexivity.
Qed.

Lemma detectYawSign_spec (fuel : nat) (w : World) (dz : Q) :
  norm180 fuel (fsub (heading env (S (updates w))) (heading env (updates w)))
    = Some dz ->
  twp (detectYawSign env fuel)
      (fun r w' =>
         r = Qltb 0 dz /\
         clock w' = clock w + 500 + 2 * update_ms env /\
         stopped w' /\
         issued w w' [(Stop, 0); (RotateRight, 175)] /\
         updates w' = S (S (updates w))) w.
Proof.
  intros Hdz.
  unfold detectYawSign. change (Z.max MIN_ROT_PWM 160) with 175.
  repeat (first [apply twp_delay; intros ? ? ? ? ? | twp_step]).
  unpack.
  match goal with
  | |- twp (call_norm180 _ ?a) _ _ =>
      assert (Hz : norm180 fuel a = Some dz)
  end.
  { repeat match goal with
    | H : angleZ _ = _ |- _ => rewrite H
    end.
    repeat match goal with
    | H : updates _ = _ |- _ => rewrite H
    end.
    exact Hdz. }
  apply twp_call_norm180; [rewrite Hz; discriminate|].
  intros r Hr. rewrite Hz in Hr. inversion Hr; subst r.
  repeat twp_step. unpack. chain w.
  split; [reflexivity|].
  split; [lia|split; [solve_stopped|split; [assumption|congruence]]].
Qed.

(** *** Waiting for START *)

Section Button.

Variable start_pin : Z -> bool.

Lemma wait_loop_safe (fuel : nat) :
  forall (p : Panel) (w : World),
    wp (wait_loop env start_pin fuel p)
       (fun p' w' => runEnabled p' = true /\ same_pins w w' /\
                     log w' = log w) w.
Proof.
  induction fuel as [|f IH]; intros p w p' w' E; [discriminate|].
  cbn [wait_loop] in E. destruct (runEnabled p) eqn:Er; cbn [negb] in E.
  - inversion E; subst. unfold same_pins. auto 6.
  - unfold bind, poll_button, delay, elapse in E.
    apply IH in E. unfold same_pins in *. cbn in E. exact E.
Qed.

Lemma waitForStartAfterStop_safe (fuel : nat) (p : Panel) (w : World) :
  wp (waitForStartAfterStop env start_pin fuel p)
     (fun p' w' => runEnabled p' = true /\ stopped w' /\
                   issued w w' [(Stop, 0)]) w.
Proof.
  intros p' w' E. unfold waitForStartAfterStop in E.
  unfold bind at 1 2 3 4 5 in E. cbn in E.
  match type of E with
  | match wait_loop _ _ _ ?p1 ?w1 with _ => _ end = _ =>
      destruct (wait_loop env start_pin fuel p1 w1) as [[p2 w2]|] eqn:Ew;
      [|discriminate];
      destruct (wait_loop_safe _ _ _ _ _ Ew) as (Hr & Hp & Hl)
  end.
  unfold bind in E. cbn in E. inversion E; subst p' w'. clear E.
  unfold same_pins in Hp. cbn in Hp, Hl.
  destruct Hp as (P1 & P2 & P3 & P4).
  split; [exact Hr|]. split; [unfold stopped; cbn; auto|].
  unfold issued. cbn [log]. rewrite Hl.
  exists [EvSerial "START: running."; EvSerial "STOP: halted. Press START to run.";
          EvEnable false; EvEnable false; EvMotor Stop 0].
  split; reflexivity.
Qed.

(** A START button that was down when the robot was stopped, and stays
    down, is not a new press. *)
Lemma wait_loop_held (fuel : nat) :
  forall (p : Panel) (w : World),
    runEnabled p = false -> stable p = false ->
    (forall t, clock w <= t -> start_pin t = false) ->
    wait_loop env start_pin fuel p w = None.
Proof.
  induction fuel as [|f IH]; intros p w Hr Hs Hpin; [reflexivity|].
  cbn [wait_loop]. rewrite Hr. cbn [negb].
  unfold bind, poll_button, delay, elapse.
  apply IH.
  - unfold pollStartButton. rewrite (Hpin (clock w)) by lia. rewrite Hs.
    cbn [Bool.eqb negb].
    destruct (40 <? _); cbn [runEnabled]; exact Hr.
  - unfold pollStartButton. rewrite (Hpin (clock w)) by lia. rewrite Hs.
    cbn [Bool.eqb negb].
    destruct (40 <? _); cbn [stable]; reflexivity.
  - cbn [clock]. intros t Ht. apply Hpin. lia.
Qed.

Lemma level_age_step (c : Z) (tl : Z) :
  0 <= (c mod ULONG - tl) mod ULONG <= 40 ->
  ((c + 10) mod ULONG - tl) mod ULONG = (c mod ULONG - tl) mod ULONG + 10.
Proof.
  assert (HU : ULONG = 4294967296) by reflexivity.
  rewrite !Zminus_mod_idemp_l. intros H.
  replace (c + 10 - tl) with ((c - tl) + 10) by lia.
  rewrite Zplus_mod, (Z.mod_small 10) by lia.
  apply Z.mod_small. lia.
Qed.

(** With the level LOW and known to [pollStartButton], the press is
    taken as soon as it is more than 40 ms old. *)
Lemma wait_loop_pressed (n : nat) :
  forall (fuel : nat) (p : Panel) (w : World),
    (n + 2 <= fuel)%nat ->
    runEnabled p = false -> stable p = true -> lastRead p = false ->
    41 - 10 * Z.of_nat n <= level_age p w ->
    (forall t, clock w <= t <= clock w + 10 * Z.of_nat n -> start_pin t = false) ->
    exists p' w',
      wait_loop env start_pin fuel p w = Some (p', w') /\
      runEnabled p' = true /\ stable p' = false /\
      clock w' <= clock w + 10 * (Z.of_nat n + 1) /\
      same_pins w w' /\ log w' = log w.
Proof.
  assert (HU : ULONG = 4294967296) by reflexivity.
  induction n as [|n IH]; intros fuel p w Hf Hr Hs Hl Hage Hpin.
  - destruct fuel as [|[|f]]; [lia|lia|].
    cbn [wait_loop]. rewrite Hr. cbn [negb].
    unfold bind, poll_button, delay, elapse.
    unfold pollStartButton. rewrite (Hpin (clock w)) by lia. rewrite Hl, Hs.
    cbn [Bool.eqb negb].
    unfold level_age in Hage.
    destruct (Z.ltb_spec 40 ((clock w mod ULONG - tLast p) mod ULONG));
      [|change (Z.of_nat 0) with 0 in Hage; lia].
    cbn [runEnabled negb]. eexists _, _. split; [reflexivity|].
    unfold same_pins. cbn. repeat split; lia.
  - destruct fuel as [|f]; [lia|].
    cbn [wait_loop]. rewrite Hr. cbn [negb].
    unfold bind, poll_button, delay, elapse.
    unfold pollStartButton. rewrite (Hpin (clock w)) by lia. rewrite Hl, Hs.
    cbn [Bool.eqb negb].
    unfold level_age in Hage.
    destruct (Z.ltb_spec 40 ((clock w mod ULONG - tLast p) mod ULONG)) as [Hold|Hnew].
    + destruct f as [|f]; [lia|].
      cbn [wait_loop runEnabled negb]. eexists _, _. split; [reflexivity|].
      unfold same_pins. cbn [runEnabled stable clock pwm1 pwm2 latch en_pin log].
      repeat split; lia.
    + match goal with |- context [wait_loop env start_pin f ?p1 ?w1] =>
        destruct (IH f p1 w1) as (p' & w' & E & H1 & H2 & H3 & H4 & H5)
      end.
      * lia.
      * exact Hr.
      * reflexivity.
      * reflexivity.
      * unfold level_age. cbn [tLast clock].
        rewrite level_age_step by
          (split; [apply Z.mod_pos_bound; lia|lia]).
        lia.
      * cbn [clock]. intros t Ht. apply Hpin. lia.
      * exists p', w'. split; [exact E|].
        cbn [clock] in H3. unfold same_pins in *.
        cbn [pwm1 pwm2 latch en_pin log] in H4, H5.
        repeat split; try tauto; lia.
Qed.

Lemma waitForStartAfterStop_pressed (fuel : nat) (p : Panel) (w : World) :
  (7 <= fuel)%nat ->
  stable p = true ->
  (forall t, clock w <= t <= clock w + 50 -> start_pin t = false) ->
  exists p' w',
    waitForStartAfterStop env start_pin fuel p w = Some (p', w') /\
    runEnabled p' = true /\ stable p' = false /\
    clock w' <= clock w + 60.
Proof.
  intros Hf Hs Hpin.
  assert (HU : ULONG = 4294967296) by reflexivity.
  unfold waitForStartAfterStop. unfold bind at 1 2 3 4 5. cbn.
  match goal with |- context [wait_loop env start_pin fuel ?p1 ?w1] =>
    set (p0 := p1); set (w0 := w1)
  end.
  assert (Hc0 : clock w0 = clock w) by reflexivity.
  assert (Hfin : exists p' w',
            wait_loop env start_pin fuel p0 w0 = Some (p', w') /\
            runEnabled p' = true /\ stable p' = false /\
            clock w' <= clock w + 60).
  { destruct (lastRead p) eqn:Hl.
    - destruct fuel as [|f]; [lia|].
      cbn [wait_loop]. subst p0. cbn [runEnabled negb].
      unfold bind, poll_button, delay, elapse.
      unfold pollStartButton. rewrite Hc0, (Hpin (clock w)) by lia.
      cbn [lastRead tLast stable runEnabled]. rewrite ?Hl, ?Hs.
      cbn [Bool.eqb negb].
      rewrite Z.sub_diag, Z.mod_0_l by lia. cbn [Z.ltb Z.compare].
      match goal with |- context [wait_loop env start_pin f ?p1 ?w1] =>
        destruct (wait_loop_pressed 4 f p1 w1)
          as (p' & w' & E & H1 & H2 & H3 & _)
      end.
      + lia.
      + reflexivity.
      + reflexivity.
      + reflexivity.
      + unfold level_age. cbn [tLast clock].
        rewrite level_age_step;
          rewrite Z.sub_diag, Z.mod_0_l by lia; change (Z.of_nat 4) with 4; lia.
      + cbn [clock]. change (Z.of_nat 4) with 4. intros t Ht. apply Hpin. lia.
      + exists p', w'. split; [exact E|].
        cbn [clock] in H3. change (Z.of_nat 4) with 4 in H3.
        repeat split; try assumption; lia.
    - destruct (wait_loop_pressed 5 fuel p0 w0)
        as (p' & w' & E & H1 & H2 & H3 & _).
      + lia.
      + reflexivity.
      + exact Hs.
      + reflexivity.
      + unfold level_age. change (Z.of_nat 5) with 5.
        pose proof (Z.mod_pos_bound (clock w0 mod ULONG - tLast p0) ULONG).
        lia.
      + rewrite Hc0. change (Z.of_nat 5) with 5. intros t Ht. apply Hpin. lia.
      + exists p', w'. split; [exact E|].
        rewrite Hc0 in H3. change (Z.of_nat 5) with 5 in H3.
        repeat split; try assumption; lia. }
  destruct Hfin as (p' & w' & E & H1 & H2 & H3).
  rewrite E. unfold bind. cbn.
  eexists _, _. split; [reflexivity|]. cbn [clock]. auto.
Qed.

Lemma waitForStartAfterStop_held (fuel : nat) (p : Panel) (w : World) :
  stable p = false ->
  (forall t, clock w <= t -> start_pin t = false) ->
  waitForStartAfterStop env start_pin fuel p w = None.
Proof.
  intros Hs Hpin.
  unfold waitForStartAfterStop. unfold bind at 1 2 3 4 5. cbn.
  rewrite wait_loop_held; [reflexivity|reflexivity|exact Hs|exact Hpin].
Qed.

(** *** The main loop *)

Lemma wp_and {A} (c : M A) (Q1 Q2 : A -> World -> Prop) w :
  wp c Q1 w -> wp c Q2 w -> wp c (fun a w' => Q1 a w' /\ Q2 a w') w.
Proof. intros H1 H2 a w' E. split; [apply H1|apply H2]; exact E. Qed.

Lemma twp_read_stopReq (Q : bool -> World -> Prop) (w : World) :
  Q (stopReq w) w -> twp read_stopReq Q w.
Proof. intros H. exists (stopReq w), w. split; [reflexivity|exact H]. Qed.

Lemma only_route_trans (a b c : World) :
  only_route a b -> only_route b c -> only_route a c.
Proof.
  intros (l1 & H1 & F1) (l2 & H2 & F2). exists (l2 ++ l1). split.
  - exact (issued_trans _ _ _ _ _ H1 H2).
  - apply Forall_app. split; assumption.
Qed.

Lemma only_route_stop (a b : World) : issued a b [(Stop, 0)] -> only_route a b.
Proof.
  intros H. exists [(Stop, 0)]. split; [exact H|].
  repeat constructor.
Qed.

Lemma only_route_nil (a b : World) : issued a b [] -> only_route a b.
Proof. intros H. exists []. split; [exact H|constructor]. Qed.

Lemma halt_safe (fW : nat) (p : Panel) (last : Z) (w : World) :
  wp (halt env start_pin fW p last)
     (fun r w' => runEnabled (fst r) = true /\ stopped w' /\ only_route w w') w.
Proof.
  unfold halt. apply wp_bind.
  eapply wp_mono; [apply waitForStartAfterStop_safe|].
  cbv beta. intros p' w' (H1 & H2 & H3). apply wp_ret.
  split; [exact H1|]. split; [exact H2|apply only_route_stop; exact H3].
Qed.

Lemma legs_safe (fF fR fW : nat) (n : nat) :
  forall (p : Panel) (last : Z) (w : World),
    runEnabled p = true ->
    n <> 0%nat \/ stopped w ->
    wp (legs env start_pin fF fR fW n p last)
       (fun r w' => runEnabled (fst r) = true /\ stopped w' /\ only_route w w') w.
Proof.
  induction n as [|n IH]; intros p last w Hp Hpre.
  - destruct Hpre as [Hn|Hst]; [congruence|].
    cbn [legs]. apply wp_bind_twp.
    apply twp_smartDelay; [small_ms| |]; intros w1 Hd; cbn [negb].
    + apply wp_ret. unpack. split; [exact Hp|]. split.
      * solve_stopped.
      * apply only_route_nil. assumption.
    + eapply wp_mono; [apply halt_safe|].
      cbv beta. intros r wf (H1 & H2 & H3). unpack.
      split; [exact H1|]. split; [exact H2|].
      eapply only_route_trans; [apply only_route_stop; eassumption|exact H3].
  - cbn [legs]. apply wp_bind.
    eapply wp_mono; [apply Forw_safe|].
    cbv beta. intros last1 w1 (Hst1 & _ & Hr1).
    fold (only_route w w1) in Hr1.
    assert (Hfw : forall l, Forall forward_command l -> Forall route_command l).
    { apply Forall_impl. intros m Hm. left. exact Hm. }
    assert (Hr1' : only_route w w1).
    { destruct Hr1 as (l & Hi & Hf). exists l. split; [exact Hi|auto]. }
    apply wp_bind_twp, twp_read_stopReq.
    destruct (stopReq w1).
    + eapply wp_mono; [apply halt_safe|].
      cbv beta. intros r wf (H1 & H2 & H3).
      split; [exact H1|]. split; [exact H2|].
      exact (only_route_trans _ _ _ Hr1' H3).
    + apply wp_bind.
      eapply wp_mono;
        [apply wp_and; [apply Rotate_exits|apply Rotate_commands]|].
      cbv beta. intros b w2 ((Hst2 & _) & l2 & Hi2 & Hf2).
      assert (Hr2 : only_route w w2).
      { apply (only_route_trans _ _ _ Hr1'). exists l2. split; [exact Hi2|].
        revert Hf2. apply Forall_impl. intros m Hm. right. exact Hm. }
      apply wp_bind_twp, twp_read_stopReq.
      destruct (stopReq w2).
      * eapply wp_mono; [apply halt_safe|].
        cbv beta. intros r wf (H1 & H2 & H3).
        split; [exact H1|]. split; [exact H2|].
        exact (only_route_trans _ _ _ Hr2 H3).
      * eapply wp_mono; [apply IH; [exact Hp|right; exact Hst2]|].
        cbv beta. intros r wf (H1 & H2 & H3).
        split; [exact H1|]. split; [exact H2|].
        exact (only_route_trans _ _ _ Hr2 H3).
Qed.

Lemma loop_safe (fF fR fW : nat) (p : Panel) (last : Z) (w : World) :
  wp (loop env start_pin fF fR fW p last)
     (fun r w' =>
        if runEnabled p
        then runEnabled (fst r) = true /\ stopped w' /\ only_route w w'
        else same_pins w w' /\ log w' = log w /\ clock w' = clock w + 10) w.
Proof.
  unfold loop. destruct (runEnabled p) eqn:Hp; cbn [negb].
  - apply wp_bind_twp, twp_read_stopReq.
    destruct (stopReq w).
    + apply halt_safe.
    + apply legs_safe; [exact Hp|left; discriminate].
  - intros r w' E. unfold bind, poll_button, delay, elapse, ret in E.
    inversion E; subst. unfold same_pins. cbn. auto 10.
Qed.

End Button.

(** *** How soon [Rotate] obeys the STOP button *)

Section Pressed.

(** STOP is pressed at instant [ts]. *)
Variable ts : Z.
Hypothesis pressed : stop_time env = Some ts.

Lemma twp_shouldStopNow_late (Q : bool -> World -> Prop) (w : World) :
  synced ts w ->
  (stopReq w = true -> forall w', stop_outcome w w' -> Q true w') ->
  (clock w < ts -> Q false w) ->
  twp shouldStopNow Q w.
Proof.
  intros Hs Hset Hclr. apply twp_shouldStopNow; [exact Hset|].
  intros Hoff. apply Hclr.
  destruct (Z.lt_ge_cases (clock w) ts) as [Hlt|Hge]; [exact Hlt|].
  rewrite (Hs Hge) in Hoff. discriminate.
Qed.

Lemma elapse_synced (w : World) (d : Z) (f : bool) :
  synced ts w ->
  f = stopReq w || isr_fires env (clock w) d ->
  ts <= clock w + d -> f = true.
Proof.
  intros Hs -> Hle. unfold isr_fires. rewrite pressed.
  destruct (Z.lt_ge_cases (clock w) ts) as [Hlt|Hge].
  - apply orb_true_iff. right. apply andb_true_iff. split.
    + apply Z.ltb_lt. exact Hlt.
    + apply Z.leb_le. exact Hle.
  - rewrite (Hs Hge). reflexivity.
Qed.

Lemma twp_mpu_update_late (Q : unit -> World -> Prop) (w : World) :
  synced ts w ->
  (forall w', update_outcome env w w' -> synced ts w' -> Q tt w') ->
  twp (mpu_update env) Q w.
Proof.
  intros Hs HQ. apply twp_mpu_update. intros w' Hout. apply HQ; [exact Hout|].
  destruct Hout as (Hc & Hf & _). intros Hle. rewrite Hc in Hle.
  exact (elapse_synced w _ _ Hs Hf Hle).
Qed.

Lemma smartDelay_loop_late (t0 ms : Z) (fuel : nat) :
  forall (w : World) (ok : bool) (w' : World),
    synced ts w ->
    smartDelay_loop env fuel t0 ms w = Some (ok, w') ->
    synced ts w' /\
    (ok = false -> clock w' <= Z.max (clock w) (ts + 1)) /\
    (ok = true -> clock w' = clock w \/ clock w' <= ts + 1).
Proof.
  induction fuel as [|f IH]; intros w ok w' Hs E; [discriminate|].
  cbn [smartDelay_loop] in E. unfold bind at 1 in E. unfold millis at 1 in E.
  destruct ((clock w mod ULONG - t0) mod ULONG <? ms).
  - unfold bind at 1 in E. destruct (stopReq w) eqn:Es.
    + destruct (shouldStopNow_set w Es) as (w1 & E1 & Hs1 & Hc1 & _).
      rewrite E1 in E. inversion E; subst ok w'.
      split; [intros _; exact Hs1|]. split; [lia|discriminate].
    + rewrite (shouldStopNow_clear w Es) in E.
      assert (Hlt : clock w < ts).
      { destruct (Z.lt_ge_cases (clock w) ts) as [Hlt|Hge]; [exact Hlt|].
        rewrite (Hs Hge) in Es. discriminate. }
      unfold delay, elapse in E. unfold bind at 1 in E.
      match type of E with smartDelay_loop env f _ ms ?w1 = _ =>
        destruct (IH w1 ok w') as (H1 & H2 & H3); [|exact E|]
      end.
      * intros Hle. cbn [clock stopReq] in *.
        exact (elapse_synced w 2 _ Hs eq_refl Hle).
      * cbn [clock] in *. split; [exact H1|]. split.
        -- intros Hok. specialize (H2 Hok). lia.
        -- intros Hok. specialize (H3 Hok). right. lia.
  - inversion E; subst ok w'. split; [exact Hs|]. split; [discriminate|].
    intros _. left. reflexivity.
Qed.

Lemma twp_smartDelay_late (ms : Z) (Q : bool -> World -> Prop) (w : World) :
  0 < ms <= ULONG - 2 ->
  synced ts w ->
  (forall w', delay_done ms w w' -> synced ts w' -> clock w' <= ts + 1 ->
              Q true w') ->
  (forall w', delay_cut ms w w' -> clock w' <= Z.max (clock w) (ts + 1) ->
              Q false w') ->
  twp (smartDelay env ms) Q w.
Proof.
  intros Hms Hs Hdone Hcut.
  destruct (smartDelay_spec ms w ltac:(lia))
    as (ok & w' & E & Hss & Hc & _ & Hf & Ht & _).
  pose proof E as E2. unfold smartDelay, smartDelay_fuel, bind in E2.
  unfold millis at 1 in E2.
  apply (smartDelay_loop_late _ _ _ _ _ _ Hs) in E2.
  destruct E2 as (Hs' & Hlf & Hlt).
  exists ok, w'. split; [exact E|]. destruct ok.
  - destruct (Ht eq_refl) as ((D1 & D2 & D3 & D4 & D5) & Hclk).
    apply Hdone; [|exact Hs'|destruct (Hlt eq_refl); lia].
    unfold delay_done, same_pins. repeat (split; try assumption; try lia).
    exists []. split; [exact D5|reflexivity].
  - destruct (Hf eq_refl) as (F1 & F2 & F3 & F4).
    apply Hcut; [|exact (Hlf eq_refl)].
    unfold delay_cut. repeat (split; try assumption; try lia).
    exists stop_entries. split; [exact F3|reflexivity].
Qed.

(** The fact that the flag follows the button is carried from world to
    world. *)
Ltac sync_down :=
  repeat match goal with
  | H : synced ts ?a, Hc : clock ?b = clock ?a, Hs : stopReq ?b = stopReq ?a |- _ =>
      lazymatch goal with
      | _ : synced ts b |- _ => fail
      | _ => assert (synced ts b)
               by (unfold synced in *; rewrite Hc, Hs; exact H)
      end
  | Hs : stopReq ?b = true |- _ =>
      lazymatch goal with
      | _ : synced ts b |- _ => fail
      | _ => assert (synced ts b) by (intros _; exact Hs)
      end
  end.

Ltac small_pos := vm_compute; split; [reflexivity|discriminate].

Ltac late_step :=
  unpack; sync_down;
  lazymatch goal with
  | |- twp (bind _ _) _ _ => apply twp_bind
  | |- twp shouldStopNow _ _ =>
      apply twp_shouldStopNow_late; [assumption | intros ? ? ? | intros ?]
  | |- twp (mpu_update _) _ _ =>
      apply twp_mpu_update_late; [assumption | intros ? ? ?]
  | |- twp (smartDelay _ _) _ _ =>
      apply twp_smartDelay_late;
      [small_pos | assumption | intros ? ? ? ? | intros ? ? ?]
  | |- twp (wait_or_abort _ _ _) _ _ => unfold wait_or_abort
  | _ => twp_step
  end; cbv beta zeta; cbn [negb].

Ltac late_leaf := unpack; sync_down; split; [assumption|lia].

Ltac wp_late :=
  unpack; sync_down;
  lazymatch goal with
  | |- wp (bind _ _) _ _ => apply wp_bind
  | |- wp (ret _) _ _ => apply wp_ret
  | |- wp (call_norm180 _ _) _ _ =>
      let e := fresh "err" in
      let H := fresh "Herr" in
      apply wp_call_norm180; intros e H
  | |- wp (wait_or_abort _ _ _) _ _ => unfold wait_or_abort
  | |- wp (if ?b then _ else _) _ _ => destruct b eqn:?
  | |- wp (match ?r with _ => _ end) _ _ => destruct r eqn:?
  | |- wp ?c _ _ => is_prim c; apply twp_wp; late_step
  end; cbv beta zeta; cbn [negb].

Lemma micro_steps_late (nf : nat) (target : Q) (cmdMain cmdOpp : Z) (o : bool)
    (n : nat) :
  0 <= update_ms env ->
  forall w,
    synced ts w ->
    wp (micro_steps env nf target cmdMain cmdOpp n o)
       (fun _ w' => synced ts w' /\
                    clock w' <= Z.max (clock w) (ts + 1 + update_ms env)) w.
Proof.
  intros Hu. induction n as [|n IH]; intros w Hs.
  - apply wp_ret. split; [exact Hs|lia].
  - cbn [micro_steps].
    repeat wp_late; try solve [late_leaf].
    unpack; sync_down.
    eapply wp_mono; [apply IH; assumption|].
    cbv beta. intros _ wf (Hsf & Hcf). split; [exact Hsf|lia].
Qed.

Lemma loop_body_late (nf : nat) (target : Q) (t0 sign0 cmdMain cmdOpp : Z)
    (o : bool) (c d : Z) (w : World) :
  0 <= update_ms env ->
  synced ts w ->
  wp (loop_body env nf target t0 sign0 cmdMain cmdOpp o c d)
     (fun _ w' => synced ts w' /\
                  clock w' <= Z.max (clock w) (ts + 1 + update_ms env)) w.
Proof.
  intros Hu Hs. unfold loop_body.
  repeat wp_late; try solve [late_leaf].
  unpack; sync_down.
  eapply wp_mono; [apply (micro_steps_late nf target cmdMain cmdOpp _ _ Hu);
                   assumption|].
  cbv beta. intros r wf (Hsf & Hcf).
  destruct r as [b|]; repeat wp_late; late_leaf.
Qed.

Lemma rotate_loop_late (nf : nat) (target : Q) (t0 sign0 cmdMain cmdOpp : Z)
    (fuel : nat) :
  0 <= update_ms env ->
  forall (o : bool) (c d : Z) (w : World) (b : bool) (w' : World),
    synced ts w ->
    rotate_loop env nf target t0 sign0 cmdMain cmdOpp fuel o c d w
      = Some (b, w') ->
    clock w' <= Z.max (clock w) (ts + 1 + update_ms env).
Proof.
  intros Hu. induction fuel as [|f IH]; intros o c d w b w' Hs E; [discriminate|].
  cbn [rotate_loop] in E. unfold bind in E.
  destruct (loop_body env nf target t0 sign0 cmdMain cmdOpp o c d w)
    as [[r w1]|] eqn:Er; [|discriminate E].
  destruct (loop_body_late nf target t0 sign0 cmdMain cmdOpp o c d w Hu Hs
              r w1 Er) as (Hs1 & Hc1).
  destruct r as [b1|o1 c1 d1].
  - inversion E; subst. exact Hc1.
  - pose proof (IH o1 c1 d1 w1 b w' Hs1 E). lia.
Qed.

Lemma Rotate_late (fuel : nat) (phi : Q) (w : World) :
  0 <= update_ms env ->
  synced ts w ->
  wp (Rotate env fuel phi)
     (fun _ w' => clock w' <= Z.max (clock w) (ts + 1 + update_ms env)) w.
Proof.
  intros Hu Hs. unfold Rotate.
  repeat wp_late; unpack; sync_down; try lia.
  intros b wf E.
  lazymatch type of E with
  | rotate_loop _ _ _ _ _ _ _ _ _ _ _ ?wk = _ =>
      assert (Hk : synced ts wk) by assumption;
      pose proof (rotate_loop_late _ _ _ _ _ _ _ Hu _ _ _ _ _ _ Hk E)
  end.
  lia.
Qed.

Lemma warm_up_late (n : nat) :
  forall w,
    synced ts w ->
    twp (warm_up env n)
        (fun _ w' => synced ts w' /\ clock w' <= Z.max (clock w) (ts + 1)) w.
Proof.
  induction n as [|n IH]; intros w Hs.
  - apply twp_ret. split; [exact Hs|lia].
  - cbn [warm_up].
    repeat late_step; try solve [late_leaf].
    unpack; sync_down.
    eapply twp_mono; [apply IH; assumption|].
    cbv beta. intros _ wf (Hsf & Hcf). split; [exact Hsf|lia].
Qed.

Ltac late_forw :=
  unpack; sync_down;
  lazymatch goal with
  | |- twp (debugForw _ _) _ _ => apply twp_debugForw; intros ? ? ?
  | |- twp (warm_up _ _) _ _ =>
      eapply twp_mono;
      [apply warm_up_late; assumption | cbv beta; intros ? ? ?]
  | _ => late_step
  end; cbv beta zeta; cbn [negb].

Ltac wp_late_forw :=
  unpack; sync_down;
  lazymatch goal with
  | |- wp (bind _ _) _ _ => apply wp_bind_twp; late_forw
  | |- wp (ret _) _ _ => apply wp_ret
  | |- wp (if ?b then _ else _) _ _ => destruct b eqn:?
  end; cbv beta zeta; cbn [negb].

Lemma forw_loop_late (start T : Z) (fuel : nat) :
  0 <= update_ms env ->
  forall (last : Z) (w : World),
    synced ts w ->
    wp (forw_loop env fuel start T last)
       (fun _ w' => synced ts w' /\
                    clock w' <= Z.max (clock w) (ts + 1 + update_ms env)) w.
Proof.
  intros Hu. induction fuel as [|f IH]; intros last w Hs;
    [intros r w' E; discriminate|].
  cbn [forw_loop].
  repeat wp_late_forw; try solve [late_leaf].
  unpack; sync_down.
  eapply wp_mono; [apply IH; assumption|].
  cbv beta. intros _ wf (Hsf & Hcf). split; [exact Hsf|lia].
Qed.

Lemma Forw_late (fuel : nat) (time_ms : Q) (last : Z) (w : World) :
  0 <= update_ms env ->
  synced ts w ->
  wp (Forw env fuel time_ms last)
     (fun _ w' => synced ts w' /\
                  clock w' <= Z.max (clock w) (ts + 1 + update_ms env)) w.
Proof.
  intros Hu Hs. unfold Forw.
  repeat wp_late_forw; try solve [late_leaf].
  unpack; sync_down.
  apply wp_bind. eapply wp_mono; [apply (forw_loop_late _ _ _ Hu); assumption|].
  cbv beta. intros r wf (Hsf & Hcf).
  destruct r as [last'|]; repeat wp_late_forw; late_leaf.
Qed.

End Pressed.

End WithEnv.

Lemma stop_issued_log (w w' : World) :
  stop_issued w w' ->
  exists pre, log w' = pre ++ log w /\ hd_error (motors pre) = Some (Stop, 0).
Proof.
  intros (l & pre & E & M). exists pre. split; [exact E|].
  rewrite M. reflexivity.
Qed.

(** *** Worked runs *)

(** A sensor that never moves: [Rotate(90)] drives in the far zone until
    the 9000 ms ceiling, reports the timeout and returns [false] with the
    motors stopped. *)
Example Rotate_times_out :
  exists w',
    Rotate Scenario.calm enough_fuel 90 Scenario.boot = Some (false, w') /\
    stopReq w' = false /\ 9000 < clock w' - 1 /\
    hd_error (log w') = Some (EvEnable false) /\
    hd_error (motors (log w')) = Some (Stop, 0) /\
    In (EvSerial "Rotate timeout") (log w') /\
    pwm1 w' = 0 /\ latch w' = Stop /\ en_pin w' = HIGH.
Proof.
  eexists. split; [vm_compute; reflexivity|].
  cbn. repeat split; auto.
Qed.

(** The overshooting turn: right turns until the reading passes the target
    by more than 6 degrees, left turns only from then on, whatever the sign
    of the error, and success after ten readings within tolerance. *)
Example Rotate_overshoot_run :
  exists w',
    Rotate Scenario.swinging 30 90 Scenario.boot = Some (true, w') /\
    updates w' = 18%nat /\
    rev (motors (log w')) =
      [ (RotateRight, 200); (Stop, 0);      (* startup kick *)
        (RotateRight, 200);                 (* -50: far zone *)
        (RotateLeft, 180); (RotateLeft, 175); (Stop, 0);   (* -100: near *)
        (RotateLeft, 180); (RotateLeft, 175); (Stop, 0);   (* -95: micro *)
        (Stop, 0); (Stop, 0); (Stop, 0); (Stop, 0); (Stop, 0);
        (Stop, 0); (Stop, 0); (Stop, 0); (Stop, 0); (Stop, 0) ].
Proof.
  eexists. split; [vm_compute; reflexivity|].
  split; reflexivity.
Qed.

(** The target of [Rotate(90)] is not -91.8: the float nearest to 1.02 is
    a little below it, and so is the product. *)
Example target_90_value :
  (Scenario.target_90 == - (12032409 # 131072))%Q /\
  (- (918 # 10) < Scenario.target_90)%Q.
Proof. split; vm_compute; reflexivity. Qed.

(** A commanded angle of 1e10 degrees: the first error of [Rotate] is
    about -1.02e10, adding 360 to it rounds back to the number itself, and
    [norm180] never returns, whatever the fuel. *)
Example huge_angle_never_settles (fuel : nat) :
  error_of fuel (rotate_target Scenario.calm 10000000000 Scenario.boot)
    (heading Scenario.calm 1) = None.
Proof.
  unfold error_of.
  assert (Hv : exists v,
            fsub (rotate_target Scenario.calm 10000000000 Scenario.boot)
                 (heading Scenario.calm 1) = v /\
            Qltb 180 v = false /\ Qltb v (-180) = true /\ fadd v 360 = v).
  { eexists. split; [vm_compute; reflexivity|]. vm_compute. auto. }
  destruct Hv as (v & -> & H1 & H2 & H3).
  unfold norm180. destruct fuel as [|f]; [reflexivity|].
  cbn [wrap_down]. rewrite H1.
  generalize (S f). intros n. induction n as [|n IH]; [reflexivity|].
  cbn [wrap_up]. rewrite H2, H3. exact IH.
Qed.

(** *** The claims about [Rotate] *)

(** C1 (as stated, refuted): a heading within tolerance of the target when
    [Rotate] is called does not make the call succeed.  Commanded angle 0,
    first reading 0, so the heading is on the target at call time; the
    sensor reads 50 from then on, the counter never leaves zero and the
    call returns [false] at the 9000 ms ceiling. *)
Lemma Rotate_drifts_out :
  in_tolerance enough_fuel (rotate_target Scenario.drifting 0 Scenario.boot)
    (heading Scenario.drifting (updates Scenario.boot)) = true /\
  exists w',
    Rotate Scenario.drifting enough_fuel 0 Scenario.boot = Some (false, w') /\
    stopReq w' = false.
Proof.
  split; [vm_compute; reflexivity|].
  eexists. split; [vm_compute; reflexivity|reflexivity].
Qed.

(** C1 (amended): the stability counter of [Rotate].
    (1) Judged by the reading [ae] it takes, a pass through the loop body
    that ends in [return true] had a reading within tolerance and a counter
    that has reached [STABLE_CNT]; a pass that goes on to the next one has,
    on a reading within tolerance, stopped the motors and incremented the
    counter (still below [STABLE_CNT]) and, on a reading outside tolerance,
    reset the counter to zero.
    (2) A pass returns as soon as [norm180] returns on the readings.
    (3) Whenever [Rotate] returns [true], the last [STABLE_CNT] readings
    of the sensor were all within tolerance of the target, the motors are
    stopped and the last actuator command of the call is [Motor(Stop, 0)].
    (4) If the heading is within tolerance of the target when [Rotate] is
    called and at every later reading, STOP is not pressed and a sensor
    refresh takes at most 500 ms, then [Rotate] returns [true] after exactly
    [STABLE_CNT] readings in the loop (the two readings before the loop
    not counted). *)
Theorem Rotate_stable_count (env : Env) (phi : Q) (w : World) :
  (forall nf target t0 sign0 cmdMain cmdOpp o c d wi r w',
     loop_body env nf target t0 sign0 cmdMain cmdOpp o c d wi = Some (r, w') ->
     match r with
     | Return true =>
         in_tolerance nf target (heading env (updates wi)) = true /\
         STABLE_CNT <= c + 1 /\ updates w' = S (updates wi)
     | Return false => True
     | Continue o' c' d' =>
         if in_tolerance nf target (heading env (updates wi))
         then c' = c + 1 /\ c' < STABLE_CNT /\
              updates w' = S (updates wi) /\ stopped w'
         else c' = 0
     end) /\
  (forall nf target t0 sign0 cmdMain cmdOpp o c d wi,
     settles env nf target ->
     exists r w',
       loop_body env nf target t0 sign0 cmdMain cmdOpp o c d wi
         = Some (r, w')) /\
  (forall fuel w',
     Rotate env fuel phi w = Some (true, w') ->
     last_in_tolerance env fuel (rotate_target env phi w) (updates w')
       (Z.to_nat STABLE_CNT) /\
     stopped w' /\
     exists pre, log w' = pre ++ log w /\
                 hd_error (motors pre) = Some (Stop, 0)) /\
  (stop_time env = None ->
   stopReq w = false ->
   0 <= update_ms env <= 500 ->
   forall fuel, (Z.to_nat STABLE_CNT <= fuel)%nat ->
   (forall n, (updates w <= n)%nat ->
      in_tolerance fuel (rotate_target env phi w) (heading env n) = true) ->
   exists w',
     Rotate env fuel phi w = Some (true, w') /\
     updates w' = (updates w + 2 + Z.to_nat STABLE_CNT)%nat).
Proof.
  split; [|split; [|split]].
  - intros nf target t0 sign0 cmdMain cmdOpp o c d wi r w' E.
    exact (loop_body_count env nf target t0 sign0 cmdMain cmdOpp o c d wi
             r w' E).
  - intros nf target t0 sign0 cmdMain cmdOpp o c d wi Hset.
    destruct (loop_body_returns env nf target t0 sign0 cmdMain cmdOpp o c d wi
                Hset) as (r & w' & E & _).
    exists r, w'. exact E.
  - intros fuel w' E.
    pose proof (Rotate_stable env fuel phi w true w' E eq_refl) as Hs.
    pose proof (Rotate_exits env fuel phi w true w' E) as (Hst & Hi & _).
    split; [exact Hs|]. split; [exact Hst|].
    apply stop_issued_log. exact Hi.
  - intros Hnone Hclr Hu fuel Hfuel Hall.
    apply (Rotate_settles env Hnone fuel phi w Hu Hfuel Hclr Hall).
Qed.

Lemma Rotate_stable_count_witness :
  exists w',
    Rotate Scenario.calm 10 0 Scenario.boot = Some (true, w') /\
    updates w' = 12%nat.
Proof.
  destruct (Rotate_stable_count Scenario.calm 0 Scenario.boot)
    as (_ & _ & _ & H).
  apply (H eq_refl eq_refl).
  - cbn. lia.
  - cbn. lia.
  - intros n _. vm_compute. reflexivity.
Defined.

(** C2: the overshoot latch of [Rotate].
    (1) The latch is set and obeyed.  A pass made with the stop flag down
    and before the timeout, whose reading [err] has a sign other than
    [sign0] and a magnitude above [OVERSHOOT_DEG], returns; its first
    [Motor] call is a turn with [cmdOpp], and it goes on to the next pass
    with [overshot] set and [cmdOpp] as command, unless STOP cuts one of
    its waits short.
    (2) The micro zone obeys the latch.  A pass made with [overshot] set on
    a reading in the micro zone, followed by a reading out of tolerance,
    gives [Motor(cmdOpp, FINE_PWM)] as its first command, whatever the
    sign of the error.
    (3) The latch is never cleared: at the top of every later pass of the
    invocation [overshot] is set.
    (4) From the pass that sets the latch to the end of the invocation,
    every [Motor] call is either a turn with [cmdOpp] or [Motor(Stop, 0)],
    in every zone and whatever the later readings are. *)
Theorem overshoot_latch (env : Env) (nf : nat) (target : Q)
    (t0 sign0 cmdMain cmdOpp : Z) :
  (forall o c d w,
     stopReq w = false ->
     (TIMEOUT_MS <? ((clock w + update_ms env) mod ULONG - t0) mod ULONG)
       = false ->
     flipped nf target sign0 (heading env (updates w)) = true ->
     exists r w',
       loop_body env nf target t0 sign0 cmdMain cmdOpp o c d w = Some (r, w') /\
       (exists p, first_command w w' (cmdOpp, p) /\
                  In p [FINE_PWM; MID_PWM; FAST_PWM]) /\
       (r = Continue true 0 cmdOpp \/
        (r = Return false /\ stopReq w' = true))) /\
  (forall c d w e1,
     settles env nf target ->
     stopReq w = false ->
     isr_fires env (clock w) (update_ms env) = false ->
     (TIMEOUT_MS <? ((clock w + update_ms env) mod ULONG - t0) mod ULONG)
       = false ->
     error_of nf target (heading env (updates w)) = Some e1 ->
     (ANGLE_TOL < Qabs e1)%Q -> (Qabs e1 < 6)%Q ->
     in_tolerance nf target (heading env (S (updates w))) = false ->
     exists r w',
       loop_body env nf target t0 sign0 cmdMain cmdOpp true c d w
         = Some (r, w') /\
       first_command w w' (cmdOpp, FINE_PWM) /\
       (r = Continue true 0 cmdOpp \/
        (r = Return false /\ stopReq w' = true))) /\
  (forall o c d w o' c' d' w',
     o = true \/ flipped nf target sign0 (heading env (updates w)) = true ->
     later_pass env nf target t0 sign0 cmdMain cmdOpp
       (o, c, d, w) (o', c', d', w') ->
     o' = true) /\
  (forall fuel o c d w b w',
     o = true \/ flipped nf target sign0 (heading env (updates w)) = true ->
     rotate_loop env nf target t0 sign0 cmdMain cmdOpp fuel o c d w
       = Some (b, w') ->
     exists pre,
       log w' = pre ++ log w /\
       Forall (fun m => fst m = cmdOpp \/ m = (Stop, 0)) (motors pre)).
Proof.
  split; [|split; [|split]].
  - intros o c d w Hclr Hto Hf.
    destruct (loop_body_flips env nf target t0 sign0 cmdMain cmdOpp o c d w
                Hclr Hto Hf) as (r & w' & E & H1 & H2).
    exists r, w'. split; [exact E|]. split; assumption.
  - intros c d w e1 Hset Hclr Hisr Hto He Hlo Hhi Htol.
    destruct (loop_body_latched_micro env nf target t0 sign0 cmdMain cmdOpp
                c d w e1 Hset Hclr Hisr Hto He Hlo Hhi Htol)
      as (r & w' & E & H1 & H2).
    exists r, w'. split; [exact E|]. split; assumption.
  - intros o c d w o' c' d' w' Hl Hp.
    apply (later_pass_latched env nf target t0 sign0 cmdMain cmdOpp _ _ Hp Hl).
  - intros fuel o c d w b w' Hl E.
    destruct (rotate_loop_latch env nf target t0 sign0 cmdMain cmdOpp fuel
                o c d w b w' Hl E) as (l & (pre & Elog & M) & Hf).
    exists pre. split; [exact Elog|]. rewrite M. exact Hf.
Qed.

Lemma overshoot_latch_witness :
  exists r w',
    loop_body Scenario.swinging 20 Scenario.target_90 1 (-1)
      RotateRight RotateLeft false 0 RotateRight Scenario.past_target
      = Some (r, w') /\
    (exists p, first_command Scenario.past_target w' (RotateLeft, p)) /\
    (r = Continue true 0 RotateLeft \/
     (r = Return false /\ stopReq w' = true)).
Proof.
  destruct (overshoot_latch Scenario.swinging 20 Scenario.target_90 1 (-1)
              RotateRight RotateLeft) as (H & _).
  destruct (H false 0 RotateRight Scenario.past_target)
    as (r & w' & E & (p & Hp & _) & Hr).
  - reflexivity.
  - vm_compute. reflexivity.
  - vm_compute. reflexivity.
  - exists r, w'. split; [exact E|]. split; [exists p; exact Hp|exact Hr].
Defined.

(** C3: the exits of [Rotate].
    (1) Whenever [Rotate] returns, the motors are stopped and disabled and
    the last actuator command of the call is [Motor(Stop, 0)]; if it
    returns [true] the last reading is within tolerance of the target and
    the 9000 ms ceiling has not been passed (convergence); if it returns
    [false] either the stop flag is set (stop request) or more than 9000 ms
    have elapsed since the call (timeout).
    (2) A stop request is an exit: called with the flag set, [Rotate]
    returns [false] at once, with the motors stopped and no angle read; and
    so does every pass of the loop entered with the flag set.
    (3) The timeout is an exit: a pass entered with the flag down that
    finds the ceiling passed after its reading stops the motors and returns
    [false].
    (4) Convergence is an exit: with no STOP pressed, a pass entered before
    the ceiling whose reading is within tolerance and brings the counter to
    [STABLE_CNT] returns [true].
    (5) [Rotate] does return, within [enough_fuel] passes of its loop, when
    a sensor refresh takes between 1 and 1000 ms, the commanded angle is at
    most [2^18] degrees and the readings are at most [2^19] degrees in
    magnitude. *)
Theorem Rotate_three_exits (env : Env) (phi : Q) (w : World) :
  (forall fuel b w',
     Rotate env fuel phi w = Some (b, w') ->
     stopped w' /\
     (exists pre, log w' = pre ++ log w /\
                  hd_error (motors pre) = Some (Stop, 0)) /\
     (b = true ->
        in_tolerance fuel (rotate_target env phi w) (angleZ w') = true /\
        elapsed (rotate_t0 env w) w' <= TIMEOUT_MS) /\
     (b = false ->
        stopReq w' = true \/ TIMEOUT_MS < elapsed (rotate_t0 env w) w')) /\
  (stopReq w = true ->
   forall fuel,
   exists w',
     Rotate env fuel phi w = Some (false, w') /\
     stopped w' /\ clock w' = clock w /\ updates w' = updates w) /\
  (forall nf target t0 sign0 cmdMain cmdOpp o c d wi,
     stopReq wi = true ->
     exists w',
       loop_body env nf target t0 sign0 cmdMain cmdOpp o c d wi
         = Some (Return false, w') /\
       stopped w' /\ clock w' = clock wi /\ updates w' = updates wi) /\
  (forall nf target t0 sign0 cmdMain cmdOpp o c d wi,
     stopReq wi = false ->
     error_of nf target (heading env (updates wi)) <> None ->
     (TIMEOUT_MS <? ((clock wi + update_ms env) mod ULONG - t0) mod ULONG)
       = true ->
     exists w',
       loop_body env nf target t0 sign0 cmdMain cmdOpp o c d wi
         = Some (Return false, w') /\
       stopped w') /\
  (forall nf target t0 sign0 cmdMain cmdOpp o c d wi,
     stop_time env = None ->
     0 <= update_ms env ->
     stopReq wi = false ->
     in_tolerance nf target (heading env (updates wi)) = true ->
     (TIMEOUT_MS <? ((clock wi + update_ms env) mod ULONG - t0) mod ULONG)
       = false ->
     STABLE_CNT <= c + 1 ->
     exists w',
       loop_body env nf target t0 sign0 cmdMain cmdOpp o c d wi
         = Some (Return true, w')) /\
  (0 < update_ms env <= 1000 ->
   (Qabs phi <= inject_Z (2 ^ 18))%Q ->
   bounded_readings env ->
   forall fuel, (enough_fuel <= fuel)%nat ->
   exists b w', Rotate env fuel phi w = Some (b, w')).
Proof.
  split; [|split; [|split; [|split; [|split]]]].
  - intros fuel b w' E.
    pose proof (Rotate_exits env fuel phi w b w' E) as (Hst & Hi & Hb).
    split; [exact Hst|]. split; [apply stop_issued_log; exact Hi|].
    split; intros ->; exact Hb.
  - intros Hs fuel.
    destruct (Rotate_stop_at_entry env fuel phi w Hs)
      as (w' & E & _ & Hc & Hst & (Hu & _) & _).
    exists w'. auto.
  - intros nf target t0 sign0 cmdMain cmdOpp o c d wi Hs.
    destruct (loop_body_stop env nf target t0 sign0 cmdMain cmdOpp o c d wi Hs)
      as (w' & E & _ & Hc & Hst & (Hu & _) & _).
    exists w'. auto.
  - intros nf target t0 sign0 cmdMain cmdOpp o c d wi Hclr Hdef Hto.
    destruct (loop_body_timeout env nf target t0 sign0 cmdMain cmdOpp o c d wi
                Hclr Hdef Hto) as (w' & E & Hst & _).
    exists w'. auto.
  - intros nf target t0 sign0 cmdMain cmdOpp o c d wi Hnone Hu Hclr Htol Hto Hc.
    destruct (loop_body_settled env Hnone nf target t0 sign0 cmdMain cmdOpp
                o c d wi Hu Hclr Htol Hto) as (r & w' & E & _ & _ & _ & Hr).
    exists w'. rewrite E. rewrite Hr.
    destruct (Z.leb_spec STABLE_CNT (c + 1)); [reflexivity|lia].
  - intros Hu Hphi Hb fuel Hfuel.
    apply (Rotate_total env fuel phi w Hu Hfuel).
    apply bounded_settles; assumption.
Qed.

Lemma Rotate_three_exits_witness :
  exists b w',
    Rotate Scenario.calm enough_fuel 90 Scenario.boot = Some (b, w') /\
    stopped w' /\
    (b = false ->
       stopReq w' = true \/
       TIMEOUT_MS < elapsed (rotate_t0 Scenario.calm Scenario.boot) w').
Proof.
  destruct (Rotate_three_exits Scenario.calm 90 Scenario.boot)
    as (Hex & _ & _ & _ & _ & Htot).
  destruct (Htot ltac:(cbn; lia)) with (fuel := enough_fuel) as (b & w' & E).
  - vm_compute. discriminate.
  - intros n. vm_compute. discriminate.
  - apply Nat.le_refl.
  - exists b, w'. split; [exact E|].
    destruct (Hex enough_fuel b w' E) as (Hst & _ & _ & Hf).
    split; [exact Hst|exact Hf].
Defined.

(** C4 (as stated, refuted).  Two calls that return [true] although the
    stop flag is set: a wait of 0 ms entered with the flag already set
    (the loop body, and so the check, is never reached), and a wait of 2 ms
    during whose single slice the interrupt fires (no check follows the
    last slice).  In both no stop command is issued. *)
Lemma smartDelay_misses_flag :
  (stopReq Scenario.halted = true /\
   smartDelay Scenario.calm 0 Scenario.halted = Some (true, Scenario.halted))
  /\
  (exists w',
     smartDelay (Scenario.pressed_at 1) 2 Scenario.boot = Some (true, w') /\
     stopReq w' = true /\ clock w' = 2 /\
     log w' = log Scenario.boot /\ en_pin w' = en_pin Scenario.boot).
Proof.
  split.
  - split; reflexivity.
  - eexists. split; [vm_compute; reflexivity|]. repeat split.
Qed.

(** C4 (amended): [smartDelay] sleeps in slices of 2 ms and tests the stop
    flag before each slice, and only there.  For every duration it returns.
    It returns [false] exactly when one of those tests, made 0, 2, 4, ... ms
    into the wait and strictly before the requested duration, finds the
    flag set; it has then issued a full stop ([Motor(Stop, 0)]), disabled
    the enable line, and not completed the wait.  Otherwise it returns
    [true], at least the requested duration has elapsed and it has issued
    no actuator command. *)
Theorem smartDelay_checks_before_each_slice
    (env : Env) (ms : Z) (w : World) :
  0 <= ms <= ULONG - 2 ->
  exists ok w',
    smartDelay env ms w = Some (ok, w') /\
    (ok = false <->
       exists i, 0 <= i /\ 2 * i < ms /\ flag_at env w (clock w + 2 * i) = true) /\
    (ok = false ->
       stopReq w' = true /\
       pwm1 w' = 0 /\ pwm2 w' = 0 /\ latch w' = Stop /\ en_pin w' = HIGH /\
       log w' = [EvEnable false; EvEnable false; EvMotor Stop 0] ++ log w /\
       clock w' < clock w + ms) /\
    (ok = true ->
       clock w + ms <= clock w' /\
       log w' = log w /\
       pwm1 w' = pwm1 w /\ pwm2 w' = pwm2 w /\
       latch w' = latch w /\ en_pin w' = en_pin w).
Proof.
  intros Hms.
  destruct (smartDelay_spec env ms w Hms)
    as (ok & w' & E & _ & _ & _ & Hint & Hdone & Hiff).
  exists ok, w'. split; [exact E|]. split; [exact Hiff|]. split.
  - intros H. destruct (Hint H) as (H1 & (H2 & H3 & H4 & H5) & H6 & H7).
    auto 10.
  - intros H. destruct (Hdone H) as ((H1 & H2 & H3 & H4 & H5) & H6).
    auto 10.
Qed.

Lemma smartDelay_checks_witness :
  0 <= 25 <= ULONG - 2 /\
  exists ok w',
    smartDelay Scenario.calm 25 Scenario.boot = Some (ok, w') /\
    (ok = true -> clock Scenario.boot + 25 <= clock w').
Proof.
  assert (H : 0 <= 25 <= ULONG - 2) by (vm_compute; split; discriminate).
  split; [exact H|].
  destruct (smartDelay_checks_before_each_slice Scenario.calm 25 Scenario.boot H)
    as (ok & w' & E & _ & _ & Hd).
  exists ok, w'. split; [exact E|].
  intros Hok. apply Hd. exact Hok.
Defined.

End GyroFacts.

(** ** Proofs about the command engine *)

Module EngineFacts.
Import Engine EngineSpec.

Local Open Scope string_scope.
Local Open Scope Z_scope.

(** *** The parser *)

Lemma startsWithToken_cons (c t : ascii) (line tok : string) :
  startsWithToken (String c line) (String t tok) =
  Ascii.eqb c t && startsWithToken line tok.
Proof.
  unfold startsWithToken. cbn [startsWith String.length].
  destruct (Ascii.eqb c t); cbn [andb negb]; [|reflexivity].
  destruct (startsWith line tok); cbn [negb]; [|reflexivity].
  change (S (String.length line) =? S (String.length tok))%nat
    with (String.length line =? String.length tok)%nat.
  reflexivity.
Qed.

(** A line that starts with a token, as the parser understands it, has
    that token as its first token. *)
Lemma startsWithToken_first_token (tok : string) :
  no_blank tok = true ->
  forall line, startsWithToken line tok = true -> first_token line = tok.
Proof.
  induction tok as [|t tok IH]; intros Hnb line H.
  - unfold startsWithToken in H. cbn in H.
    destruct line as [|c r]; [reflexivity|].
    cbn in H. cbn [first_token]. unfold isblank. rewrite H. reflexivity.
  - cbn [no_blank] in Hnb. apply andb_true_iff in Hnb. destruct Hnb as (Ht & Hnb).
    destruct line as [|c r]; [discriminate H|].
    rewrite startsWithToken_cons in H. apply andb_true_iff in H.
    destruct H as (Hc & H). apply Ascii.eqb_eq in Hc. subst c.
    cbn [first_token]. apply negb_true_iff in Ht. rewrite Ht.
    f_equal. apply IH; assumption.
Qed.

Lemma parse_table_none (table : list CommandSpec) (line : string) :
  Forall (fun spec => no_blank (token spec) = true) table ->
  ~ In (first_token line) (map token table) ->
  parse_table table line = None.
Proof.
  induction table as [|spec rest IH]; intros Hnb Hnot; [reflexivity|].
  inversion Hnb as [|? ? Hs Hrest]; subst.
  cbn [parse_table]. destruct (startsWithToken line (token spec)) eqn:E.
  - exfalso. apply Hnot. left. symmetry.
    apply startsWithToken_first_token; assumption.
  - apply IH; [exact Hrest|]. intros Hin. apply Hnot. right. exact Hin.
Qed.

Lemma table_tokens_no_blank :
  Forall (fun spec => no_blank (token spec) = true) COMMAND_TABLE.
Proof. repeat constructor. Qed.

Lemma parse_skips (line : string) :
  trim line = "" \/ ~ In (first_token (trim line)) tokens ->
  parse line = None.
Proof.
  intros [He|Hnot]; unfold parse.
  - rewrite He. reflexivity.
  - destruct (String.length (trim line) =? 0)%nat; [reflexivity|].
    apply parse_table_none; [apply table_tokens_no_blank|exact Hnot].
Qed.

(** The converse: the first token of a line is found by the parser. *)
Lemma first_token_startsWithToken (tok : string) :
  forall line, first_token line = tok -> startsWithToken line tok = true.
Proof.
  induction tok as [|t tok IH]; intros line H.
  - destruct line as [|c r]; [reflexivity|].
    cbn [first_token] in H. unfold startsWithToken. cbn.
    unfold isblank in H. destruct (Ascii.eqb c " " || Ascii.eqb c "009");
      [reflexivity|discriminate H].
  - destruct line as [|c r]; [discriminate H|].
    cbn [first_token] in H. destruct (isblank c); [discriminate H|].
    inversion H; subst. rewrite startsWithToken_cons, Ascii.eqb_refl.
    apply IH. reflexivity.
Qed.

Lemma other_token_fails (line tok tok' : string) :
  no_blank tok' = true -> first_token line = tok -> tok <> tok' ->
  startsWithToken line tok' = false.
Proof.
  intros Hnb Hft Hne. destruct (startsWithToken line tok') eqn:E; [|reflexivity].
  exfalso. apply Hne. rewrite <- Hft.
  apply startsWithToken_first_token; assumption.
Qed.

Lemma digits_not_digit (c : ascii) (r : string) (acc : Z) (cnt : nat) :
  isdigit c = false -> digits (String c r) acc cnt = (acc, cnt, String c r).
Proof. intros H. cbn [digits]. rewrite H. reflexivity. Qed.

(** Text that does not start a number reads as 0. *)
Lemma toFloat_not_a_number (s : string) :
  not_a_number s = true -> toFloat s = Finite 0.
Proof.
  unfold not_a_number, toFloat.
  destruct (sign_prefix (ltrim s)) as (neg, s1).
  destruct (starts_nocase s1 "inf"); [discriminate|].
  destruct (starts_nocase s1 "nan"); [discriminate|]. cbn [orb].
  destruct s1 as [|c r]; [reflexivity|].
  destruct (isdigit c) eqn:Ed; [discriminate|].
  rewrite (digits_not_digit c r 0 0 Ed).
  destruct (Ascii.eqb c ".") eqn:Ep; [|reflexivity].
  destruct r as [|d r']; [reflexivity|].
  intros Hd. apply negb_true_iff in Hd.
  rewrite (digits_not_digit d r' 0 0 Hd). reflexivity.
Qed.

Lemma extractArgument_zero (line : string) :
  no_argument line -> extractArgument line = Finite 0.
Proof.
  unfold no_argument, extractArgument.
  destruct (indexOf line " ") as [p|]; [|reflexivity].
  apply toFloat_not_a_number.
Qed.

Lemma first_token_nonempty (line : string) :
  first_token line <> "" -> (String.length line =? 0)%nat = false.
Proof.
  destruct line; intros H; [|reflexivity].
  exfalso. apply H. reflexivity.
Qed.

Lemma parse_table_some (table : list CommandSpec) (line : string) :
  In (first_token line) (map token table) ->
  parse_table table line <> None.
Proof.
  induction table as [|spec rest IH]; intros Hin; [destruct Hin|].
  cbn [parse_table]. destruct (startsWithToken line (token spec)) eqn:E.
  - discriminate.
  - apply IH. destruct Hin as [Heq|Hin]; [|exact Hin].
    rewrite (first_token_startsWithToken (token spec) line) in E
      by (symmetry; exact Heq).
    discriminate E.
Qed.

(** Conversely, a line whose first token is in the table makes a command. *)
Lemma parse_known (line : string) :
  In (first_token (trim line)) tokens -> parse line <> None.
Proof.
  intros Hin. unfold parse.
  rewrite first_token_nonempty.
  - apply parse_table_some. exact Hin.
  - intros He. rewrite He in Hin. cbn in Hin.
    repeat (destruct Hin as [Hin|Hin]; [discriminate Hin|]). exact Hin.
Qed.

(** *** The runner *)

Lemma heap_ok_stop (r : Runner) : heap_ok r -> heap_ok (stop r).
Proof.
  unfold heap_ok, stop. cbn. destruct (current r); intros ->; reflexivity.
Qed.

Lemma heap_ok_start (f : option MemoryFile) (r : Runner) :
  heap_ok r -> heap_ok (start f r).
Proof. intros H. apply heap_ok_stop in H. exact H. Qed.

Lemma heap_ok_update (now : Z) (r : Runner) :
  heap_ok r -> heap_ok (update now r).
Proof.
  unfold heap_ok, update. intros H.
  destruct (running r); cbn [negb]; [|exact H].
  destruct (current r) as [c|] eqn:Ec.
  - destruct (cmd_update c now) as (c', evs).
    destruct (cmd_finished c'); cbn; rewrite H; reflexivity.
  - assert (Hfin : live (finish r) =
                   match current (finish r) with
                   | Some _ => 1%nat | None => 0%nat end).
    { cbn. rewrite Ec. exact H. }
    destruct (file r) as [f|]; [|exact Hfin].
    destruct (available f); cbn [negb]; [|exact Hfin].
    destruct (readLine f) as (line, f').
    destruct (parse line) as [c|].
    + destruct (cmd_start c now) as (c', evs). cbn. rewrite H. reflexivity.
    + cbn. exact H.
Qed.

Lemma heap_ok_report (e : Event) (r : Runner) : heap_ok r -> heap_ok (report e r).
Proof. intros H. exact H. Qed.

Lemma reachable_heap_ok (r : Runner) : reachable r -> heap_ok r.
Proof.
  induction 1.
  - reflexivity.
  - apply heap_ok_stop; assumption.
  - apply heap_ok_start; assumption.
  - apply heap_ok_update; assumption.
Qed.

Lemma heap_ok_le (r : Runner) : heap_ok r -> (live r <= 1)%nat.
Proof. unfold heap_ok. destruct (current r); intros ->; auto. Qed.

(** A record the parser makes nothing of costs one cycle and changes
    nothing but the read position. *)
Lemma update_skips (now : Z) (r : Runner) (f : MemoryFile) :
  running r = true -> current r = None -> file r = Some f ->
  available f = true -> parse (fst (readLine f)) = None ->
  update now r =
    {| file := Some (snd (readLine f)); current := None; running := true;
       finishedAll := finishedAll r; live := live r;
       out := SerialLine (fst (readLine f)) :: out r |}.
Proof.
  intros Hrun Hcur Hfile Hav Hparse. unfold update.
  rewrite Hrun, Hcur, Hfile, Hav. cbn [negb].
  destruct (readLine f) as (line, f'). cbn [fst snd] in *.
  rewrite Hparse. reflexivity.
Qed.

(** With the program exhausted and no command current, the runner
    finishes. *)
Lemma update_finishes (now : Z) (r : Runner) :
  running r = true -> current r = None ->
  match file r with Some f => available f = false | None => True end ->
  update now r = finish r.
Proof.
  intros Hrun Hcur Hex. unfold update. rewrite Hrun, Hcur. cbn [negb].
  destruct (file r) as [f|]; [|reflexivity].
  rewrite Hex. reflexivity.
Qed.

Lemma skip_rest (rest : list string) :
  forall pre : list string,
  Forall skipped rest ->
  forall (nows : list Z) (r : Runner),
    List.length nows = List.length rest ->
    running r = true -> current r = None ->
    file r = Some {| lines := pre ++ rest; idx := List.length pre |} ->
    let r' := updates nows r in
    running r' = true /\ current r' = None /\
    file r' = Some {| lines := pre ++ rest; idx := List.length (pre ++ rest) |} /\
    finishedAll r' = finishedAll r /\ live r' = live r.
Proof.
  induction rest as [|l rest IH]; intros pre Hall nows r Hlen Hrun Hcur Hfile.
  - destruct nows; [|discriminate Hlen]. cbn [updates].
    rewrite app_nil_r in *. auto.
  - destruct nows as [|now nows]; [discriminate Hlen|].
    inversion Hall as [|? ? Hl Hrest]; subst.
    cbn [updates].
    set (f := {| lines := pre ++ l :: rest; idx := List.length pre |}) in *.
    assert (Hav : available f = true).
    { unfold available, f. cbn. apply Nat.ltb_lt.
      rewrite length_app. cbn. lia. }
    assert (Hline : fst (readLine f) = l).
    { unfold readLine, f. cbn. rewrite app_nth2 by lia.
      rewrite Nat.sub_diag. reflexivity. }
    rewrite (update_skips now r f Hrun Hcur Hfile Hav)
      by (rewrite Hline; exact Hl).
    match goal with |- context [updates nows ?r0] => set (r1 := r0) end.
    assert (Heq : (pre ++ l :: rest = (pre ++ [l]) ++ rest)%list)
      by (rewrite <- app_assoc; reflexivity).
    destruct (IH (pre ++ [l])%list Hrest nows r1) as (H1 & H2 & H3 & H4 & H5).
    + cbn in Hlen. lia.
    + reflexivity.
    + reflexivity.
    + unfold r1, f, readLine. cbn. rewrite Heq, length_app. cbn.
      rewrite Nat.add_1_r. reflexivity.
    + cbv zeta. rewrite Heq. auto.
Qed.

Lemma loaded_state (prog : list string) (r : Runner) :
  let r' := loaded prog r in
  running r' = true /\ current r' = None /\
  file r' = Some {| lines := prog; idx := 0 |} /\ finishedAll r' = false.
Proof. cbn. auto. Qed.

Lemma updates_app (n1 n2 : list Z) (r : Runner) :
  updates (n1 ++ n2) r = updates n2 (updates n1 r).
Proof.
  revert r. induction n1 as [|n n1 IH]; intros r; [reflexivity|].
  cbn. apply IH.
Qed.

Lemma forward_line : parse "F 500" = Some (CmdForward (timed 500)).
Proof. reflexivity. Qed.

Lemma cmd_update_events (c : ICommand) (now : Z) :
  forallb runner_event (snd (cmd_update c now)) = true.
Proof.
  destruct c as [t|t|t|t|d|d|t]; cbn; try reflexivity;
    unfold timed_update;
    destruct (negb (active t)); try reflexivity;
    destruct (duration t <=? (now - startTime t) mod ULONG); reflexivity.
Qed.

Lemma cmd_start_events (c : ICommand) (now : Z) :
  forallb runner_event (snd (cmd_start c now)) = true.
Proof. destruct c; reflexivity. Qed.

(** What [update] logs does not depend on what was logged before, and is
    made of runner events only. *)
Lemma update_events (now : Z) (r : Runner) :
  exists evs,
    forallb runner_event evs = true /\
    forall l, update now (with_out l r) =
              with_out (evs ++ l) (update now r).
Proof.
  unfold update, with_out. cbn [running current file out live finishedAll].
  destruct (running r) eqn:Er; cbn [negb].
  - destruct (current r) as [c|] eqn:Ec.
    + pose proof (cmd_update_events c now) as He.
      destruct (cmd_update c now) as (c', evs). cbn [snd] in He.
      exists evs. split; [exact He|]. intros l.
      destruct (cmd_finished c'); reflexivity.
    + destruct (file r) as [f|] eqn:Ef.
      * destruct (available f); cbn [negb].
        -- destruct (readLine f) as (line, f').
           destruct (parse line) as [c|].
           ++ pose proof (cmd_start_events c now) as He.
              destruct (cmd_start c now) as (c', evs). cbn [snd] in He.
              exists (evs ++ [SerialLine line])%list. split.
              ** rewrite forallb_app, He. reflexivity.
              ** intros l. cbn. rewrite <- app_assoc. reflexivity.
           ++ exists [SerialLine line]. split; [reflexivity|].
              intros l. reflexivity.
        -- exists [DrvStop]. split; [reflexivity|]. intros l.
           unfold finish. cbn. rewrite Ef, Ec. reflexivity.
      * exists [DrvStop]. split; [reflexivity|]. intros l.
        unfold finish. cbn. rewrite Ef, Ec. reflexivity.
  - exists []. split; [reflexivity|]. intros l. cbn. rewrite Er. reflexivity.
Qed.

Lemma with_out_id (r : Runner) : with_out (out r) r = r.
Proof. destruct r. reflexivity. Qed.

Lemma report_with_out (e : Event) (r : Runner) :
  report e r = with_out (e :: out r) r.
Proof. reflexivity. Qed.

Lemma finished_reports_app (l1 l2 : list Event) :
  finished_reports (l1 ++ l2) = (finished_reports l1 + finished_reports l2)%nat.
Proof. unfold finished_reports. rewrite filter_app, length_app. reflexivity. Qed.

Lemma runner_events_no_report (evs : list Event) :
  forallb runner_event evs = true -> finished_reports evs = 0%nat.
Proof.
  induction evs as [|e evs IH]; [reflexivity|].
  cbn [forallb]. intros H. apply andb_true_iff in H. destruct H as (He & H).
  unfold finished_reports in *. cbn [filter].
  destruct e; try discriminate He; cbn; apply IH; exact H.
Qed.

Lemma runner_events_no_open (evs : list Event) :
  forallb runner_event evs = true -> existsb is_open evs = false.
Proof.
  induction evs as [|e evs IH]; [reflexivity|].
  cbn [forallb]. intros H. apply andb_true_iff in H. destruct H as (He & H).
  cbn [existsb]. rewrite (IH H).
  destruct e; try discriminate He; reflexivity.
Qed.

(** One poll by the controller: the log grows by runner events and, if
    the runner is then in FinishedAll, by one completion report. *)
Lemma poll_events (now : Z) (r : Runner) :
  exists evs,
    forallb runner_event evs = true /\
    forall l,
      poll true now (with_out l r) =
      with_out ((if finishedAll (update now r) then [RunFinished] else [])
                ++ evs ++ l)
               (update now r).
Proof.
  destruct (update_events now r) as (evs & He & Hu).
  exists evs. split; [exact He|]. intros l.
  unfold poll. rewrite Hu. cbn [finishedAll with_out].
  destruct (finishedAll (update now r)); reflexivity.
Qed.

(** *** The claims about the engine *)

(** C5: one command at a time.
    (1) In every state the runner can reach, the number of command objects
    alive is 1 if a command is current and 0 otherwise, so never more
    than one.
    (2) While a command is current, [update] polls that command once and
    does nothing else: it reads no record and creates no command.
    (3) With no command current and the program exhausted, [update]
    stops the motors, leaves Running and enters FinishedAll.
    (4) A program all of whose records are skipped (an empty program
    among them) is still running after as many polls as it has records,
    and is in FinishedAll, motors stopped, after one more. *)
Theorem one_command_at_a_time :
  (forall r, reachable r -> heap_ok r /\ (live r <= 1)%nat) /\
  (forall now r c,
     running r = true -> current r = Some c ->
     let r' := update now r in
     file r' = file r /\ (live r' <= live r)%nat /\
     out r' = (snd (cmd_update c now) ++ out r)%list /\
     current r' = if cmd_finished (fst (cmd_update c now)) then None
                  else Some (fst (cmd_update c now))) /\
  (forall now r,
     running r = true -> current r = None ->
     match file r with Some f => available f = false | None => True end ->
     let r' := update now r in
     finishedAll r' = true /\ running r' = false /\
     out r' = DrvStop :: out r) /\
  (forall prog nows r0,
     Forall skipped prog ->
     (List.length nows = List.length prog ->
      running (updates nows (loaded prog r0)) = true /\
      finishedAll (updates nows (loaded prog r0)) = false) /\
     (List.length nows = S (List.length prog) ->
      running (updates nows (loaded prog r0)) = false /\
      finishedAll (updates nows (loaded prog r0)) = true /\
      hd_error (out (updates nows (loaded prog r0))) = Some DrvStop)).
Proof.
  split; [|split; [|split]].
  - intros r Hr. pose proof (reachable_heap_ok r Hr) as H.
    split; [exact H|apply heap_ok_le; exact H].
  - intros now r c Hrun Hcur. unfold update. rewrite Hrun, Hcur. cbn [negb].
    destruct (cmd_update c now) as (c', evs). cbn [fst snd].
    destruct (cmd_finished c'); cbn; repeat split; lia.
  - intros now r Hrun Hcur Hex.
    rewrite (update_finishes now r Hrun Hcur Hex). cbn. auto.
  - intros prog nows r0 Hall.
    destruct (loaded_state prog r0) as (Hrun & Hcur & Hfile & Hfin).
    split.
    + intros Hlen.
      destruct (skip_rest prog [] Hall nows (loaded prog r0) Hlen Hrun Hcur Hfile)
        as (H1 & _ & _ & H4 & _).
      split; [exact H1|]. rewrite H4. exact Hfin.
    + intros Hlen.
      assert (Hsplit : exists ns n, nows = (ns ++ [n])%list /\
                                    List.length ns = List.length prog).
      { destruct (exists_last (l := nows)) as (ns & n & ->).
        - intros ->. discriminate Hlen.
        - exists ns, n. split; [reflexivity|].
          rewrite length_app in Hlen. cbn in Hlen. lia. }
      destruct Hsplit as (ns & n & -> & Hns).
      rewrite updates_app. cbn [updates].
      destruct (skip_rest prog [] Hall ns (loaded prog r0) Hns Hrun Hcur Hfile)
        as (H1 & H2 & H3 & _ & _).
      rewrite (update_finishes n _ H1 H2).
      * cbn. auto.
      * rewrite H3. unfold available. cbn. apply Nat.ltb_irrefl.
Qed.

Lemma one_command_witness :
  running (updates [0; 5] (loaded ["???"; ""] idle)) = true /\
  finishedAll (updates [0; 5; 7] (loaded ["???"; ""] idle)) = true /\
  (live (update 3 (loaded ["F 500"] idle)) <= 1)%nat.
Proof.
  destruct one_command_at_a_time as (Hheap & _ & _ & Hskip).
  assert (Hall : Forall skipped ["???"; ""])
    by (repeat constructor).
  destruct (Hskip ["???"; ""] [0; 5] idle Hall) as (H1 & _).
  destruct (Hskip ["???"; ""] [0; 5; 7] idle Hall) as (_ & H2).
  split; [apply H1; reflexivity|].
  split; [apply H2; reflexivity|].
  apply Hheap. apply reach_update, reach_start, reach_idle.
Defined.

(** C6: lines the parser cannot read.
    (1) For every line that is empty once trimmed, or whose first token is
    not a token of the command table, the parser produces no command.
    (2) When the next record of the program is such that the parser
    produces no command, [update] consumes it and nothing else changes:
    the runner stays Running with no command current, no command object is
    created and the robot receives no call (only the echo of the line is
    logged).
    (3) The program ["F 500"; "???"; "F 500"], polled once a second, calls
    [forward()] twice and ends in FinishedAll. *)
Theorem unknown_lines_are_skipped :
  (forall line,
     trim line = "" \/ ~ In (first_token (trim line)) tokens ->
     parse line = None) /\
  (forall now r f,
     running r = true -> current r = None -> file r = Some f ->
     available f = true -> parse (fst (readLine f)) = None ->
     let r' := update now r in
     running r' = true /\ finishedAll r' = finishedAll r /\
     current r' = None /\ live r' = live r /\
     file r' = Some (snd (readLine f)) /\
     out r' = SerialLine (fst (readLine f)) :: out r) /\
  (let r := updates [0; 1000; 2000; 3000; 4000; 5000]
                    (loaded ["F 500"; "???"; "F 500"] idle) in
   finishedAll r = true /\ running r = false /\
   List.length (filter is_forward (out r)) = 2%nat /\
   rev (out r) =
     [DrvStop; SerialLine "F 500"; DrvForward; DrvStop;
      SerialLine "???"; SerialLine "F 500"; DrvForward; DrvStop; DrvStop]).
Proof.
  split; [|split].
  - exact parse_skips.
  - intros now r f Hrun Hcur Hfile Hav Hparse.
    rewrite (update_skips now r f Hrun Hcur Hfile Hav Hparse). cbn. auto 10.
  - cbv zeta. vm_compute. auto.
Qed.

Lemma unknown_lines_witness :
  parse "???" = None /\ parse "   " = None /\
  running (update 0 (loaded ["???"; "F 500"] idle)) = true.
Proof.
  destruct unknown_lines_are_skipped as (Hparse & Hskip & _).
  split; [|split].
  - apply Hparse. right. cbn. intros H.
    repeat (destruct H as [H|H]; [discriminate H|]). exact H.
  - apply Hparse. left. reflexivity.
  - apply (Hskip 0 (loaded ["???"; "F 500"] idle)
                 {| lines := ["???"; "F 500"]; idx := 0 |});
      reflexivity.
Defined.

(** C10: a recognised command without a usable argument.  Take a line
    whose first token is F, B or WAIT and whose argument is missing (no
    space in the trimmed line) or is not a number.  The parser does not
    skip it: it creates the corresponding timed command with duration 0.
    Such a command issues its start actuation when started and, whatever
    the clock reads, finishes on its first poll, where it stops the
    motors. *)
Theorem missing_argument_is_zero (line : string) :
  no_argument (trim line) ->
  (first_token (trim line) = "F" ->
     parse line = Some (CmdForward (timed 0))) /\
  (first_token (trim line) = "B" ->
     parse line = Some (CmdBackward (timed 0))) /\
  (first_token (trim line) = "WAIT" ->
     parse line = Some (CmdWait (timed 0))) /\
  (forall c act,
     In (c, act) [(CmdForward (timed 0), DrvForward);
                  (CmdBackward (timed 0), DrvBackward);
                  (CmdWait (timed 0), DrvStop)] ->
     forall now now',
       snd (cmd_start c now) = [act] /\
       cmd_finished (fst (cmd_start c now)) = false /\
       snd (cmd_update (fst (cmd_start c now)) now') = [DrvStop] /\
       cmd_finished (fst (cmd_update (fst (cmd_start c now)) now')) = true).
Proof.
  intros Harg. pose proof (extractArgument_zero _ Harg) as Hz.
  assert (Hlen : forall tok, tok <> "" -> first_token (trim line) = tok ->
                 (String.length (trim line) =? 0)%nat = false).
  { intros tok Hne Hft. apply first_token_nonempty. congruence. }
  assert (Hno : forall tok tok', first_token (trim line) = tok ->
                  no_blank tok' = true -> tok <> tok' ->
                  startsWithToken (trim line) tok' = false).
  { intros tok tok' Hft Hnb Hne. eapply other_token_fails; eassumption. }
  split; [|split; [|split]].
  - intros Hft. unfold parse. rewrite (Hlen "F") by (congruence || assumption).
    cbn [COMMAND_TABLE parse_table token hasArgument id].
    rewrite (first_token_startsWithToken "F" _ Hft), Hz. reflexivity.
  - intros Hft. unfold parse. rewrite (Hlen "B") by (congruence || assumption).
    cbn [COMMAND_TABLE parse_table token hasArgument id].
    rewrite (Hno "B" "F" Hft) by (reflexivity || discriminate).
    rewrite (first_token_startsWithToken "B" _ Hft), Hz. reflexivity.
  - intros Hft. unfold parse. rewrite (Hlen "WAIT") by (congruence || assumption).
    cbn [COMMAND_TABLE parse_table token hasArgument id].
    rewrite (Hno "WAIT" "F" Hft) by (reflexivity || discriminate).
    rewrite (Hno "WAIT" "B" Hft) by (reflexivity || discriminate).
    rewrite (Hno "WAIT" "L" Hft) by (reflexivity || discriminate).
    rewrite (Hno "WAIT" "R" Hft) by (reflexivity || discriminate).
    rewrite (Hno "WAIT" "paintON" Hft) by (reflexivity || discriminate).
    rewrite (Hno "WAIT" "paintOFF" Hft) by (reflexivity || discriminate).
    rewrite (first_token_startsWithToken "WAIT" _ Hft), Hz. reflexivity.
  - intros c act Hin now now'.
    assert (Hpoll : (0 <=? (now' - now) mod ULONG) = true).
    { apply Z.leb_le. apply Z.mod_pos_bound. reflexivity. }
    cbn [In] in Hin. destruct Hin as [H|[H|[H|[]]]]; inversion H; subst;
      unfold cmd_start, cmd_update, timed_update, timed_start, timed;
      cbn [fst snd active duration startTime negb cmd_finished];
      rewrite Hpoll; cbn [fst snd active negb cmd_finished on_finish]; auto.
Qed.

Lemma missing_argument_witness :
  no_argument (trim "F") /\ no_argument (trim "WAIT soon") /\
  parse "F" = Some (CmdForward (timed 0)) /\
  parse "WAIT soon" = Some (CmdWait (timed 0)).
Proof.
  assert (H1 : no_argument (trim "F")) by exact I.
  assert (H2 : no_argument (trim "WAIT soon")) by reflexivity.
  split; [exact H1|]. split; [exact H2|]. split.
  - destruct (missing_argument_is_zero "F" H1) as (H & _).
    apply H. reflexivity.
  - destruct (missing_argument_is_zero "WAIT soon" H2) as (_ & _ & H & _).
    apply H. reflexivity.
Defined.

(** The words INF, INFINITY and NAN, in either case, and numbers too large
    for a [float] are read as special values: such arguments are
    numbers, and C10 says nothing of them. *)
Example special_arguments :
  toFloat "inf" = Infinite false /\ toFloat " -INFINITY" = Infinite true /\
  toFloat "NaN" = NotANumber /\ toFloat "1e39" = Infinite false /\
  not_a_number "inf" = false /\ not_a_number "-Infinity" = false /\
  not_a_number "nan" = false /\ not_a_number "soon" = true.
Proof. repeat split; vm_compute; reflexivity. Qed.

Lemma with_out_twice (l l' : list Event) (r : Runner) :
  with_out l (with_out l' r) = with_out l r.
Proof. reflexivity. Qed.

Lemma fs_open_some (entries : list Entry) (n : string) (f : MemoryFile) :
  fs_open entries n = Some f ->
  exists e, In e entries /\ name e = n /\ f = {| lines := program e; idx := 0 |}.
Proof.
  induction entries as [|e rest IH]; [discriminate|].
  cbn [fs_open]. destruct (String.eqb n (name e)) eqn:E.
  - intros H. inversion H; subst f. exists e. split; [left; reflexivity|].
    apply String.eqb_eq in E. auto.
  - intros H. destruct (IH H) as (e' & Hin & Hn & Hf).
    exists e'. split; [right; exact Hin|]. auto.
Qed.

(** C7: what a start edge does.  In a cycle in which the start button is
    found pressed and was not pressed in the cycle before:
    (1) if run-control is disabled, the runner is left exactly as it was,
    the line "blocked" in the log apart: no file is opened, nothing is
    started and the runner is not polled;
    (2) if run-control is enabled and the runner is Running, the cycle does
    what a cycle without the edge does, the line "already running" apart:
    no program is opened and the runner still holds at most one command;
    (3) if run-control is enabled, the runner is not Running and the
    selected program does not exist, the opening and "not found" are
    logged and the runner stays as it was, not Running;
    (4) if run-control is enabled, the runner is not Running and the
    selected program exists, it is opened at its first line, the start is
    reported, the runner drops its command, stops the robot and is polled
    on the new file in the same cycle: with a first line to read it is
    Running after the cycle, has echoed that line, holds the command the
    parser makes of it (started), and stands before the second line; with
    an empty program it is in FinishedAll and has stopped the robot
    again. *)
Theorem start_edge_arbitration
    (entries : list Entry) (selected : string) (now : Z) (c : Controller) :
  last c = false ->
  let c' := controller_update entries selected true now c in
  let r := runner c in
  let live0 := match current r with Some _ => pred (live r) | None => live r end in
  (enabled c = false ->
     runner c' =
       {| file := file r; current := current r; running := running r;
          finishedAll := finishedAll r; live := live r;
          out := RunBlocked :: out r |}) /\
  (enabled c = true -> running r = true ->
     exists evs,
       existsb is_open evs = false /\
       out (poll true now r) = (evs ++ out r)%list /\
       runner c' =
         with_out (evs ++ RunAlready :: out r) (poll true now r) /\
       (heap_ok r -> (live (runner c') <= 1)%nat)) /\
  (enabled c = true -> running r = false ->
   fs_open entries selected = None ->
     running (runner c') = false /\
     file (runner c') = file r /\ current (runner c') = current r /\
     live (runner c') = live r /\
     out (runner c') =
       ((if finishedAll r then [RunFinished] else [])
        ++ RunNotFound selected :: FsOpen selected :: out r)%list) /\
  (enabled c = true -> running r = false ->
   forall f, fs_open entries selected = Some f ->
     (exists e, In e entries /\ name e = selected /\
                f = {| lines := program e; idx := 0 |}) /\
     match lines f with
     | [] =>
         runner c' =
           {| file := Some f; current := None; running := false;
              finishedAll := true; live := live0;
              out := RunFinished :: DrvStop :: DrvStop :: RunStart selected
                       :: FsOpen selected :: out r |}
     | line :: _ =>
         running (runner c') = true /\ finishedAll (runner c') = false /\
         file (runner c') = Some {| lines := lines f; idx := 1 |} /\
         current (runner c') =
           match parse line with
           | Some cmd => Some (fst (cmd_start cmd now))
           | None => None
           end /\
         live (runner c') =
           match parse line with Some _ => S live0 | None => live0 end /\
         out (runner c') =
           (match parse line with
            | Some cmd => snd (cmd_start cmd now)
            | None => []
            end ++ SerialLine line :: DrvStop :: RunStart selected
                :: FsOpen selected :: out r)%list
     end).
Proof.
  intros Hlast. cbv zeta. unfold controller_update. rewrite Hlast.
  cbn [andb negb runner]. split; [|split; [|split]].
  - intros Hen. rewrite Hen. reflexivity.
  - intros Hen Hrun. rewrite Hen. unfold on_start_edge. rewrite Hrun.
    cbn [negb].
    destruct (poll_events now (runner c)) as (evs & He & Hp).
    exists ((if finishedAll (update now (runner c)) then [RunFinished] else [])
            ++ evs)%list.
    pose proof (Hp (out (runner c))) as Hp0. rewrite with_out_id in Hp0.
    split; [|split; [|split]].
    + rewrite existsb_app, (runner_events_no_open evs He).
      destruct (finishedAll (update now (runner c))); reflexivity.
    + rewrite Hp0. cbn [out with_out]. rewrite <- app_assoc. reflexivity.
    + rewrite report_with_out, Hp, Hp0.
      rewrite with_out_twice, <- app_assoc. reflexivity.
    + intros Hheap. rewrite report_with_out, Hp. cbn [live with_out].
      apply heap_ok_le, heap_ok_update. exact Hheap.
  - intros Hen Hrun Hopen. rewrite Hen. unfold on_start_edge.
    rewrite Hrun, Hopen. cbn [negb].
    unfold poll, update, report.
    cbn [running file current live out finishedAll negb]. rewrite Hrun.
    cbn [negb running file current live out finishedAll].
    destruct (finishedAll (runner c)); cbn; auto.
  - intros Hen Hrun f Hopen. split; [exact (fs_open_some _ _ _ Hopen)|].
    destruct (fs_open_some _ _ _ Hopen) as (e & _ & _ & Hf).
    rewrite Hen. unfold on_start_edge. rewrite Hrun, Hopen. cbn [negb].
    unfold poll, update, start, stop, report.
    cbn [running file current live out finishedAll negb].
    subst f. cbn [lines idx]. unfold available, readLine. cbn [lines idx].
    destruct (program e) as [|line rest].
    + cbn. reflexivity.
    + cbn [List.length Nat.ltb Nat.leb negb nth].
      destruct (parse line) as [cmd|].
      * destruct (cmd_start cmd now) as (c1, evs).
        cbn [running file current live out finishedAll fst snd].
        auto 10.
      * cbn [running file current live out finishedAll app]. auto 10.
Qed.

Lemma start_edge_witness :
  let locked := {| runner := idle; last := false; enabled := false |} in
  let busy := cycles FS_ENTRIES selectProgram [(true, 0); (false, 10)] power_on in
  out (runner (controller_update FS_ENTRIES selectProgram true 20 locked))
    = [RunBlocked] /\
  running (runner busy) = true /\
  In RunAlready
    (out (runner (controller_update FS_ENTRIES selectProgram true 20 busy))) /\
  (live (runner (controller_update FS_ENTRIES selectProgram true 20 busy))
     <= 1)%nat /\
  running (runner (controller_update FS_ENTRIES selectProgram true 0 power_on))
    = true /\
  file (runner (controller_update FS_ENTRIES selectProgram true 0 power_on))
    = Some {| lines := SQUARE; idx := 1 |}.
Proof.
  cbv zeta.
  destruct (start_edge_arbitration FS_ENTRIES selectProgram 20
              {| runner := idle; last := false; enabled := false |} eq_refl)
    as (Hlocked & _).
  destruct (start_edge_arbitration FS_ENTRIES selectProgram 20
              (cycles FS_ENTRIES selectProgram [(true, 0); (false, 10)] power_on)
              eq_refl) as (_ & Hbusy & _).
  destruct (start_edge_arbitration FS_ENTRIES selectProgram 0 power_on eq_refl)
    as (_ & _ & _ & Hstart).
  split; [rewrite (Hlocked eq_refl); reflexivity|].
  split; [reflexivity|].
  destruct (Hbusy eq_refl eq_refl) as (evs & _ & _ & Hr & Hlive).
  split; [|split].
  - rewrite Hr. cbn [out with_out]. apply in_or_app. right. left. reflexivity.
  - apply Hlive. vm_compute. reflexivity.
  - destruct (Hstart eq_refl eq_refl {| lines := SQUARE; idx := 0 |} eq_refl)
      as (_ & H).
    cbn [lines SQUARE] in H. destruct H as (H1 & _ & H3 & _).
    split; [exact H1|exact H3].
Defined.

(** C8 (as stated, refuted).  The sketch as wired, started once and cycled
    every second: the square program ends in cycle 20, where completion is
    reported; the next cycle, with no button pressed and the runner still
    in FinishedAll, reports completion again, and so does the one after. *)
Lemma finished_reported_again :
  let c := square_run 20 in
  let c1 := controller_update FS_ENTRIES selectProgram false 21000 c in
  let c2 := controller_update FS_ENTRIES selectProgram false 22000 c1 in
  finishedAll (runner (square_run 19)) = false /\
  finishedAll (runner c) = true /\
  finished_reports (out (runner c)) = 1%nat /\
  out (runner c1) = RunFinished :: out (runner c) /\
  out (runner c2) = RunFinished :: RunFinished :: out (runner c).
Proof. vm_compute. auto. Qed.

Lemma edge_no_report (entries : list Entry) (selected : string)
    (en : bool) (r : Runner) :
  finished_reports (out (on_start_edge entries selected en r)) =
  finished_reports (out r).
Proof.
  unfold on_start_edge.
  destruct en; cbn [negb]; [|reflexivity].
  destruct (running r); [reflexivity|].
  destruct (fs_open entries selected); reflexivity.
Qed.

(** C8 (amended): the supervisor reports completion in every cycle in
    which run-control is enabled and the runner is in FinishedAll after
    the poll; no other cycle reports it.  So the report made when the
    runner enters FinishedAll is repeated in each later cycle for as long
    as run-control stays enabled and no start edge arrives. *)
Theorem completion_reported_every_cycle
    (entries : list Entry) (selected : string)
    (pressed : bool) (now : Z) (c : Controller) :
  let c' := controller_update entries selected pressed now c in
  finished_reports (out (runner c')) =
    (finished_reports (out (runner c)) +
     if enabled c && finishedAll (runner c') then 1 else 0)%nat /\
  (enabled c = true -> pressed && negb (last c) = false ->
   finishedAll (runner c) = true -> running (runner c) = false ->
   finishedAll (runner c') = true /\ running (runner c') = false /\
   out (runner c') = RunFinished :: out (runner c)).
Proof.
  cbv zeta. unfold controller_update. cbn [runner]. split.
  - set (r1 := if pressed && negb (last c)
               then on_start_edge entries selected (enabled c) (runner c)
               else runner c).
    assert (H1 : finished_reports (out r1) = finished_reports (out (runner c))).
    { unfold r1. destruct (pressed && negb (last c)); [|reflexivity].
      apply edge_no_report. }
    destruct (enabled c); cbn [andb poll].
    + destruct (poll_events now r1) as (evs & He & Hp).
      specialize (Hp (out r1)). rewrite with_out_id in Hp.
      change (if finishedAll (update now r1)
              then report RunFinished (update now r1) else update now r1)
        with (poll true now r1).
      rewrite Hp. cbn [out finishedAll with_out].
      rewrite !finished_reports_app, (runner_events_no_report evs He), H1.
      destruct (finishedAll (update now r1)); cbn; lia.
    + rewrite H1. lia.
  - intros Hen Hedge Hfin Hrun. rewrite Hen, Hedge.
    unfold poll, update. rewrite Hrun. cbn [negb]. rewrite Hfin.
    cbn. auto.
Qed.

Lemma completion_reported_witness :
  let c := square_run 20 in
  let c' := controller_update FS_ENTRIES selectProgram false 21000 c in
  finishedAll (runner c) = true /\
  finishedAll (runner c') = true /\
  out (runner c') = RunFinished :: out (runner c).
Proof.
  cbv zeta.
  destruct (completion_reported_every_cycle FS_ENTRIES selectProgram
              false 21000 (square_run 20)) as (_ & H).
  assert (Hfin : finishedAll (runner (square_run 20)) = true)
    by (vm_compute; reflexivity).
  destruct (H ltac:(vm_compute; reflexivity) eq_refl Hfin
              ltac:(vm_compute; reflexivity)) as (H1 & _ & H3).
  split; [exact Hfin|]. split; [exact H1|exact H3].
Defined.

End EngineFacts.

(** ** Further properties of [norm180] *)

Module AngleMore.
Import Float32 Float32Facts Angle AngleFacts.
Local Open Scope Q_scope.

(** X1: [norm180] is idempotent and odd.  On a binary32 angle of magnitude
    at most [2^27], normalising twice is normalising once, and the
    normalised opposite angle is the opposite of the normalised angle, the
    two ends -180 and 180 included. *)
Theorem norm180_idempotent_odd (fuel : nat) (a : Q) :
  is_f32 a -> Qabs a <= inject_Z (2 ^ 27) ->
  Qabs a <= 360 * inject_Z (Z.of_nat fuel) ->
  exists r r',
    norm180 (S fuel) a = Some r /\ norm180 (S fuel) r = Some r /\
    norm180 (S fuel) (- a) = Some r' /\ r' == - r.
Proof.
  intros Hf Hb Hn.
  destruct (norm180_spec fuel a Hf Hb (fuel_covers _ _ Hn)) as (r & E & Hr & Hw).
  destruct (norm180_spec fuel (- a)) as (r' & E' & Hr' & Hw').
  - apply is_f32_opp. exact Hf.
  - rewrite Qabs_opp. exact Hb.
  - rewrite Qabs_opp. apply fuel_covers. exact Hn.
  - exists r, r'. split; [exact E|]. split.
    + destruct Hw as (H1 & H2 & _). apply norm180_id; assumption.
    + split; [exact E'|].
      apply (wraps_unique (- a)); [exact Hw'|apply wraps_opp; exact Hw].
Qed.

Lemma norm180_idempotent_odd_witness :
  exists r r', norm180 3 (-540) = Some r /\ norm180 3 540 = Some r' /\ r' == - r.
Proof.
  destruct (norm180_idempotent_odd 2 (-540)) as (r & r' & E & _ & E' & H).
  - apply (is_f32_Z (-540)). vm_compute. discriminate.
  - vm_compute. discriminate.
  - vm_compute. discriminate.
  - exists r, r'. split; [exact E|]. split; [exact E'|exact H].
Defined.

(** X2: away from the seam, whole turns do not matter.  Let [a] and [b]
    be two binary32 angles of magnitude at most [2^27] that differ by a
    whole number of turns.  If [norm180] brings [a] strictly between -180
    and 180, it brings [b] to the same value.  (On the seam it does not:
    180 and -180, one turn apart, are both returned unchanged.) *)
Theorem norm180_periodic (fuel : nat) (a b : Q) (k : Z) :
  is_f32 a -> is_f32 b ->
  Qabs a <= inject_Z (2 ^ 27) -> Qabs b <= inject_Z (2 ^ 27) ->
  Qabs a <= 360 * inject_Z (Z.of_nat fuel) ->
  Qabs b <= 360 * inject_Z (Z.of_nat fuel) ->
  b == a + 360 * inject_Z k ->
  exists r r',
    norm180 (S fuel) a = Some r /\ norm180 (S fuel) b = Some r' /\
    (-180 < r -> r < 180 -> r' == r).
Proof.
  intros Hfa Hfb Hba Hbb Hna Hnb Hk.
  destruct (norm180_spec fuel a Hfa Hba (fuel_covers _ _ Hna))
    as (r & E & _ & _ & _ & (m & Hm) & _).
  destruct (norm180_spec fuel b Hfb Hbb (fuel_covers _ _ Hnb))
    as (r' & E' & _ & Hlo' & Hhi' & (m' & Hm') & _).
  exists r, r'. split; [exact E|]. split; [exact E'|].
  intros Hlo Hhi.
  assert (Hz : (m + k - m' = 0)%Z).
  { apply (small_multiple (m + k - m') (r' - r)).
    - unfold Z.sub. rewrite !inject_Z_plus, !inject_Z_opp. lra.
    - lra.
    - lra. }
  assert (Hk0 : inject_Z m + inject_Z k - inject_Z m' == 0).
  { assert (H : inject_Z (m + k - m') == 0) by (rewrite Hz; reflexivity).
    unfold Z.sub in H. rewrite !inject_Z_plus, !inject_Z_opp in H. lra. }
  lra.
Qed.

Lemma norm180_periodic_witness :
  exists r r',
    norm180 4 10 = Some r /\ norm180 4 730 = Some r' /\ r' == r.
Proof.
  destruct (norm180_periodic 3 10 730 2) as (r & r' & E & E' & H).
  - apply (is_f32_Z 10). vm_compute. discriminate.
  - apply (is_f32_Z 730). vm_compute. discriminate.
  - vm_compute. discriminate.
  - vm_compute. discriminate.
  - vm_compute. discriminate.
  - vm_compute. discriminate.
  - reflexivity.
  - exists r, r'. split; [exact E|]. split; [exact E'|].
    assert (Hr : r = 10) by (vm_compute in E; congruence).
    apply H; rewrite Hr; reflexivity.
Defined.

End AngleMore.

(** ** Further facts about the gyro sketch *)

Module RobotFacts.
Import Float32 Float32Facts Angle AngleFacts Gyro GyroSpec GyroMore GyroFacts.
Local Open Scope Z_scope.

Lemma issued_log (P : Z * Z -> Prop) (w w' : World) :
  (exists l, issued w w' l /\ Forall P l) ->
  exists pre, log w' = pre ++ log w /\ Forall P (motors pre).
Proof.
  intros (l & (pre & E & M) & F). exists pre. split; [exact E|].
  rewrite M. exact F.
Qed.

Lemma enough_fuel_Z (fuel : nat) : (enough_fuel <= fuel)%nat -> 9002 <= Z.of_nat fuel.
Proof.
  intros H. apply Nat2Z.inj_le in H. unfold enough_fuel in H.
  rewrite Z2Nat.id in H; lia.
Qed.

(** *** [Rotate] *)

(** X3: the commands of [Rotate].  Whatever the sensor reads and whenever
    STOP is pressed, every [Motor] call of a call of [Rotate] is either
    [Motor(Stop, 0)] or a turn, right or left, at one of the four PWM levels
    175, 180, 185 and 200: [Rotate] never drives the robot forward or
    backward and never turns it at another speed. *)
Theorem Rotate_only_turns (env : Env) (fuel : nat) (phi : Q)
    (w : World) (b : bool) (w' : World) :
  Rotate env fuel phi w = Some (b, w') ->
  exists pre, log w' = pre ++ log w /\ Forall turn_command (motors pre).
Proof.
  intros E. apply issued_log.
  exact (Rotate_commands env fuel phi w b w' E).
Qed.

Lemma Rotate_only_turns_witness :
  exists w' pre,
    Rotate Scenario.swinging 30 90 Scenario.boot = Some (true, w') /\
    log w' = pre ++ log Scenario.boot /\ Forall turn_command (motors pre).
Proof.
  destruct (Rotate Scenario.swinging 30 90 Scenario.boot) as [[b w']|] eqn:E.
  - destruct (Rotate_only_turns Scenario.swinging 30 90 Scenario.boot b w' E)
      as (pre & Hlog & Hall).
    exists w', pre. split; [|split; assumption].
    assert (Hb : b = true).
    { vm_compute in E. inversion E. reflexivity. }
    rewrite Hb. reflexivity.
  - vm_compute in E. discriminate E.
Defined.

(** X4: the duration of [Rotate].  Let a sensor refresh take between 1
    and 1000 ms, the commanded angle be at most [2^18] degrees and the
    readings at most [2^19] degrees in magnitude (so that every call of
    [norm180] returns).  Then a call of [Rotate] returns at most
    [9168 + 8 * update_ms] ms after it was entered, whatever the sensor
    reads within those bounds: the 9000 ms ceiling is measured from the
    first reading, is tested once per pass, and a pass lasts at most
    [7 * update_ms + 168] ms.  (Time is counted as in the whole model: it
    passes in [delay] and in [mpu.update()] only.) *)
Theorem Rotate_bounded_time (env : Env) (fuel : nat) (phi : Q) (w : World) :
  0 < update_ms env <= 1000 ->
  (enough_fuel <= fuel)%nat ->
  (Qabs phi <= inject_Z (2 ^ 18))%Q ->
  bounded_readings env ->
  exists b w',
    Rotate env fuel phi w = Some (b, w') /\
    clock w <= clock w' <= clock w + 9168 + 8 * update_ms env.
Proof.
  intros Hu Hfuel Hphi Hb.
  destruct (Rotate_total env fuel phi w Hu Hfuel
              (bounded_settles env fuel phi w Hphi Hb Hfuel)) as (b & w' & E).
  exists b, w'. split; [exact E|].
  apply (Rotate_span env fuel phi w ltac:(lia) b w' E).
Qed.

Lemma Rotate_bounded_time_witness :
  exists b w',
    Rotate Scenario.calm enough_fuel 90 Scenario.boot = Some (b, w') /\
    0 <= clock w' <= 9176.
Proof.
  destruct (Rotate_bounded_time Scenario.calm enough_fuel 90 Scenario.boot)
    as (b & w' & E & H).
  - cbn. lia.
  - apply Nat.le_refl.
  - vm_compute. discriminate.
  - intros n. vm_compute. discriminate.
  - exists b, w'. split; [exact E|]. cbn in H. lia.
Defined.

(** X5: how soon [Rotate] obeys STOP.  Let STOP be pressed at instant
    [ts], the flag being set from then on, the commanded angle be at most
    [2^18] degrees and the readings at most [2^19] degrees in magnitude.
    Then a call of [Rotate] has returned, with the motors stopped and
    disabled, at the latest [update_ms + 1] ms after the press (or at once,
    if the press came before the call): the flag is tested before every
    2 ms slice of every wait, and the only other thing that takes time is a
    sensor refresh. *)
Theorem Rotate_stop_latency (env : Env) (ts : Z) (fuel : nat) (phi : Q)
    (w : World) :
  stop_time env = Some ts ->
  0 < update_ms env <= 1000 ->
  (enough_fuel <= fuel)%nat ->
  (Qabs phi <= inject_Z (2 ^ 18))%Q ->
  bounded_readings env ->
  synced ts w ->
  exists b w',
    Rotate env fuel phi w = Some (b, w') /\
    stopped w' /\
    clock w' <= Z.max (clock w) (ts + 1 + update_ms env).
Proof.
  intros Hp Hu Hfuel Hphi Hb Hs.
  destruct (Rotate_total env fuel phi w Hu Hfuel
              (bounded_settles env fuel phi w Hphi Hb Hfuel)) as (b & w' & E).
  exists b, w'. split; [exact E|]. split.
  - exact (proj1 (Rotate_exits env fuel phi w b w' E)).
  - apply (Rotate_late env ts Hp fuel phi w ltac:(lia) Hs b w' E).
Qed.

Lemma Rotate_stop_latency_witness :
  exists b w',
    Rotate (Scenario.pressed_at 100) enough_fuel 90 Scenario.boot
      = Some (b, w') /\
    stopped w' /\ clock w' <= 102.
Proof.
  destruct (Rotate_stop_latency (Scenario.pressed_at 100) 100 enough_fuel 90
              Scenario.boot) as (b & w' & E & Hst & H).
  - reflexivity.
  - cbn. lia.
  - apply Nat.le_refl.
  - vm_compute. discriminate.
  - intros n. vm_compute. discriminate.
  - unfold synced. cbn. lia.
  - exists b, w'. split; [exact E|]. split; [exact Hst|]. cbn in H. lia.
Defined.

(** *** [Forw] *)

(** X6: the exits of [Forw].  Whenever [Forw] returns, by any of its
    [return]s or at its end, the motors are stopped and disabled, the last
    [Motor] call is [Motor(Stop, 0)], and every [Motor] call it made is
    [Motor(Stop, 0)], [Motor(Forward, 210)] or [Motor(Forward, 250)]. *)
Theorem Forw_exits (env : Env) (fuel : nat) (time_ms : Q) (last : Z)
    (w : World) (last' : Z) (w' : World) :
  Forw env fuel time_ms last w = Some (last', w') ->
  stopped w' /\
  exists pre,
    log w' = pre ++ log w /\
    hd_error (motors pre) = Some (Stop, 0) /\
    Forall forward_command (motors pre).
Proof.
  intros E.
  destruct (Forw_safe env fuel time_ms last w last' w' E)
    as (Hst & (l0 & pre0 & E0 & M0) & l & (pre & E1 & M1) & Hf).
  split; [exact Hst|]. exists pre. split; [exact E1|].
  assert (pre0 = pre).
  { rewrite E0 in E1. apply app_inv_tail in E1. exact E1. }
  subst pre0. split.
  - rewrite M0. reflexivity.
  - rewrite M1. exact Hf.
Qed.

Lemma Forw_exits_witness :
  exists last' w' pre,
    Forw Scenario.calm 40 300 0 Scenario.boot = Some (last', w') /\
    stopped w' /\
    log w' = pre ++ log Scenario.boot /\
    hd_error (motors pre) = Some (Stop, 0) /\
    Forall forward_command (motors pre).
Proof.
  destruct (Forw Scenario.calm 40 300 0 Scenario.boot) as [[last' w']|] eqn:E.
  - destruct (Forw_exits Scenario.calm 40 300 0 Scenario.boot last' w' E)
      as (Hst & pre & H1 & H2 & H3).
    exists last', w', pre. split; [reflexivity|]. auto.
  - vm_compute in E. discriminate E.
Defined.

(** X7: the duration of [Forw].  Let [T] be the requested time as the
    sketch converts it, [(unsigned long)time_ms].  If [T + update_ms + 10]
    fits in an [unsigned long], [Forw] returns (the loop makes fewer than
    [T / 10 + 1] passes), at most [201 + max 186 (T + update_ms + 10)] ms
    after it was entered; and if the stop flag is still down when it
    returns, it has lasted at least [200 + T] ms. *)
Theorem Forw_duration (env : Env) (fuel : nat) (time_ms : Q) (last : Z)
    (w : World) :
  0 <= update_ms env ->
  ulong_of_float time_ms + update_ms env + 10 < ULONG ->
  ulong_of_float time_ms < 10 * Z.of_nat fuel ->
  exists last' w',
    Forw env fuel time_ms last w = Some (last', w') /\
    clock w <= clock w' <=
      clock w + 201 + Z.max 186 (ulong_of_float time_ms + update_ms env + 10) /\
    (stopReq w' = false ->
     clock w + 200 + ulong_of_float time_ms <= clock w').
Proof.
  intros Hu HB Hfuel.
  destruct (Forw_total env fuel time_ms last w Hu HB Hfuel)
    as (last' & w' & E & H).
  exists last', w'. split; [exact E|exact H].
Qed.

Lemma Forw_duration_witness :
  exists last' w',
    Forw Scenario.calm 201 2000 0 Scenario.boot = Some (last', w') /\
    2200 <= clock w' <= 2212.
Proof.
  destruct (Forw_duration Scenario.calm 201 2000 0 Scenario.boot)
    as (last' & w' & E & H1 & H2).
  - cbn. lia.
  - vm_compute. reflexivity.
  - vm_compute. reflexivity.
  - exists last', w'. split; [exact E|].
    assert (Hflag : stopReq w' = false).
    { vm_compute in E. inversion E. reflexivity. }
    specialize (H2 Hflag).
    change (ulong_of_float 2000) with 2000 in *.
    cbn in H1, H2. lia.
Defined.

(** X8: how soon [Forw] obeys STOP.  Let STOP be pressed at instant [ts],
    the flag being set from then on.  Then, under the conditions of
    termination, [Forw] has returned with the motors stopped and disabled
    at the latest [update_ms + 1] ms after the press (or at once, if the
    press came before the call). *)
Theorem Forw_stop_latency (env : Env) (ts : Z) (fuel : nat) (time_ms : Q)
    (last : Z) (w : World) :
  stop_time env = Some ts ->
  0 <= update_ms env ->
  ulong_of_float time_ms + update_ms env + 10 < ULONG ->
  ulong_of_float time_ms < 10 * Z.of_nat fuel ->
  synced ts w ->
  exists last' w',
    Forw env fuel time_ms last w = Some (last', w') /\
    stopped w' /\
    clock w' <= Z.max (clock w) (ts + 1 + update_ms env).
Proof.
  intros Hp Hu HB Hfuel Hs.
  destruct (Forw_total env fuel time_ms last w Hu HB Hfuel)
    as (last' & w' & E & _).
  exists last', w'. split; [exact E|]. split.
  - exact (proj1 (Forw_safe env fuel time_ms last w last' w' E)).
  - exact (proj2 (Forw_late env ts Hp fuel time_ms last w Hu Hs last' w' E)).
Qed.

Lemma Forw_stop_latency_witness :
  exists last' w',
    Forw (Scenario.pressed_at 1000) 201 2000 0 Scenario.boot
      = Some (last', w') /\
    stopped w' /\ clock w' <= 1002.
Proof.
  destruct (Forw_stop_latency (Scenario.pressed_at 1000) 1000 201 2000 0
              Scenario.boot) as (last' & w' & E & Hst & H).
  - reflexivity.
  - cbn. lia.
  - vm_compute. reflexivity.
  - vm_compute. reflexivity.
  - unfold synced. cbn. lia.
  - exists last', w'. split; [exact E|]. split; [exact Hst|]. cbn in H. lia.
Defined.

(** *** Buttons *)

(** X9: waiting for START.  Whenever [waitForStartAfterStop] returns, the
    run is enabled again, the motors are stopped and disabled, and its only
    [Motor] call was [Motor(Stop, 0)].  And it does return, within 60 ms,
    if the last debounced level of START was HIGH and the button is down
    from the moment of the call for 50 ms. *)
Theorem waitForStart_resumes (env : Env) (start_pin : Z -> bool)
    (fuel : nat) (p : Panel) (w : World) :
  (forall p' w',
     waitForStartAfterStop env start_pin fuel p w = Some (p', w') ->
     runEnabled p' = true /\ stopped w' /\
     exists pre, log w' = pre ++ log w /\ motors pre = [(Stop, 0)]) /\
  ((7 <= fuel)%nat ->
   stable p = true ->
   (forall t, clock w <= t <= clock w + 50 -> start_pin t = false) ->
   exists p' w',
     waitForStartAfterStop env start_pin fuel p w = Some (p', w') /\
     clock w' <= clock w + 60).
Proof.
  split.
  - intros p' w' E.
    exact (waitForStartAfterStop_safe env start_pin fuel p w p' w' E).
  - intros Hf Hs Hpin.
    destruct (waitForStartAfterStop_pressed env start_pin fuel p w Hf Hs Hpin)
      as (p' & w' & E & _ & _ & Hc).
    exists p', w'. split; [exact E|exact Hc].
Qed.

Lemma waitForStart_resumes_witness :
  exists p' w',
    waitForStartAfterStop Scenario.calm (fun _ => false) 7 panel0
      Scenario.halted = Some (p', w') /\
    runEnabled p' = true /\ stopped w' /\ clock w' <= 60.
Proof.
  destruct (waitForStart_resumes Scenario.calm (fun _ => false) 7 panel0
              Scenario.halted) as (Hsafe & Hlive).
  destruct Hlive as (p' & w' & E & Hc).
  - apply Nat.le_refl.
  - reflexivity.
  - intros t _. reflexivity.
  - destruct (Hsafe p' w' E) as (Hr & Hst & _).
    exists p', w'. split; [exact E|]. split; [exact Hr|].
    split; [exact Hst|]. cbn in Hc. lia.
Defined.

(** X10: a button held down is not a press.  If the last debounced level
    of START was LOW when [waitForStartAfterStop] is called (the button has
    been down since the run was started) and the button stays down, the
    wait never ends: however many times the loop polls, it does not
    return. *)
Theorem held_button_is_no_press (env : Env) (start_pin : Z -> bool)
    (p : Panel) (w : World) :
  stable p = false ->
  (forall t, clock w <= t -> start_pin t = false) ->
  forall fuel, waitForStartAfterStop env start_pin fuel p w = None.
Proof.
  intros Hs Hpin fuel.
  exact (waitForStartAfterStop_held env start_pin fuel p w Hs Hpin).
Qed.

Lemma held_button_is_no_press_witness :
  waitForStartAfterStop Scenario.calm (fun _ => false) 1000
    {| runEnabled := true; stable := false; lastRead := false; tLast := 0 |}
    Scenario.halted = None.
Proof.
  apply held_button_is_no_press.
  - reflexivity.
  - intros t _. reflexivity.
Defined.

Lemma serve_keeps (nows : list Z) :
  forall last, snd (serve nows (last, true)) = true.
Proof.
  induction nows as [|now rest IH]; intros last; [reflexivity|].
  cbn [serve fold_left]. unfold isrStop at 2.
  destruct (80 <? (now - last) mod ULONG); apply IH.
Qed.

Lemma serve_bounce (nows : list Z) (last : Z) (flag : bool) :
  0 <= last ->
  Forall (fun now => last <= now <= last + 80) nows ->
  serve nows (last, flag) = (last, flag).
Proof.
  intros Hl H. induction H as [|now rest Hn _ IH]; [reflexivity|].
  cbn [serve fold_left]. unfold isrStop at 2.
  assert (HU : ULONG = 4294967296) by reflexivity.
  rewrite Z.mod_small by lia.
  destruct (Z.ltb_spec 80 (now - last)); [lia|]. exact IH.
Qed.

(** X11: the debounce of STOP.  [isrStop] never lowers the flag.  The
    interrupts served within 80 ms of the last one it took change neither
    the flag nor the time it remembers, so the bounces of a press cannot
    raise the flag again once the main loop has lowered it.  And an
    interrupt served more than 80 ms (and less than 2^32 ms) after the last
    one taken raises the flag and is remembered. *)
Theorem isrStop_debounce (nows : list Z) (last : Z) (flag : bool) :
  (flag = true -> snd (serve nows (last, flag)) = true) /\
  (0 <= last ->
   Forall (fun now => last <= now <= last + 80) nows ->
   serve nows (last, flag) = (last, flag)) /\
  (forall now, last + 80 < now < last + ULONG ->
               isrStop now (last, flag) = (now, true)).
Proof.
  split; [|split].
  - intros ->. apply serve_keeps.
  - apply serve_bounce.
  - intros now Hn. unfold isrStop.
    assert (HU : ULONG = 4294967296) by reflexivity.
    rewrite Z.mod_small by lia.
    destruct (Z.ltb_spec 80 (now - last)); [reflexivity|lia].
Qed.

Lemma isrStop_debounce_witness :
  serve [1003; 1010; 1080] (1000, false) = (1000, false) /\
  isrStop 1081 (1000, false) = (1081, true).
Proof.
  destruct (isrStop_debounce [1003; 1010; 1080] 1000 false) as (_ & H1 & H2).
  split.
  - apply H1; [lia|]. repeat constructor; lia.
  - apply H2. vm_compute. split; reflexivity.
Defined.

Lemma polls_held (rs : list (bool * Z)) :
  forall p,
    stable p = false ->
    Forall (fun rn => fst rn = false) rs ->
    runEnabled (polls rs p) = runEnabled p /\ stable (polls rs p) = false.
Proof.
  induction rs as [|[r now] rest IH]; intros p Hs H; [auto|].
  inversion H as [|x l Hr Hrest]; subst. cbn [fst] in Hr. subst r.
  cbn [polls fold_left fst snd].
  assert (Hstep : runEnabled (pollStartButton false now p) = runEnabled p /\
                  stable (pollStartButton false now p) = false).
  { unfold pollStartButton. rewrite Hs. cbn [Bool.eqb negb].
    destruct (40 <? _); cbn [runEnabled stable]; auto. }
  destruct Hstep as (H1 & H2).
  destruct (IH (pollStartButton false now p) H2 Hrest) as (H3 & H4).
  unfold polls in *. split; [congruence|exact H4].
Qed.

Lemma polls_glitch (rs : list (bool * Z)) (t0 : Z) :
  forall p,
    lastRead p = false -> tLast p = t0 -> 0 <= t0 ->
    Forall (fun rn => fst rn = false /\ t0 <= snd rn <= t0 + 40) rs ->
    runEnabled (polls rs p) = runEnabled p /\
    stable (polls rs p) = stable p.
Proof.
  assert (HU : ULONG = 4294967296) by reflexivity.
  induction rs as [|[r now] rest IH]; intros p Hl Ht H0 H; [auto|].
  inversion H as [|x l Hr Hrest]; subst. cbn [fst snd] in Hr.
  destruct Hr as (-> & Hnow).
  cbn [polls fold_left fst snd].
  assert (Hstep : pollStartButton false now p =
                  {| runEnabled := runEnabled p; stable := stable p;
                     lastRead := false; tLast := tLast p |}).
  { unfold pollStartButton. rewrite Hl. cbn [Bool.eqb negb].
    rewrite Z.mod_small by lia.
    destruct (Z.ltb_spec 40 (now - tLast p)); [lia|reflexivity]. }
  rewrite Hstep.
  match goal with |- context [fold_left _ rest ?p1] =>
    destruct (IH p1) as (H1 & H2); [reflexivity|reflexivity|exact H0|exact Hrest|]
  end.
  unfold polls in *. cbn [runEnabled stable] in *. split; assumption.
Qed.

(** X12: the debounce of START.  (1) Once per press: while the debounced
    level is LOW and the pin keeps reading LOW, no poll enables the run,
    however long the button is held.  (2) Glitches: a released button whose
    pin reads LOW at [t0] and at any number of polls during the 40 ms
    that follow enables nothing and leaves the debounced level HIGH. *)
Theorem pollStartButton_debounce (rs : list (bool * Z)) (p : Panel) :
  (stable p = false ->
   Forall (fun rn => fst rn = false) rs ->
   runEnabled (polls rs p) = runEnabled p /\ stable (polls rs p) = false) /\
  (forall t0,
     0 <= t0 < ULONG ->
     lastRead p = true ->
     Forall (fun rn => fst rn = false /\ t0 <= snd rn <= t0 + 40) rs ->
     runEnabled (polls ((false, t0) :: rs) p) = runEnabled p /\
     stable (polls ((false, t0) :: rs) p) = stable p).
Proof.
  split.
  - intros Hs H. exact (polls_held rs p Hs H).
  - intros t0 Ht Hl H.
    assert (HU : ULONG = 4294967296) by reflexivity.
    cbn [polls fold_left fst snd].
    assert (Hstep : pollStartButton false t0 p =
                    {| runEnabled := runEnabled p; stable := stable p;
                       lastRead := false; tLast := t0 |}).
    { unfold pollStartButton. rewrite Hl. cbn [Bool.eqb negb].
      rewrite Z.sub_diag, Z.mod_0_l by lia. reflexivity. }
    rewrite Hstep.
    match goal with |- context [fold_left _ rs ?p1] =>
      destruct (polls_glitch rs t0 p1) as (H1 & H2);
        [reflexivity|reflexivity|lia|exact H|]
    end.
    unfold polls in *. cbn [runEnabled stable] in *. split; assumption.
Qed.

Lemma pollStartButton_debounce_witness :
  runEnabled (polls [(false, 500); (false, 510); (false, 540)] panel0) = false /\
  runEnabled (polls [(false, 500); (false, 510); (false, 541)] panel0) = true.
Proof.
  destruct (pollStartButton_debounce [(false, 510); (false, 540)] panel0)
    as (_ & H).
  destruct (H 500) as (H1 & _).
  - vm_compute. split; [discriminate|reflexivity].
  - reflexivity.
  - repeat constructor; cbn; lia.
  - split; [exact H1|reflexivity].
Defined.

(** *** The sign test and the main loop *)

(** X13: [detectYawSign] cannot be stopped.  It makes two readings; let
    [d] be their difference as the float subtraction gives it, at most
    [2^27] degrees in magnitude and with whole turns covered by the fuel.
    Then, whatever the stop flag, [detectYawSign] returns after exactly
    [500 + 2 * update_ms] ms, having turned the robot right at PWM 175 and
    then stopped it, and its verdict is whether [d], brought into
    [[-180, 180]] by whole turns, is positive. *)
Theorem detectYawSign_runs (env : Env) (fuel : nat) (w : World) :
  let d := fsub (heading env (S (updates w))) (heading env (updates w)) in
  (Qabs d <= inject_Z (2 ^ 27))%Q ->
  (Qabs d <= 360 * inject_Z (Z.of_nat fuel))%Q ->
  exists dz w',
    wraps d dz /\
    detectYawSign env (S fuel) w = Some (Qltb 0 dz, w') /\
    clock w' = clock w + 500 + 2 * update_ms env /\
    stopped w' /\
    (exists pre, log w' = pre ++ log w /\
                 motors pre = [(Stop, 0); (RotateRight, 175)]) /\
    updates w' = S (S (updates w)).
Proof.
  intros d Hb Hn.
  destruct (norm180_spec fuel d (f32_is_f32 _) Hb (fuel_covers _ _ Hn))
    as (dz & Ez & _ & Hw).
  destruct (detectYawSign_spec env (S fuel) w dz Ez)
    as (r & w' & E & -> & Hc & Hst & (pre & Hl & Hm) & Hu).
  exists dz, w'. split; [exact Hw|].
  split; [exact E|]. split; [exact Hc|]. split; [exact Hst|].
  split; [|exact Hu]. exists pre. split; assumption.
Qed.

Lemma detectYawSign_runs_witness :
  exists dz w',
    detectYawSign Scenario.swinging 3 Scenario.past_target
      = Some (Qltb 0 dz, w') /\
    clock w' = 702.
Proof.
  destruct (detectYawSign_runs Scenario.swinging 2 Scenario.past_target)
    as (dz & w' & _ & E & Hc & _).
  - vm_compute. discriminate.
  - vm_compute. discriminate.
  - exists dz, w'. split; [exact E|exact Hc].
Defined.

(** X14: a pass of [loop()].  While the run is not enabled a pass only
    polls START and waits 10 ms: no actuator pin changes and nothing is
    commanded.  A pass made with the run enabled, however it ends (route
    and pause completed, or STOP seen and START pressed again), leaves the
    run enabled and the motors stopped and disabled, and every [Motor] call
    it made is a full stop, [Forward] at 210 or 250, or a turn at one of
    the PWM levels of [Rotate]. *)
Theorem loop_pass (env : Env) (start_pin : Z -> bool) (fF fR fW : nat)
    (p : Panel) (last : Z) (w : World) (r : Panel * Z) (w' : World) :
  loop env start_pin fF fR fW p last w = Some (r, w') ->
  if runEnabled p
  then runEnabled (fst r) = true /\ stopped w' /\
       exists pre, log w' = pre ++ log w /\ Forall route_command (motors pre)
  else same_pins w w' /\ log w' = log w /\ clock w' = clock w + 10.
Proof.
  intros E.
  pose proof (loop_safe env start_pin fF fR fW p last w r w' E) as H.
  destruct (runEnabled p); [|exact H].
  destruct H as (H1 & H2 & H3).
  split; [exact H1|]. split; [exact H2|].
  apply issued_log. exact H3.
Qed.

Lemma loop_pass_witness :
  exists r w',
    loop Scenario.calm (fun _ => true) 201 enough_fuel 1
      {| runEnabled := true; stable := false; lastRead := false; tLast := 0 |}
      0 Scenario.boot = Some (r, w') /\
    runEnabled (fst r) = true /\ stopped w'.
Proof.
  assert (Hrun : exists r w',
            loop Scenario.calm (fun _ => true) 201 enough_fuel 1
              {| runEnabled := true; stable := false; lastRead := false;
                 tLast := 0 |} 0 Scenario.boot = Some (r, w')).
  { vm_compute. eexists. eexists. reflexivity. }
  destruct Hrun as (r & w' & E).
  pose proof (loop_pass _ _ _ _ _ _ _ _ _ _ E) as H.
  cbn [runEnabled] in H. destruct H as (H1 & H2 & _).
  exists r, w'. split; [exact E|]. split; assumption.
Defined.

End RobotFacts.

(** ** Further facts about the command engine *)

Module DriverFacts.
Import Engine EngineSpec EngineMore EngineFacts.

Local Open Scope string_scope.
Local Open Scope Z_scope.

(** *** The pins of the H-bridge *)

Lemma trace_app (ws1 ws2 : list (Pin * bool)) :
  forall s, trace (ws1 ++ ws2) s = (trace ws1 s ++ trace ws2 (settle ws1 s))%list.
Proof.
  induction ws1 as [|[p v] ws1 IH]; intros s; [reflexivity|].
  cbn [app trace settle fold_left fst snd]. rewrite IH. reflexivity.
Qed.

Lemma settle_app (ws1 ws2 : list (Pin * bool)) (s : Pins) :
  settle (ws1 ++ ws2) s = settle ws2 (settle ws1 s).
Proof. unfold settle. apply fold_left_app. Qed.

Lemma settle_writes (e : Event) (l : list Event) :
  settle (writes e) (pins_after (last_drv l)) = pins_after (last_drv (e :: l)).
Proof. destruct e; reflexivity. Qed.

Lemma settle_log (l : list Event) :
  settle (flat_map writes (rev l)) all_low = pins_after (last_drv l).
Proof.
  induction l as [|e l IH]; [reflexivity|].
  cbn [rev]. rewrite flat_map_app, settle_app, IH.
  cbn [flat_map]. rewrite app_nil_r. apply settle_writes.
Qed.

Lemma step_safe (e : Event) (d : option Event) :
  (if is_motion e then at_rest d else true) = true ->
  Forall (fun s => shorted s = false) (trace (writes e) (pins_after d)).
Proof.
  intros H.
  destruct e; cbn [writes trace]; try constructor;
    destruct d as [[]|]; cbn in H; try discriminate H;
    repeat constructor.
Qed.

Lemma play_safe (l : list Event) :
  stop_between l = true ->
  Forall (fun s => shorted s = false) (play (rev l)).
Proof.
  induction l as [|e l IH]; intros H; [constructor|].
  cbn [stop_between] in H. apply andb_true_iff in H. destruct H as (He & Hl).
  unfold play in *. cbn [rev].
  rewrite flat_map_app, trace_app, settle_log.
  cbn [flat_map]. rewrite app_nil_r.
  apply Forall_app. split; [apply IH; exact Hl|].
  apply step_safe. exact He.
Qed.

(** *** The runner stops the robot between two motions *)

Lemma cmd_update_cases (c : ICommand) (now : Z) :
  (cmd_update c now = (c, [])) \/
  (exists c', cmd_update c now = (c', [DrvStop]) /\ cmd_finished c' = true).
Proof.
  destruct c as [t|t|t|t|d|d|t]; cbn [cmd_update]; try (left; reflexivity);
    unfold timed_update;
    destruct (active t) eqn:Ea; cbn [negb]; try (left; reflexivity);
    destruct (duration t <=? (now - startTime t) mod ULONG);
    try (left; reflexivity);
    right; eexists; split; reflexivity.
Qed.

Lemma cmd_start_cases (c : ICommand) (now : Z) :
  exists c' e,
    cmd_start c now = (c', [e]) /\
    (e = DrvStop \/ e = PainterOn \/ e = PainterOff \/
     (is_motion e = true /\ cmd_finished c' = false)).
Proof.
  destruct c; cbn [cmd_start]; eexists _, _; (split; [reflexivity|]); auto 10.
Qed.

Lemma driver_ok_idle : driver_ok idle.
Proof. split; [reflexivity|discriminate]. Qed.

Lemma driver_ok_stop (r : Runner) : driver_ok r -> driver_ok (stop r).
Proof.
  intros (H1 & _). split; [cbn; exact H1|discriminate].
Qed.

Lemma driver_ok_start (f : option MemoryFile) (r : Runner) :
  driver_ok r -> driver_ok (start f r).
Proof.
  intros (H1 & _). split; [cbn; exact H1|discriminate].
Qed.

Lemma driver_ok_report (e : Event) (r : Runner) :
  runner_event e = false -> driver_ok r -> driver_ok (report e r).
Proof.
  intros He (H1 & H2). destruct e; try discriminate He;
    (split; [cbn; exact H1|cbn; exact H2]).
Qed.

Lemma driver_ok_update (now : Z) (r : Runner) :
  driver_ok r -> driver_ok (update now r).
Proof.
  intros (H1 & H2). unfold update.
  destruct (running r); cbn [negb]; [|split; assumption].
  destruct (current r) as [c|] eqn:Ec.
  - destruct (cmd_update_cases c now) as [E|(c' & E & Hfin)]; rewrite E.
    + destruct (cmd_finished c) eqn:Ef.
      * split; [exact H1|]. cbn [out current app]. intros Hm.
        destruct (H2 Hm) as (c0 & Hc0 & Hf0).
        inversion Hc0; subst c0. congruence.
      * split; [exact H1|]. cbn [out current app]. intros _.
        exists c. split; [reflexivity|exact Ef].
    + rewrite Hfin. split; [cbn; exact H1|discriminate].
  - assert (Hrest : at_rest (last_drv (out r)) = true).
    { destruct (at_rest (last_drv (out r))) eqn:Ea; [reflexivity|].
      destruct (H2 eq_refl) as (c0 & Hc0 & _). discriminate Hc0. }
    assert (Hfinish : driver_ok (finish r)).
    { split; [cbn; exact H1|discriminate]. }
    destruct (file r) as [f|]; [|exact Hfinish].
    destruct (available f); cbn [negb]; [|exact Hfinish].
    unfold readLine. destruct (parse (nth (idx f) (lines f) "")) as [c|].
    + destruct (cmd_start_cases c now) as (c' & e & E & He). rewrite E.
      split.
      * cbn [out app stop_between last_drv is_motion].
        rewrite H1, Hrest. destruct (is_motion e); reflexivity.
      * cbn [out app current]. intros Hm.
        destruct He as [->|[->|[->|(Hmot & Hf)]]].
        -- discriminate Hm.
        -- cbn in Hm. congruence.
        -- cbn in Hm. congruence.
        -- exists c'. split; [reflexivity|exact Hf].
    + split; [cbn; exact H1|]. cbn [out current last_drv is_motion].
      intros Hm. congruence.
Qed.

Lemma driver_ok_reachable (r : Runner) : reachable r -> driver_ok r.
Proof.
  induction 1.
  - apply driver_ok_idle.
  - apply driver_ok_stop. assumption.
  - apply driver_ok_start. assumption.
  - apply driver_ok_update. assumption.
Qed.

Lemma driver_ok_cycles (entries : list Entry) (selected : string)
    (inputs : list (bool * Z)) :
  forall c, driver_ok (runner c) ->
            driver_ok (runner (cycles entries selected inputs c)).
Proof.
  induction inputs as [|[pressed now] rest IH]; intros c H; [exact H|].
  cbn [cycles]. apply IH. unfold controller_update. cbn [runner].
  assert (Hedge : driver_ok (if pressed && negb (last c)
                             then on_start_edge entries selected (enabled c)
                                    (runner c)
                             else runner c)).
  { destruct (pressed && negb (last c)); [|exact H].
    unfold on_start_edge.
    destruct (enabled c); cbn [negb];
      [|apply driver_ok_report; [reflexivity|exact H]].
    destruct (running (runner c));
      [apply driver_ok_report; [reflexivity|exact H]|].
    destruct (fs_open entries selected).
    - apply driver_ok_start. apply driver_ok_report; [reflexivity|].
      apply driver_ok_report; [reflexivity|exact H].
    - apply driver_ok_report; [reflexivity|].
      apply driver_ok_report; [reflexivity|exact H]. }
  unfold poll. destruct (enabled c); [|exact Hedge].
  match goal with |- driver_ok (if finishedAll ?r then _ else _) =>
    assert (Hu : driver_ok r) by (apply driver_ok_update; exact Hedge);
    destruct (finishedAll r); [apply driver_ok_report; [reflexivity|exact Hu]|exact Hu]
  end.
Qed.

(** X15: no shoot-through.  Carried out on the pins of [MotorDriver] from
    the state [setup()] leaves, the calls the engine makes to the driver
    never put both inputs of one side of the H-bridge HIGH, not even
    between two writes of one call: this holds for the runner driven in any
    way through [start], [stop] and [update], and for the whole sketch over
    any sequence of button levels and clock readings, with any file system.
    The reason is that the engine calls [stop()] between any two motions;
    [forward()] called directly after [backward()] does pass through such a
    state. *)
Theorem no_shoot_through :
  (forall r, reachable r ->
             Forall (fun s => shorted s = false) (play (rev (out r)))) /\
  (forall entries selected inputs,
     Forall (fun s => shorted s = false)
       (play (rev (out (runner (cycles entries selected inputs power_on)))))) /\
  existsb shorted (play [DrvBackward; DrvForward]) = true.
Proof.
  split; [|split].
  - intros r H. apply play_safe. exact (proj1 (driver_ok_reachable r H)).
  - intros entries selected inputs. apply play_safe.
    exact (proj1 (driver_ok_cycles entries selected inputs power_on
                    driver_ok_idle)).
  - reflexivity.
Qed.

Lemma no_shoot_through_witness :
  Forall (fun s => shorted s = false)
    (play (rev (out (update 1400 (update 700 (update 0
                       (start (Some {| lines := ["B 700"; "F 700"]; idx := 0 |})
                          idle))))))).
Proof.
  apply (proj1 no_shoot_through).
  repeat apply reach_update. apply reach_start. apply reach_idle.
Defined.

End DriverFacts.

(** ** Programs run to their end *)

Module ProgramFacts.
Import Engine EngineSpec EngineMore EngineFacts DriverFacts.

Local Open Scope string_scope.
Local Open Scope Z_scope.

(** *** Timed commands *)

Lemma reading_elapsed (s t : Z) :
  0 <= t - s < ULONG -> (t mod ULONG - s mod ULONG) mod ULONG = t - s.
Proof.
  intros H. rewrite <- Zminus_mod. apply Z.mod_small. exact H.
Qed.

Lemma finished_stays (nows : list Z) :
  forall c, cmd_finished c = true -> cmd_updates nows c = (c, []).
Proof.
  induction nows as [|now rest IH]; intros c Hf; [reflexivity|].
  cbn [cmd_updates].
  assert (E : cmd_update c now = (c, [])).
  { destruct c as [t|t|t|t|d|d|t]; cbn [cmd_update cmd_finished] in *;
      try reflexivity; unfold timed_update; rewrite Hf; reflexivity. }
  rewrite E, (IH c Hf). reflexivity.
Qed.

Lemma started_polls (c : ICommand) (s : Z) (nows : list Z) :
  is_timed c = true ->
  Forall (fun t => 0 <= t - s < ULONG) nows ->
  forall c1,
    c1 = fst (cmd_start c (s mod ULONG)) ->
    let late := existsb (fun t => cmd_duration c <=? t - s) nows in
    cmd_finished (fst (cmd_updates (map (fun t => t mod ULONG) nows) c1)) = late /\
    snd (cmd_updates (map (fun t => t mod ULONG) nows) c1) =
      if late then [DrvStop] else [].
Proof.
  intros Ht H.
  induction H as [|t rest Hin _ IH]; intros c1 ->.
  - cbn. split; [|reflexivity]. destruct c; try discriminate Ht; reflexivity.
  - cbn [map cmd_updates existsb].
    specialize (IH _ eq_refl). cbv zeta in IH.
    destruct c as [tc|tc|tc|tc|d|d|tc]; try discriminate Ht;
      cbn [cmd_start fst cmd_update cmd_duration] in *;
      unfold timed_update, timed_start in *;
      cbn [active negb duration startTime] in *;
      rewrite reading_elapsed by exact Hin;
      (destruct (Z.leb_spec (duration tc) (t - s)) as [Hle|Hgt];
       [ rewrite finished_stays by reflexivity;
         cbn [orb app on_finish fst snd cmd_finished active negb];
         split; reflexivity
       | cbn [orb on_finish];
         match goal with
         | |- context [cmd_updates ?l ?x] =>
             destruct (cmd_updates l x) as [c2 e2]
         end;
         cbn [fst snd] in *; rewrite app_nil_r; exact IH ]).
Qed.

(** X16: a timed command is exact, also across the wrap of the clock.
    A command of duration [d], started when the clock stood at [s] and
    polled at any instants less than 2^32 ms later (the readings being
    taken modulo 2^32), is finished after these polls exactly if one of
    them came [d] ms or more after the start; it has then called [stop()]
    once, and otherwise not at all. *)
Theorem timed_command_exact (c : ICommand) (s : Z) (nows : list Z) :
  is_timed c = true ->
  Forall (fun t => 0 <= t - s < ULONG) nows ->
  let c1 := fst (cmd_start c (s mod ULONG)) in
  let r := cmd_updates (map (fun t => t mod ULONG) nows) c1 in
  let late := existsb (fun t => cmd_duration c <=? t - s) nows in
  cmd_finished (fst r) = late /\
  snd r = if late then [DrvStop] else [].
Proof.
  intros Ht H. cbv zeta.
  exact (started_polls c s nows Ht H _ eq_refl).
Qed.

Lemma timed_command_exact_witness :
  let c1 := fst (cmd_start (CmdForward (timed 700)) ((ULONG - 100) mod ULONG)) in
  cmd_finished (fst (cmd_updates [ULONG - 50; 599] c1)) = false /\
  cmd_finished (fst (cmd_updates [ULONG - 50; 599; 600; 601] c1)) = true /\
  snd (cmd_updates [ULONG - 50; 599; 600; 601] c1) = [DrvStop].
Proof.
  cbv zeta.
  destruct (timed_command_exact (CmdForward (timed 700)) (ULONG - 100)
              [ULONG - 50; ULONG + 599]) as (H1 & _).
  { reflexivity. }
  { repeat constructor; vm_compute; discriminate. }
  destruct (timed_command_exact (CmdForward (timed 700)) (ULONG - 100)
              [ULONG - 50; ULONG + 599; ULONG + 600; ULONG + 601])
    as (H2 & H3).
  { reflexivity. }
  { repeat constructor; vm_compute; discriminate. }
  split; [exact H1|]. split; [exact H2|exact H3].
Defined.

(** *** The lines of a program *)

Lemma echoes_app (a b : list Event) : echoes (a ++ b) = (echoes a ++ echoes b)%list.
Proof.
  induction a as [|e a IH]; [reflexivity|].
  destruct e; cbn [app echoes]; rewrite IH; reflexivity.
Qed.

Lemma echoes_cmd_update (c : ICommand) (now : Z) :
  echoes (snd (cmd_update c now)) = [].
Proof.
  destruct (cmd_update_cases c now) as [E|(c' & E & _)]; rewrite E; reflexivity.
Qed.

Lemma echoes_cmd_start (c : ICommand) (now : Z) :
  echoes (snd (cmd_start c now)) = [].
Proof. destruct c; reflexivity. Qed.

Lemma firstn_snoc (l : list string) (k : nat) :
  (k < List.length l)%nat ->
  firstn (S k) l = (firstn k l ++ [nth k l ""])%list.
Proof.
  revert k. induction l as [|x l IH]; intros k Hk; [cbn in Hk; lia|].
  destruct k as [|k]; [reflexivity|].
  cbn [List.length] in Hk.
  change (firstn (S (S k)) (x :: l)) with (x :: firstn (S k) l).
  rewrite IH by lia. reflexivity.
Qed.

Lemma reading_order_update (prog : list string) (out0 : list Event)
    (now : Z) (r : Runner) :
  reading prog out0 r -> reading prog out0 (update now r).
Proof.
  intros (k & evs & Hk & Hout & Hecho & Hfile & Hst).
  unfold update.
  destruct Hst as [(Hrun & Hfin)|(Hrun & Hfin & Hall)]; rewrite Hrun;
    cbn [negb];
    [|exists k, evs; repeat (split; [assumption|]); right; auto].
  destruct (current r) as [c|].
  - pose proof (echoes_cmd_update c now) as He.
    destruct (cmd_update c now) as [c' evs']. cbn [snd] in He.
    destruct (cmd_finished c');
      (exists k, (evs' ++ evs)%list;
       cbn [out file running finishedAll];
       split; [exact Hk|];
       split; [rewrite Hout; apply app_assoc|];
       split; [rewrite echoes_app, He; exact Hecho|];
       split; [exact Hfile|left; auto]).
  - rewrite Hfile. unfold available. cbn [idx lines].
    destruct (Nat.ltb_spec k (List.length prog)) as [Hlt|Hge]; cbn [negb].
    + unfold readLine. cbn [idx lines].
      destruct (parse (nth k prog "")) as [c|].
      * pose proof (echoes_cmd_start c now) as He.
        destruct (cmd_start c now) as [c' evs']. cbn [snd] in He.
        exists (S k), (evs' ++ SerialLine (nth k prog "") :: evs)%list.
        cbn [out file running finishedAll].
        split; [lia|].
        split; [rewrite Hout, <- app_assoc; reflexivity|].
        split; [rewrite echoes_app, He; cbn [app echoes rev];
                rewrite Hecho; symmetry; apply firstn_snoc; exact Hlt|].
        split; [reflexivity|left; auto].
      * exists (S k), (SerialLine (nth k prog "") :: evs)%list.
        cbn [out file running finishedAll].
        split; [lia|].
        split; [rewrite Hout; reflexivity|].
        split; [cbn [echoes rev]; rewrite Hecho; symmetry;
                apply firstn_snoc; exact Hlt|].
        split; [reflexivity|left; auto].
    + exists k, (DrvStop :: evs)%list. unfold finish.
      cbn [out file running finishedAll].
      split; [exact Hk|].
      split; [rewrite Hout; reflexivity|].
      split; [exact Hecho|].
      split; [exact Hfile|right].
      split; [reflexivity|]. split; [reflexivity|lia].
Qed.

Lemma reading_order_updates (prog : list string) (out0 : list Event)
    (nows : list Z) :
  forall r, reading prog out0 r -> reading prog out0 (updates nows r).
Proof.
  induction nows as [|now rest IH]; intros r H; [exact H|].
  cbn [updates]. apply IH. apply reading_order_update. exact H.
Qed.

Lemma reading_loaded (prog : list string) (r0 : Runner) :
  reading prog (out (loaded prog r0)) (loaded prog r0).
Proof.
  exists 0%nat, []. cbn. split; [lia|]. auto 10.
Qed.

(** X17: the lines of a program are read in order.  However the runner
    is polled after a program was loaded, the lines it has echoed so far
    are, in order, the first [k] lines of the program, [k] being its read
    position: no line is skipped, repeated or taken out of order.  And
    polling alone never abandons a program: the runner is either still
    running, or it has finished and then every line was read. *)
Theorem lines_read_in_order (prog : list string) (nows : list Z) (r0 : Runner) :
  let r := updates nows (loaded prog r0) in
  exists k evs,
    (k <= List.length prog)%nat /\
    out r = (evs ++ out (loaded prog r0))%list /\
    rev (echoes evs) = firstn k prog /\
    file r = Some {| lines := prog; idx := k |} /\
    ((running r = true /\ finishedAll r = false) \/
     (running r = false /\ finishedAll r = true /\ k = List.length prog)).
Proof.
  cbv zeta.
  exact (reading_order_updates prog _ nows _ (reading_loaded prog r0)).
Qed.

(** *** Completion *)

Lemma updates_stopped (nows : list Z) (r : Runner) :
  running r = false -> updates nows r = r.
Proof.
  intros H. induction nows as [|now rest IH]; [reflexivity|].
  cbn [updates]. unfold update at 1. rewrite H. cbn [negb]. exact IH.
Qed.

Lemma start_ready (c : ICommand) (gap t now : Z) :
  0 <= gap ->
  cmd_duration c <= gap ->
  gap <= now - t < ULONG ->
  cmd_finished (fst (cmd_update (fst (cmd_start c (t mod ULONG)))
                       (now mod ULONG))) = true.
Proof.
  intros Hg Hd Hn.
  destruct c as [tc|tc|tc|tc|d|d|tc]; try reflexivity;
    cbn [cmd_start fst cmd_update cmd_duration] in *;
    unfold timed_update, timed_start;
    cbn [active negb duration startTime];
    rewrite reading_elapsed by lia;
    (destruct (Z.leb_spec (duration tc) (now - t)); [reflexivity|lia]).
Qed.

Lemma run_to_end (prog : list string) (gap : Z) :
  0 <= gap ->
  short_lines gap prog ->
  forall (ts : list Z) (prev : Z) (r : Runner) (k : nat),
    spaced gap prev ts ->
    running r = true ->
    file r = Some {| lines := prog; idx := k |} ->
    (k <= List.length prog)%nat ->
    match current r with
    | None => True
    | Some c =>
        forall now, gap <= now - prev < ULONG ->
          cmd_finished (fst (cmd_update c (now mod ULONG))) = true
    end ->
    ((match current r with None => 0 | Some _ => 1 end) +
     2 * (List.length prog - k) + 1 <= List.length ts)%nat ->
    finishedAll (updates (map (fun t => t mod ULONG) ts) r) = true.
Proof.
  intros Hgap Hshort. induction ts as [|t rest IH];
    intros prev r k Hsp Hrun Hfile Hk Hcur Hlen; [cbn in Hlen; lia|].
  cbn [spaced] in Hsp. destruct Hsp as (Ht & Hsp).
  cbn [List.length] in Hlen. cbn [map updates].
  unfold update at 1. rewrite Hrun. cbn [negb].
  destruct (current r) as [c|].
  - specialize (Hcur t Ht).
    destruct (cmd_update c (t mod ULONG)) as [c' evs]. cbn [fst] in Hcur.
    rewrite Hcur.
    apply (IH t _ k Hsp); cbn [running file current]; try assumption; lia.
  - rewrite Hfile. unfold available. cbn [idx lines].
    destruct (Nat.ltb_spec k (List.length prog)) as [Hlt|Hge]; cbn [negb].
    + unfold readLine. cbn [idx lines].
      destruct (parse (nth k prog "")) as [c|] eqn:Ep.
      * assert (Hd : cmd_duration c <= gap).
        { unfold short_lines in Hshort. rewrite Forall_forall in Hshort.
          destruct (Hshort (nth k prog "") (nth_In _ _ Hlt)) as (_ & Hd0).
          rewrite Ep in Hd0. exact Hd0. }
        pose proof (fun now => start_ready c gap t now Hgap Hd) as Hready.
        destruct (cmd_start c (t mod ULONG)) as [c' evs]. cbn [fst] in Hready.
        apply (IH t _ (S k) Hsp); cbn [running file current];
          try assumption; try reflexivity; lia.
      * apply (IH t _ (S k) Hsp); cbn [running file current];
          try assumption; try reflexivity; try exact I; lia.
    + rewrite updates_stopped by reflexivity. reflexivity.
Qed.

(** X18: a program runs to its end.  Let the argument of every line of
    the program, if it has one, be plain (text in decimal notation whose
    value, rounded to a [float], is in the range of [unsigned long]), let
    no command of the program last longer than [gap], and let the runner
    be polled at instants at least [gap] and less than 2^32 ms apart.  Then
    two polls per line and one more bring the runner to FinishedAll,
    whatever the lines are (unknown ones included), and by then every line
    of the program has been echoed, in order. *)
Theorem program_completes (prog : list string) (gap prev : Z)
    (ts : list Z) (r0 : Runner) :
  0 <= gap ->
  short_lines gap prog ->
  spaced gap prev ts ->
  (2 * List.length prog + 1 <= List.length ts)%nat ->
  let r := updates (map (fun t => t mod ULONG) ts) (loaded prog r0) in
  finishedAll r = true /\ running r = false /\
  exists evs, out r = (evs ++ out (loaded prog r0))%list /\
              rev (echoes evs) = prog.
Proof.
  intros Hgap Hshort Hsp Hlen. cbv zeta.
  assert (Hfin : finishedAll (updates (map (fun t => t mod ULONG) ts)
                                (loaded prog r0)) = true).
  { apply (run_to_end prog gap Hgap Hshort ts prev _ 0%nat Hsp);
      try reflexivity; try exact I; cbn [current loaded start stop]; lia. }
  destruct (reading_order_updates prog _ (map (fun t => t mod ULONG) ts) _
              (reading_loaded prog r0))
    as (k & evs & Hk & Hout & Hecho & _ & Hst).
  destruct Hst as [(_ & Hf)|(Hrun & _ & Hall)]; [congruence|].
  split; [exact Hfin|]. split; [exact Hrun|].
  exists evs. split; [exact Hout|].
  rewrite Hecho, Hall. apply firstn_all.
Qed.

Lemma program_completes_witness :
  let r := updates (map (fun k => 1000 * Z.of_nat k) (seq 1 21))
             (loaded SQUARE idle) in
  finishedAll r = true /\ running r = false.
Proof.
  cbv zeta.
  destruct (program_completes SQUARE 1000 0
              (map (fun k => 1000 * Z.of_nat k) (seq 1 21)) idle)
    as (H1 & H2 & _).
  - lia.
  - repeat (apply Forall_cons; [split; vm_compute; [reflexivity|discriminate]|]).
    apply Forall_nil.
  - cbn. repeat split; try discriminate; try exact I.
  - cbn. lia.
  - split; [exact H1|exact H2].
Defined.

End ProgramFacts.

(** ** The argument of a command *)

Module ParserFacts.
Import Engine EngineSpec EngineMore EngineFacts.

Local Open Scope string_scope.
Local Open Scope Z_scope.

Lemma digits_uint_acc (d : Decimal.uint) :
  forall (acc : positive) (cnt : nat),
    digits (NilEmpty.string_of_uint d) (Z.pos acc) cnt =
      (Z.pos (Pos.of_uint_acc d acc), (cnt + Decimal.nb_digits d)%nat, "").
Proof.
  induction d; intros acc cnt; cbn [NilEmpty.string_of_uint Pos.of_uint_acc Decimal.nb_digits];
    [ rewrite Nat.add_0_r; reflexivity | .. ];
    cbn [digits]; 
    match goal with |- context [isdigit ?c] => change (isdigit c) with true end; cbv iota;
    match goal with |- context [Z.of_nat ?x] => let v := eval vm_compute in (Z.of_nat x) in change (Z.of_nat x) with v end;
    match goal with |- digits _ ?a _ = _ => 
      match goal with |- context [Pos.of_uint_acc d ?p] => replace a with (Z.pos p) by lia end end;
    rewrite IHd; rewrite Nat.add_succ_r; reflexivity.
Qed.

Lemma digits_uint (d : Decimal.uint) :
  forall cnt : nat,
    digits (NilEmpty.string_of_uint d) 0 cnt =
      (Z.of_N (Pos.of_uint d), (cnt + Decimal.nb_digits d)%nat, "").
Proof.
  induction d; intros cnt; cbn [NilEmpty.string_of_uint Pos.of_uint Decimal.nb_digits];
    [ rewrite Nat.add_0_r; reflexivity | .. ];
    cbn [digits]; 
    match goal with |- context [isdigit ?c] => change (isdigit c) with true end; cbv iota;
    match goal with |- context [Z.of_nat ?x] => let v := eval vm_compute in (Z.of_nat x) in change (Z.of_nat x) with v end;
    change (10 * 0 + 0) with 0;
    try (rewrite IHd; rewrite Nat.add_succ_r; reflexivity);
    match goal with |- digits _ ?a _ = _ => let v := eval vm_compute in a in change a with v end;
    rewrite digits_uint_acc; rewrite Nat.add_succ_r; reflexivity.
Qed.

Lemma decimal_head (n : Z) :
  exists c r, decimal n = String c r /\ isdigit c = true.
Proof.
  unfold decimal. destruct (Z.to_N n) as [|p]; [exists "0"%char, ""; split; reflexivity|].
  cbn [N.to_uint]. pose proof (Unsigned.to_uint_nonnil p) as Hn.
  destruct (Pos.to_uint p); [contradiction|..];
    cbn [NilEmpty.string_of_uint]; eexists _, _; (split; [reflexivity|reflexivity]).
Qed.

Lemma digit_facts (c : ascii) :
  isdigit c = true ->
  isspace c = false /\ forall r, sign_prefix (String c r) = (false, String c r).
Proof.
  destruct c as [b0 b1 b2 b3 b4 b5 b6 b7].
  destruct b0, b1, b2, b3, b4, b5, b6, b7; try discriminate; intros _; split; reflexivity.
Qed.

Lemma rtrim_keep (c : ascii) (r : string) :
  rtrim r = r -> r <> "" -> rtrim (String c r) = String c r.
Proof.
  intros H Hn. cbn [rtrim]. rewrite H. destruct r; [contradiction|reflexivity].
Qed.

Lemma rtrim_digits (d : Decimal.uint) :
  rtrim (NilEmpty.string_of_uint d) = NilEmpty.string_of_uint d.
Proof.
  induction d; [reflexivity|..]; cbn [NilEmpty.string_of_uint rtrim];
    rewrite IHd; destruct (NilEmpty.string_of_uint d); reflexivity.
Qed.

Lemma digit_no_word (c : ascii) :
  isdigit c = true ->
  forall r, starts_nocase (String c r) "inf" = false /\
            starts_nocase (String c r) "nan" = false.
Proof.
  destruct c as [b0 b1 b2 b3 b4 b5 b6 b7].
  destruct b0, b1, b2, b3, b4, b5, b6, b7; try discriminate;
    intros _ r; split; reflexivity.
Qed.

Lemma to_ulong_exact (q : Q) (n : Z) :
  0 <= n < ULONG -> (q == inject_Z n)%Q -> to_ulong (Finite q) = n.
Proof.
  intros Hn E. unfold to_ulong. unfold Qeq in E. cbn in E.
  rewrite Z.mul_1_r in E. rewrite E, Z.quot_mul by discriminate.
  apply Z.mod_small. exact Hn.
Qed.

(** Up to [2^24] every natural number is a [float]: its decimal notation
    is read exactly. *)
Lemma to_ulong_decimal (n : Z) :
  0 <= n <= 2 ^ 24 -> to_ulong (toFloat (decimal n)) = n.
Proof.
  intros Hn.
  destruct (decimal_head n) as (c & r & E & Hc).
  destruct (digit_facts c Hc) as (Hsp & Hsign).
  destruct (digit_no_word c Hc r) as (Hinf & Hnan).
  unfold toFloat. rewrite E. cbn [ltrim]. rewrite Hsp, Hsign, Hinf, Hnan.
  rewrite <- E.
  unfold decimal. rewrite digits_uint.
  change (Pos.of_uint (N.to_uint (Z.to_N n))) with (N.of_uint (N.to_uint (Z.to_N n))).
  rewrite DecimalN.Unsigned.of_to, Z2N.id by lia.
  cbn [Nat.add].
  assert (Hnb : exists k, Decimal.nb_digits (N.to_uint (Z.to_N n)) = S k).
  { unfold decimal in E. destruct (N.to_uint (Z.to_N n)); [discriminate E|..]; eexists; reflexivity. }
  destruct Hnb as (k & ->).
  cbv beta iota zeta.
  change (exponent "") with 0. change (Z.of_nat 0) with 0.
  assert (Hv : (Float32.f32 ((inject_Z n + inject_Z 0 / inject_Z (10 ^ 0))
                             * Qpower 10 0) == inject_Z n)%Q).
  { rewrite (Float32Facts.f32_comp _ (inject_Z n)).
    - apply Float32Facts.f32_fix, Float32Facts.is_f32_Z. lia.
    - change (Qpower 10 0) with 1%Q. change (inject_Z (10 ^ 0)) with 1%Q.
      change (inject_Z 0) with 0%Q. field. }
  assert (Hsmall : Qle_bool (inject_Z (2 ^ 128))
                     (Float32.f32 ((inject_Z n + inject_Z 0 / inject_Z (10 ^ 0))
                                   * Qpower 10 0)) = false).
  { destruct (Qle_bool _ _) eqn:Eb; [|reflexivity].
    apply Qle_bool_iff in Eb. rewrite Hv in Eb.
    rewrite <- Zle_Qle in Eb.
    assert (2 ^ 24 < 2 ^ 128) by reflexivity. lia. }
  rewrite Hsmall.
  apply to_ulong_exact; [|exact Hv].
  assert (2 ^ 24 < ULONG) by reflexivity. lia.
Qed.

(** Beyond [2^24] the argument is rounded to a [float] before it is
    truncated. *)
Example argument_is_rounded :
  parse "F 16777217" = Some (CmdForward (timed 16777216)) /\
  parse "F 3.9999999" = Some (CmdForward (timed 4)) /\
  parse "WAIT 4294967295" = Some (CmdWait (timed 0)).
Proof. repeat split; vm_compute; reflexivity. Qed.

(** X19: the argument of a command is its decimal number.  For every
    [n] from 0 to [2^24] = 16777216 (the natural numbers up to which every
    one is a [float]), the lines made of [F], [B] or [WAIT], one space and
    [n] written in decimal are parsed into the forward, backward and wait
    command of exactly [n] ms. *)
Theorem argument_is_decimal (n : Z) :
  0 <= n <= 2 ^ 24 ->
  parse ("F " ++ decimal n) = Some (CmdForward (timed n)) /\
  parse ("B " ++ decimal n) = Some (CmdBackward (timed n)) /\
  parse ("WAIT " ++ decimal n) = Some (CmdWait (timed n)).
Proof.
  intros Hn.
  destruct (decimal_head n) as (c & r & E & Hc).
  assert (Hr : rtrim (decimal n) = decimal n) by apply rtrim_digits.
  assert (Hne : decimal n <> "") by (rewrite E; discriminate).
  pose proof (to_ulong_decimal n Hn) as Hv.
  assert (Hc1 : Ascii.eqb c " " = false).
  { destruct (digit_facts c Hc) as (Hsp & _).
    destruct c as [b0 b1 b2 b3 b4 b5 b6 b7].
    destruct b0, b1, b2, b3, b4, b5, b6, b7; try discriminate; reflexivity. }
  assert (Htrim : forall pre,
            pre = "F" \/ pre = "B" \/ pre = "WAIT" ->
            trim (pre ++ String " " (decimal n)) = pre ++ String " " (decimal n)).
  { intros pre [-> | [-> | ->]]; unfold trim; cbn [append ltrim];
      repeat match goal with
             | |- context [isspace ?x] => change (isspace x) with false
             end; cbv iota;
      repeat (apply rtrim_keep; [|discriminate]);
      apply rtrim_keep; assumption. }
  split; [|split].
  - change ("F " ++ decimal n) with ("F" ++ String " " (decimal n)).
    unfold parse. rewrite Htrim by auto. cbn [append String.length Nat.eqb].
    unfold COMMAND_TABLE. cbn [parse_table token].
    change (startsWithToken (String "F" (String " " (decimal n))) "F") with true.
    cbv iota. cbn [hasArgument id create].
    change (extractArgument (String "F" (String " " (decimal n))))
      with (toFloat (decimal n)).
    rewrite Hv. reflexivity.
  - change ("B " ++ decimal n) with ("B" ++ String " " (decimal n)).
    unfold parse. rewrite Htrim by auto. cbn [append String.length Nat.eqb].
    unfold COMMAND_TABLE. cbn [parse_table token].
    change (startsWithToken (String "B" (String " " (decimal n))) "F") with false.
    change (startsWithToken (String "B" (String " " (decimal n))) "B") with true.
    cbv iota. cbn [hasArgument id create].
    change (extractArgument (String "B" (String " " (decimal n))))
      with (toFloat (decimal n)).
    rewrite Hv. reflexivity.
  - change ("WAIT " ++ decimal n) with ("WAIT" ++ String " " (decimal n)).
    unfold parse. rewrite Htrim by auto. cbn [append String.length Nat.eqb].
    unfold COMMAND_TABLE. cbn [parse_table token].
    repeat match goal with
    | |- context [startsWithToken ?l ?t] =>
        let v := eval cbv in (startsWith l t) in
        match v with
        | false => change (startsWithToken l t) with false
        | true => change (startsWithToken l t) with true
        end
    end.
    cbv iota. cbn [hasArgument id create].
    match goal with
    | |- context [extractArgument ?l] =>
        change (extractArgument l) with (toFloat (decimal n))
    end.
    rewrite Hv. reflexivity.
Qed.

Lemma argument_is_decimal_witness :
  parse ("F " ++ decimal 16777216) = Some (CmdForward (timed 16777216)).
Proof.
  apply (argument_is_decimal 16777216). vm_compute. split; discriminate.
Defined.

(** *** White space around a line *)

Lemma ltrim_space (ws s : string) :
  all_space ws = true -> ltrim (ws ++ s) = ltrim s.
Proof.
  induction ws as [|c ws IH]; intros H; [reflexivity|].
  cbn [all_space] in H. apply andb_true_iff in H. destruct H as (Hc & Hws).
  cbn [append ltrim]. rewrite Hc. apply IH. exact Hws.
Qed.

Lemma rtrim_all_space (ws : string) : all_space ws = true -> rtrim ws = "".
Proof.
  induction ws as [|c ws IH]; intros H; [reflexivity|].
  cbn [all_space] in H. apply andb_true_iff in H. destruct H as (Hc & Hws).
  cbn [rtrim]. rewrite (IH Hws), Hc. reflexivity.
Qed.

Lemma rtrim_space (s ws : string) :
  all_space ws = true -> rtrim (s ++ ws) = rtrim s.
Proof.
  intros H. induction s as [|c s IH].
  - cbn [append]. rewrite rtrim_all_space by exact H. reflexivity.
  - cbn [append rtrim]. rewrite IH. reflexivity.
Qed.

Lemma ltrim_all_space (ws : string) : all_space ws = true -> ltrim ws = "".
Proof.
  induction ws as [|c ws IH]; intros H; [reflexivity|].
  cbn [all_space] in H. apply andb_true_iff in H. destruct H as (Hc & Hws).
  cbn [ltrim]. rewrite Hc. apply IH. exact Hws.
Qed.

Lemma trim_right (s ws : string) :
  all_space ws = true -> rtrim (ltrim (s ++ ws)) = rtrim (ltrim s).
Proof.
  intros H. induction s as [|c s IH].
  - cbn [append ltrim]. rewrite ltrim_all_space by exact H. reflexivity.
  - cbn [append ltrim]. destruct (isspace c); [exact IH|].
    change (String c (s ++ ws)) with (String c s ++ ws).
    apply rtrim_space. exact H.
Qed.

(** X20: white space around a line does not count.  A line of a program
    may be indented and may end in blanks, tabs or a carriage return: the
    parser makes of it what it makes of the line without them. *)
Theorem surrounding_space_ignored (ws1 line ws2 : string) :
  all_space ws1 = true ->
  all_space ws2 = true ->
  parse (ws1 ++ line ++ ws2) = parse line.
Proof.
  intros H1 H2. unfold parse, trim.
  rewrite ltrim_space by exact H1.
  rewrite trim_right by exact H2.
  reflexivity.
Qed.

Lemma surrounding_space_ignored_witness :
  parse (String "009" " " ++ "F 700" ++ String " " (String "013" "")) =
  Some (CmdForward (timed 700)).
Proof.
  rewrite surrounding_space_ignored; reflexivity.
Defined.

End ParserFacts.
